(** * pythogic.automaton.DFA: a shallow embedding and its checked properties

    The development follows [src/pythogic/automaton/DFA.py].  Python
    dictionaries are finite maps ([gmap]), Python sets and frozensets are
    finite sets ([gset]); exceptions are the [Raise] outcomes of a small
    error monad; [while] loops carry explicit fuel, and the theorems that
    speak of a result show that enough fuel exists.

    Python iterates a set in an order the language leaves open and a
    dictionary in the order of insertion; here a set is iterated in the
    order of [elements] and a dictionary in the order of [map_to_list].
    The order shows in two places of [minimize]: in the numbers given to
    the classes, for which the enumeration is a parameter of
    [minimize_with], and in the row of a class whose states disagree on a
    successor, where the last state met at line 89 decides; no statement
    below rests on such a row.

    The first part treats containers as values.  The module [Store] runs
    the same code over a store of objects, where aliasing and mutation in
    place are visible. *)

From Stdlib Require Import ZArith String List Lia.
From stdpp Require Import base decidable countable gmap sets list strings option fin_maps fin_sets.

Set Warnings "-clear-no-such-hyp".

Open Scope string_scope.
Open Scope list_scope.
Open Scope stdpp_scope.
Open Scope nat_scope.

(** ** Python values used as states *)

(** States are opaque hashable Python values.  The engine itself produces
    three kinds: [None] (the marker of a missing initial state, line 156),
    integers (the class labels of [minimize], line 86) and the sink.
    Strings stand for the labels a caller may choose.

    Modelled from the spec: the class [Sink] of [pythogic.automaton.misc]
    is not among the sources.  The spec calls it one synthetic sink state;
    [minimize] deep-copies sets that hold it and then compares and removes
    by equality (lines 61-70), so all its instances are equal to one
    another: one value, [SSink], distinct from every other state. *)
Inductive State : Type :=
  | SNone
  | SInt (n : Z)
  | SStr (s : string)
  | SSink.

Arguments SInt n%_Z.

#[global] Instance State_eq_dec : EqDecision State.
Proof. solve_decision. Defined.

Definition State_to_sum (s : State) : (unit + Z) + (string + unit) :=
  match s with
  | SNone => inl (inl tt)
  | SInt n => inl (inr n)
  | SStr x => inr (inl x)
  | SSink => inr (inr tt)
  end.

Definition State_of_sum (x : (unit + Z) + (string + unit)) : State :=
  match x with
  | inl (inl _) => SNone
  | inl (inr n) => SInt n
  | inr (inl x) => SStr x
  | inr (inr _) => SSink
  end.

#[global] Instance State_countable : Countable State.
Proof.
  apply (inj_countable' State_to_sum State_of_sum).
  by intros [].
Defined.

(** Python truth value of a state, as tested by [if initial_state and ...]
    (line 29) and [if s_prime and ...] (lines 67 and 74): [None], [0] and
    the empty string are false, an object without [__bool__] is true. *)
Definition truthy (s : State) : bool :=
  match s with
  | SNone => false
  | SInt n => negb (n =? 0)%Z
  | SStr x => negb (Nat.eqb (String.length x) 0)
  | SSink => true
  end.

(** [Sink()] *)
Definition Sink : State := SSink.

(** Modelled from the spec: [Symbol] and [Alphabet] of [pythogic.base] are
    not among the sources; a symbol is an opaque token with equality (its
    name), an alphabet holds a finite set [symbols]. *)
Definition Symbol : Type := string.

Record Alphabet : Type := mkAlphabet { symbols : gset Symbol }.

(** ** Exceptions *)

Inductive exn : Type :=
  | ValueError       (* raised by [_check_input]; the spec's MalformedAutomaton *)
  | KeyError         (* a failed dictionary lookup [d[k]] or [set.remove] *)
  | AssertionError   (* the [assert] of [word_acceptance]; the spec's OutOfAlphabet *)
  | TypeError.       (* an operation on an object of another kind *)

#[global] Instance exn_eq_dec : EqDecision exn.
Proof. solve_decision. Defined.

Inductive result (A : Type) : Type :=
  | Ok (a : A)
  | Raise (e : exn).
Arguments Ok {A} a.
Arguments Raise {A} e.

#[global] Instance result_eq_dec `{EqDecision A} : EqDecision (result A).
Proof. solve_decision. Defined.

#[global] Instance result_ret : MRet result := λ A a, Ok a.
#[global] Instance result_bind : MBind result := λ A B k m,
  match m with
  | Ok a => k a
  | Raise e => Raise e
  end.
#[global] Instance result_fmap : FMap result := λ A B f m,
  match m with
  | Ok a => Ok (f a)
  | Raise e => Raise e
  end.

(** [d[k]] on a dictionary *)
Definition getitem `{Countable K} {V : Type} (d : gmap K V) (k : K) : result V :=
  match d !! k with
  | Some v => Ok v
  | None => Raise KeyError
  end.

(** ** The DFA object *)

Record DFA : Type := mkDFA {
  alphabet : Alphabet;
  states : gset State;
  initial_state : State;
  accepting_states : gset State;
  transition_function : gmap State (gmap Symbol State);
}.

#[global] Instance Alphabet_eq_dec : EqDecision Alphabet.
Proof. solve_decision. Defined.

#[global] Instance DFA_eq_dec : EqDecision DFA.
Proof. solve_decision. Defined.

(** [_check_input] (lines 28-35).  Each [raise ValueError] is one branch. *)
Definition _check_input (alphabet : Alphabet) (states : gset State)
    (initial_state : State) (accepting_states : gset State)
    (transition_function : gmap State (gmap Symbol State)) : result unit :=
  if truthy initial_state && negb (bool_decide (initial_state ∈ states))
  then Raise ValueError
  else if existsb (λ s, negb (bool_decide (s ∈ states))) (elements accepting_states)
  then Raise ValueError
  else if existsb
       (λ '(s, sym2state),
          negb (bool_decide (s ∈ states))
          || existsb
               (λ '(sym, next_state),
                  negb (bool_decide (sym ∈ symbols alphabet))
                  && negb (bool_decide (next_state ∈ states)))
               (map_to_list sym2state))
       (map_to_list transition_function)
  then Raise ValueError
  else Ok tt.

(** [DFA(...)], that is [__init__] (lines 18-26) *)
Definition DFA_init (alphabet : Alphabet) (states : gset State)
    (initial_state : State) (accepting_states : gset State)
    (transition_function : gmap State (gmap Symbol State)) : result DFA :=
  _ ← _check_input alphabet states initial_state accepting_states transition_function;
  Ok (mkDFA alphabet states initial_state accepting_states transition_function).

(** ** Completion *)

(** [complete] (lines 37-46), after [sink = Sink()].  [transitions] is the
    deep copy of the input table: a value, so the copy is the table itself
    and the writes below build a new one.  The test [action in sym2state]
    reads the row of the input; the write [transitions[state][action] =
    sink] goes to the row of the same key in the copy, which exists because
    the copy has the keys of the input. *)
Definition complete_with (sink : State) (dfa : DFA) : result DFA :=
  let transitions := transition_function dfa in
  let transitions :=
    map_fold
      (λ state sym2state transitions,
         set_fold
           (λ action transitions,
              match sym2state !! action with
              | Some _ => transitions
              | None => alter (insert action sink) state transitions
              end)
           transitions (symbols (alphabet dfa)))
      transitions (transition_function dfa) in
  DFA_init (alphabet dfa) (states dfa ∪ {[sink]}) (initial_state dfa)
    (accepting_states dfa) transitions.

Definition complete (dfa : DFA) : result DFA := complete_with Sink dfa.

(** The row [complete] leaves in place of [sym2state]: the symbols of the
    alphabet that [sym2state] lacks go to the sink. *)
Definition completed_row (sink : State) (syms : gset Symbol)
    (sym2state : gmap Symbol State) : gmap Symbol State :=
  sym2state ∪ gset_to_gmap sink syms.

(** ** Word acceptance *)

(** The [for] loop and the final [return] of [word_acceptance] (lines
    173-178).  [self.transition_function[current_state]] is a plain
    subscript: it raises [KeyError] when the state has no row. *)
Fixpoint word_acceptance_from (self : DFA) (current_state : State)
    (word : list Symbol) : result bool :=
  match word with
  | [] => Ok (bool_decide (current_state ∈ accepting_states self))
  | char :: word =>
      sym2state ← getitem (transition_function self) current_state;
      match sym2state !! char with
      | None => Ok false
      | Some next_state => word_acceptance_from self next_state word
      end
  end.

(** [word_acceptance] (lines 170-178) *)
Definition word_acceptance (self : DFA) (word : list Symbol) : result bool :=
  if forallb (λ char, bool_decide (char ∈ symbols (alphabet self))) word
  then word_acceptance_from self (initial_state self) word
  else Raise AssertionError.

(** ** Reachable and coreachable states *)

(** The loop [while z_current != z_next: z_current = z_next; z_next =
    deepcopy(z_current); <body>] of lines 107-113 and 135-143, where [body]
    maps the copy to the value [z_next] has when the [for] loops end.
    [None] means that the fuel did not suffice. *)
Fixpoint while_changed {A : Type} `{EqDecision A} (fuel : nat) (body : A → A)
    (z_current z_next : A) : option A :=
  if bool_decide (z_current = z_next) then Some z_current
  else match fuel with
       | O => None
       | S fuel => while_changed fuel body z_next (body z_next)
       end.

(** Lines 110-113: every successor of a state of [z_current] is added. *)
Definition reachable_body (dfa : DFA) (z_current : gset State) : gset State :=
  set_fold
    (λ s z_next,
       match transition_function dfa !! s with
       | None => z_next
       | Some sym2state =>
           map_fold (λ a next_state z_next, z_next ∪ {[next_state]}) z_next sym2state
       end)
    z_current z_current.

(** Lines 116-123, and again 146-153: the table restricted to the edges
    whose source and target are both in [new_states]. *)
Definition restricted_transition_function (dfa : DFA) (new_states : gset State)
    : gmap State (gmap Symbol State) :=
  set_fold
    (λ s new_transition_function,
       match transition_function dfa !! s with
       | None => new_transition_function
       | Some sym2state =>
           map_fold
             (λ a next_state new_transition_function,
                if bool_decide (next_state ∈ new_states)
                then <[s := <[a := next_state]>
                              (default ∅ (new_transition_function !! s))]>
                       new_transition_function
                else new_transition_function)
             new_transition_function sym2state
       end)
    ∅ new_states.

(** What a computation that may run out of fuel ([None]) or raise does next. *)
Definition and_then {A B : Type} (m : option (result A))
    (k : A → option (result B)) : option (result B) :=
  match m with
  | None => None
  | Some (Raise e) => Some (Raise e)
  | Some (Ok a) => k a
  end.

(** [reachable] (lines 100-127) *)
Definition reachable (fuel : nat) (dfa : DFA) : option (result DFA) :=
  new_states ← while_changed fuel (reachable_body dfa) ∅ {[initial_state dfa]};
  let new_transition_function := restricted_transition_function dfa new_states in
  let new_final_states := new_states ∩ accepting_states dfa in
  Some (DFA_init (alphabet dfa) new_states (initial_state dfa) new_final_states
          new_transition_function).

(** Lines 138-143: a state with a successor already in [z_next] is added;
    the test reads the set as it grows. *)
Definition coreachable_body (dfa : DFA) (z_current : gset State) : gset State :=
  set_fold
    (λ state z_next,
       match transition_function dfa !! state with
       | None => z_next
       | Some sym2state =>
           if existsb (λ '(a, next_state), bool_decide (next_state ∈ z_next))
                (map_to_list sym2state)
           then z_next ∪ {[state]}
           else z_next
       end)
    z_current (states dfa).

(** [coreachable] (lines 129-159) *)
Definition coreachable (fuel : nat) (dfa : DFA) : option (result DFA) :=
  new_states ← while_changed fuel (coreachable_body dfa) ∅ (accepting_states dfa);
  let new_transition_function := restricted_transition_function dfa new_states in
  let initial_state :=
    if bool_decide (initial_state dfa ∈ new_states) then initial_state dfa else SNone in
  Some (DFA_init (alphabet dfa) new_states initial_state (accepting_states dfa)
          new_transition_function).

(** [trim] (lines 163-167) *)
Definition trim (fuel : nat) (dfa : DFA) : option (result DFA) :=
  and_then (reachable fuel dfa) (λ dfa, coreachable fuel dfa).

(** ** Minimization *)

(** A [for] loop whose body may raise: the loop stops at the first
    exception. *)
Fixpoint for_each {A B : Type} (l : list A) (acc : B) (body : A → B → result B)
    : result B :=
  match l with
  | [] => Ok acc
  | x :: l => acc ← body x acc; for_each l acc body
  end.

(** [any(f(x) for x in l)]: stops at the first true value, and at the
    first exception. *)
Fixpoint any_of {A : Type} (f : A → result bool) (l : list A) : result bool :=
  match l with
  | [] => Ok false
  | x :: l => b ← f x; if b : bool then Ok true else any_of f l
  end.

(** Lines 53-59: the pairs of states that agree on acceptance. *)
Definition same_acceptance_pairs (dfa : DFA) : gset (State * State) :=
  set_fold
    (λ state_s z_next,
       set_fold
         (λ state_t z_next,
            if bool_decide (state_s ∈ accepting_states dfa)
               && bool_decide (state_t ∈ accepting_states dfa)
               || negb (bool_decide (state_s ∈ accepting_states dfa))
                  && negb (bool_decide (state_t ∈ accepting_states dfa))
            then z_next ∪ {[(state_s, state_t)]}
            else z_next)
         z_next (states dfa))
    ∅ (states dfa).

(** Lines 66 and 73: [tf[s][a] if s in tf and a in tf[s] else None] *)
Definition successor_or_None (dfa : DFA) (s : State) (a : Symbol) : State :=
  match transition_function dfa !! s with
  | Some sym2state => default SNone (sym2state !! a)
  | None => SNone
  end.

(** The generator of lines 68-69 and 75-76, [pair x] being the pair looked
    up in [z_current] for the candidate [x]: [any(tf[q][a] == x and pair(x)
    in z_current for x in dfa.states if q in tf)]. *)
Definition any_successor_related (dfa : DFA) (z_current : gset (State * State))
    (q : State) (a : Symbol) (pair : State → State * State) : result bool :=
  any_of
    (λ x,
       sym2state ← getitem (transition_function dfa) q;
       next ← getitem sym2state a;
       Ok (bool_decide (next = x) && bool_decide (pair x ∈ z_current)))
    (filter (λ _, is_Some (transition_function dfa !! q)) (elements (states dfa))).

(** Lines 65-78 for one pair [(s, t)]: [true] when the pair is removed from
    [z_next] (and the loop over the symbols is left by [break]). *)
Fixpoint pair_removed (dfa : DFA) (z_current : gset (State * State))
    (s t : State) (actions : list Symbol) : result bool :=
  match actions with
  | [] => Ok false
  | a :: actions =>
      let s_prime := successor_or_None dfa s a in
      remove ← (if truthy s_prime
                then negb <$> any_successor_related dfa z_current t a
                                (λ t_prime, (s_prime, t_prime))
                else Ok false);
      if remove : bool then Ok true
      else
        let t_prime := successor_or_None dfa t a in
        remove ← (if truthy t_prime
                  then negb <$> any_successor_related dfa z_current s a
                                  (λ s_prime, (s_prime, t_prime))
                  else Ok false);
        if remove : bool then Ok true
        else pair_removed dfa z_current s t actions
  end.

(** Lines 64-78: one round of the refinement. *)
Definition minimize_body (dfa : DFA) (z_current : gset (State * State))
    : result (gset (State * State)) :=
  for_each (elements z_current) z_current
    (λ '(s, t) z_next,
       removed ← pair_removed dfa z_current s t (elements (symbols (alphabet dfa)));
       Ok (if removed : bool then z_next ∖ {[(s, t)]} else z_next)).

(** Lines 61-78 *)
Fixpoint minimize_loop (fuel : nat) (dfa : DFA)
    (z_current z_next : gset (State * State))
    : option (result (gset (State * State))) :=
  if bool_decide (z_current = z_next) then Some (Ok z_current)
  else match fuel with
       | O => None
       | S fuel =>
           match minimize_body dfa z_next with
           | Ok z => minimize_loop fuel dfa z_next z
           | Raise e => Some (Raise e)
           end
       end.

(** Lines 80-83: each state with the set of the states related to it. *)
Definition state2equiv_class_of (z_current : gset (State * State))
    : gmap State (gset State) :=
  set_fold
    (λ '(s, t) state2equiv_class,
       <[s := default ∅ (state2equiv_class !! s) ∪ {[t]}]> state2equiv_class)
    ∅ z_current.

(** Line 85 *)
Definition equivalence_classes_of (state2equiv_class : gmap State (gset State))
    : gset (gset State) :=
  list_to_set (snd <$> map_to_list state2equiv_class).

(** Line 86: the classes numbered from 0 in the order [order]. *)
Definition equiv_class2new_state_of (order : list (gset State))
    : gmap (gset State) State :=
  list_to_map (imap (λ i ec, (ec, SInt (Z.of_nat i))) order).

(** [equiv_class2new_state[state2equiv_class[state]]] *)
Definition new_state_of (state2equiv_class : gmap State (gset State))
    (equiv_class2new_state : gmap (gset State) State) (state : State) : result State :=
  ec ← getitem state2equiv_class state;
  getitem equiv_class2new_state ec.

(** Lines 86-98: the quotient automaton, [order] being the order in which
    [enumerate(equivalence_classes)] yields the classes. *)
Definition quotient (dfa : DFA) (state2equiv_class : gmap State (gset State))
    (order : list (gset State)) : result DFA :=
  let equiv_class2new_state := equiv_class2new_state_of order in
  let new_state := new_state_of state2equiv_class equiv_class2new_state in
  new_transition_function ←
    for_each (map_to_list (transition_function dfa)) ∅
      (λ '(state, sym2state) new_transition_function,
         new_state' ← new_state state;
         for_each (map_to_list sym2state) new_transition_function
           (λ '(action, next_state) new_transition_function,
              new_next_state ← new_state next_state;
              Ok (<[new_state' := <[action := new_next_state]>
                                    (default ∅ (new_transition_function !! new_state'))]>
                    new_transition_function)));
  new_final_states ←
    for_each (elements (accepting_states dfa)) ∅
      (λ old_state new_final_states,
         s ← new_state old_state; Ok (new_final_states ∪ {[s]}));
  new_initial_state ← new_state (initial_state dfa);
  DFA_init (alphabet dfa)
    (list_to_set (snd <$> map_to_list equiv_class2new_state))
    new_initial_state new_final_states new_transition_function.

(** [minimize] (lines 48-98).  A Python set is enumerated in an order the
    language leaves open: [enumerate_set] is the enumeration of the set of
    classes at line 86. *)
Definition minimize_with (enumerate_set : gset (gset State) → list (gset State))
    (fuel : nat) (orig_dfa : DFA) : option (result DFA) :=
  and_then (Some (complete orig_dfa)) (λ dfa,
  and_then (minimize_loop fuel dfa ∅ (same_acceptance_pairs dfa)) (λ z_current,
  let state2equiv_class := state2equiv_class_of z_current in
  let equivalence_classes := equivalence_classes_of state2equiv_class in
  Some (quotient dfa state2equiv_class (enumerate_set equivalence_classes)))).

Definition minimize (fuel : nat) (orig_dfa : DFA) : option (result DFA) :=
  minimize_with elements fuel orig_dfa.

(** ** Bounds for the loops *)

(** The targets of the transitions of a table *)
Definition targets (tf : gmap State (gmap Symbol State)) : gset State :=
  ⋃ (map_img <$> (map_to_list tf).*2).

(** Rounds after which the loop of [reachable], and of [coreachable], has
    come to rest. *)
Definition reachable_rounds (dfa : DFA) : nat :=
  size ({[initial_state dfa]} ∪ targets (transition_function dfa)).

Definition coreachable_rounds (dfa : DFA) : nat :=
  size (accepting_states dfa ∪ states dfa).

(** ** Well-formed automata *)

(** The three construction invariants of the documentation: the initial
    state, when there is one, is a state; the accepting states are states;
    every transition goes from a state, on a symbol of the alphabet, to a
    state. *)
Definition well_formed (dfa : DFA) : Prop :=
  (initial_state dfa = SNone ∨ initial_state dfa ∈ states dfa)
  ∧ accepting_states dfa ⊆ states dfa
  ∧ ∀ s sym2state, transition_function dfa !! s = Some sym2state →
      s ∈ states dfa
      ∧ ∀ sym next_state, sym2state !! sym = Some next_state →
          sym ∈ symbols (alphabet dfa) ∧ next_state ∈ states dfa.

#[global] Instance well_formed_dec dfa : Decision (well_formed dfa).
Proof.
  change (Decision
            ((initial_state dfa = SNone ∨ initial_state dfa ∈ states dfa)
             ∧ accepting_states dfa ⊆ states dfa
             ∧ map_Forall
                 (λ s sym2state,
                    s ∈ states dfa
                    ∧ map_Forall
                        (λ sym next_state,
                           sym ∈ symbols (alphabet dfa) ∧ next_state ∈ states dfa)
                        sym2state)
                 (transition_function dfa))).
  apply _.
Defined.

(** The automata the constructor returns: those whose fields pass
    [_check_input]. *)
Definition constructed (dfa : DFA) : Prop :=
  _check_input (alphabet dfa) (states dfa) (initial_state dfa)
    (accepting_states dfa) (transition_function dfa) = Ok tt.

(** The initial state is absent: the field holds [None], and [None] is
    not the name of a state. *)
Definition no_initial_state (dfa : DFA) : Prop :=
  initial_state dfa = SNone ∧ SNone ∉ states dfa.

(** ** What [minimize] relies on *)

(** Every row belongs to a state, is defined on every symbol of the
    alphabet, and leads to states: what [complete] establishes for the rows
    there are. *)
Definition rows_total (dfa : DFA) : Prop :=
  ∀ s sym2state, transition_function dfa !! s = Some sym2state →
    s ∈ states dfa
    ∧ (∀ a, a ∈ symbols (alphabet dfa) → is_Some (sym2state !! a))
    ∧ ∀ a t, sym2state !! a = Some t → t ∈ states dfa.

(** Every state of [X] is related to itself. *)
Definition reflexive_on (X : gset State) (z : gset (State * State)) : Prop :=
  ∀ x, x ∈ X → (x, x) ∈ z.

(** ** Examples *)

(** The automaton of the documentation: [0 -a-> 1 -b-> 2], [2] accepting
    with loops on [a] and [b]. *)
Definition ex_alphabet : Alphabet := mkAlphabet {[ "a"; "b" ]}.
Definition ex_tf : gmap State (gmap Symbol State) :=
  {[ SInt 0 := {[ "a" := SInt 1 ]};
     SInt 1 := {[ "b" := SInt 2 ]};
     SInt 2 := {[ "a" := SInt 2; "b" := SInt 2 ]} ]}.


Definition ex_dfa : DFA :=
  mkDFA ex_alphabet {[ SInt 0; SInt 1; SInt 2 ]} (SInt 0) {[ SInt 2 ]} ex_tf.


(** A state that accepts and has no outgoing transition, hence no row in
    the table: the automaton of the single word [a]. *)
Definition only_a_dfa : DFA :=
  mkDFA (mkAlphabet {[ "a" ]}) {[ SInt 0; SInt 1 ]} (SInt 0) {[ SInt 1 ]}
    {[ SInt 0 := {[ "a" := SInt 1 ]} ]}.

(** The constructor called on the fields of [dfa] *)
Definition rebuild (dfa : DFA) : result DFA :=
  DFA_init (alphabet dfa) (states dfa) (initial_state dfa) (accepting_states dfa)
    (transition_function dfa).

(** A transition on [z], which is not in the alphabet [{a, b}]. *)
Definition foreign_symbol_dfa : DFA :=
  mkDFA ex_alphabet {[ SInt 1 ]} (SInt 1) ∅ {[ SInt 1 := {[ "z" := SInt 1 ]} ]}.

(** A transition to [7], which is not a state. *)
Definition foreign_target_dfa : DFA :=
  mkDFA ex_alphabet {[ SInt 1 ]} (SInt 1) ∅ {[ SInt 1 := {[ "a" := SInt 7 ]} ]}.

(** The initial state [0] is not a state. *)
Definition foreign_initial_dfa : DFA :=
  mkDFA ex_alphabet {[ SInt 1 ]} (SInt 0) ∅ ∅.

(** The automaton of the documentation without its initial state *)
Definition ex_dfa_no_initial : DFA :=
  mkDFA ex_alphabet {[ SInt 0; SInt 1; SInt 2 ]} SNone {[ SInt 2 ]} ex_tf.

(** An initial state from which no accepting state is reached: no
    transition leaves [0], and only [1] accepts. *)
Definition dead_start_dfa : DFA :=
  mkDFA (mkAlphabet {[ "a" ]}) {[ SInt 0; SInt 1 ]} (SInt 0) {[ SInt 1 ]} ∅.

(** Two states, [1] and the sink, that [minimize] merges although [1]
    leads to the accepting state [0]: the successor [0] is false as a
    Python value and is skipped by the tests of lines 67 and 74. *)
Definition merged_dfa : DFA :=
  mkDFA ex_alphabet {[ SInt 0; SInt 1; SInt 3 ]} (SInt 3) {[ SInt 0 ]}
    {[ SInt 0 := {[ "a" := SInt 0; "b" := SInt 0 ]};
       SInt 1 := {[ "a" := SInt 0; "b" := SInt 0 ]};
       SInt 3 := {[ "a" := SInt 1 ]} ]}.

(** Its completion, the pairs the loop of [minimize] ends with (every
    state is related to itself only), and the same for [merged_dfa]. *)
Definition ex_completed : DFA :=
  mkDFA ex_alphabet {[ SInt 0; SInt 1; SInt 2; SSink ]} (SInt 0) {[ SInt 2 ]}
    {[ SInt 0 := {[ "a" := SInt 1; "b" := SSink ]};
       SInt 1 := {[ "a" := SSink; "b" := SInt 2 ]};
       SInt 2 := {[ "a" := SInt 2; "b" := SInt 2 ]} ]}.

Definition ex_pairs : gset (State * State) :=
  {[ (SInt 0, SInt 0); (SInt 1, SInt 1); (SInt 2, SInt 2); (SSink, SSink) ]}.

Definition merged_completed : DFA :=
  mkDFA ex_alphabet {[ SInt 0; SInt 1; SInt 3; SSink ]} (SInt 3) {[ SInt 0 ]}
    {[ SInt 0 := {[ "a" := SInt 0; "b" := SInt 0 ]};
       SInt 1 := {[ "a" := SInt 0; "b" := SInt 0 ]};
       SInt 3 := {[ "a" := SInt 1; "b" := SSink ]} ]}.

Definition merged_pairs : gset (State * State) :=
  {[ (SInt 0, SInt 0); (SInt 1, SInt 1); (SInt 3, SInt 3); (SSink, SSink);
     (SInt 1, SSink); (SSink, SInt 1) ]}.

(** What [coreachable] returns on [dead_start_dfa] *)
Definition dead_start_coreachable : DFA :=
  mkDFA (mkAlphabet {[ "a" ]}) {[ SInt 1 ]} SNone {[ SInt 1 ]} ∅.

(** The computation [m] returns an automaton, on which [word_acceptance]
    has the outcome [outcome] for [word]. *)
Definition returns_with (m : option (result DFA)) (word : list Symbol)
    (outcome : result bool) : Prop :=
  match m with
  | Some (Ok dfa) => word_acceptance dfa word = outcome
  | _ => False
  end.

#[global] Instance returns_with_dec m word outcome : Decision (returns_with m word outcome).
Proof. destruct m as [[]|]; simpl; apply _. Defined.

(** The symbols of the alphabet, in the order the loop of line 65 meets
    them. *)
Definition alphabet_symbols (dfa : DFA) : list Symbol :=
  elements (symbols (alphabet dfa)).

(** ** Runs, reached states and accepted words

    The notions in which the properties of [word_acceptance],
    [reachable], [coreachable] and [trim] are stated. *)

(** [tf[s][a]] when both keys are there *)
Definition successor (tf : gmap State (gmap Symbol State)) (s : State) (a : Symbol)
    : option State :=
  sym2state ← tf !! s; sym2state !! a.

(** The state a word leads to from [s], when every transition on the way
    is defined. *)
Fixpoint run (tf : gmap State (gmap Symbol State)) (s : State) (word : list Symbol)
    : option State :=
  match word with
  | [] => Some s
  | a :: word => t ← successor tf s a; run tf t word
  end.

(** The states a path of transitions leads to from the initial state *)
Inductive reaches (dfa : DFA) : State → Prop :=
  | reaches_initial : reaches dfa (initial_state dfa)
  | reaches_step s a t :
      reaches dfa s → successor (transition_function dfa) s a = Some t → reaches dfa t.

(** The states from which a path of transitions through states of the
    automaton leads to an accepting state *)
Inductive coreaches (dfa : DFA) : State → Prop :=
  | coreaches_accepting s : s ∈ accepting_states dfa → coreaches dfa s
  | coreaches_step s a t :
      s ∈ states dfa → successor (transition_function dfa) s a = Some t →
      coreaches dfa t → coreaches dfa s.

(** The word is accepted: [word_acceptance] returns [True]. *)
Definition accepts (dfa : DFA) (word : list Symbol) : Prop :=
  word_acceptance dfa word = Ok true.

(** No row is an empty dictionary. *)
Definition no_empty_row (tf : gmap State (gmap Symbol State)) : Prop :=
  ∀ s sym2state, tf !! s = Some sym2state → sym2state ≠ ∅.

(** Every transition starts from a state. *)
Definition sources_are_states (dfa : DFA) : Prop :=
  ∀ s sym2state, transition_function dfa !! s = Some sym2state → s ∈ states dfa.

(** ** [_check_same_type] (lines 11-13) *)

(** The classes of the objects below, and [type] itself, the class of the
    classes. *)
Inductive PyClass : Type := NoneType_class | int_class | str_class | type_class.

#[global] Instance PyClass_eq_dec : EqDecision PyClass.
Proof. solve_decision. Defined.

(** The objects the iterable yields: [None], an integer, a string, or a
    class (a class is an object too, and may be an element). *)
Inductive PyObject : Type :=
  | PNone
  | PInt (n : Z)
  | PStr (s : string)
  | PClass (c : PyClass).

(** A value: an object that is not a class. *)
Definition is_value (o : PyObject) : Prop :=
  match o with
  | PClass _ => False
  | _ => True
  end.

(** [type(o)] *)
Definition type (o : PyObject) : PyClass :=
  match o with
  | PNone => NoneType_class
  | PInt _ => int_class
  | PStr _ => str_class
  | PClass _ => type_class
  end.

(** [c == o] for a class [c]: a class is equal to itself and to no other
    object. *)
Definition class_eq (c : PyClass) (o : PyObject) : bool :=
  match o with
  | PClass c' => bool_decide (c = c')
  | _ => false
  end.

(** [_check_same_type] (lines 11-13).  [len(l) > 0 and ...] is [False]
    on the empty list; otherwise the class of the first element is
    compared with each of the other elements. *)
Definition _check_same_type (i : list PyObject) : bool :=
  let l := i in
  match l with
  | [] => false
  | l0 :: rest => negb (forallb (λ symbol, class_eq (type l0) symbol) rest)
  end.

(** * The same code over a store of objects

    The definitions above treat sets and dictionaries as values.  In
    Python they are objects: a dictionary holds references to its rows, two
    names may refer to one object, and [add], [remove] and item assignment
    change the object in place.  This module runs the transformations
    over a store, with every container an object at a location, every
    mutation a write at a location, and every constructor, [set(...)],
    [dict(...)] and [deepcopy] an allocation.  Computations that only read
    ([_check_input], the tests of the refinement loop) are the functions
    above, applied to the values read from the store at that moment. *)

Module Store.

Definition loc : Type := positive.

Inductive object : Type :=
  | OAlphabet (symbols : gset Symbol)
  | OSet (X : gset State)                   (* set or frozenset of states *)
  | OPairs (Z : gset (State * State))       (* set of pairs of states *)
  | ORow (sym2state : gmap Symbol State)    (* dict from symbols to states *)
  | OTable (t : gmap State loc)             (* dict from states to objects *)
  | OClasses (C : gset (gset State))        (* set of frozensets *)
  | OLabels (m : gmap (gset State) State)   (* dict from frozensets to labels *)
  | ODFA (alphabet states : loc) (initial_state : State)
         (accepting_states transition_function : loc).

#[global] Instance object_eq_dec : EqDecision object.
Proof. solve_decision. Defined.

Abbreviation heap := (gmap loc object).

Inductive outcome (A : Type) : Type :=
  | Returned (a : A)
  | Raised (e : exn)
  | OutOfFuel.
Arguments Returned {A} a.
Arguments Raised {A} e.
Arguments OutOfFuel {A}.

#[global] Instance outcome_eq_dec `{EqDecision A} : EqDecision (outcome A).
Proof. solve_decision. Defined.

(** A computation takes the store and gives an outcome and the store it
    leaves, also when it raises or runs out of fuel. *)
Definition M (A : Type) : Type := heap → outcome A * heap.

#[global] Instance M_ret : MRet M := λ A a h, (Returned a, h).
#[global] Instance M_bind : MBind M := λ A B k m h,
  match m h with
  | (Returned a, h') => k a h'
  | (Raised e, h') => (Raised e, h')
  | (OutOfFuel, h') => (OutOfFuel, h')
  end.

Definition raise {A : Type} (e : exn) : M A := λ h, (Raised e, h).
Definition out_of_fuel {A : Type} : M A := λ h, (OutOfFuel, h).

Definition lift {A : Type} (r : result A) : M A :=
  match r with
  | Ok a => mret a
  | Raise e => raise e
  end.

(** A new object, at a location the store does not use. *)
Definition alloc (o : object) : M loc :=
  λ h, let l := fresh (dom h) in (Returned l, <[l := o]> h).

Definition read (l : loc) : M object :=
  λ h, match h !! l with
       | Some o => (Returned o, h)
       | None => (Raised TypeError, h)
       end.

(** The object at [l] is replaced: a mutation in place. *)
Definition write (l : loc) (o : object) : M unit :=
  λ h, (Returned tt, <[l := o]> h).

Definition get_symbols (l : loc) : M (gset Symbol) :=
  o ← read l; match o with OAlphabet X => mret X | _ => raise TypeError end.
Definition get_set (l : loc) : M (gset State) :=
  o ← read l; match o with OSet X => mret X | _ => raise TypeError end.
Definition get_pairs (l : loc) : M (gset (State * State)) :=
  o ← read l; match o with OPairs Z => mret Z | _ => raise TypeError end.
Definition get_row (l : loc) : M (gmap Symbol State) :=
  o ← read l; match o with ORow r => mret r | _ => raise TypeError end.
Definition get_table (l : loc) : M (gmap State loc) :=
  o ← read l; match o with OTable t => mret t | _ => raise TypeError end.
Definition get_classes (l : loc) : M (gset (gset State)) :=
  o ← read l; match o with OClasses C => mret C | _ => raise TypeError end.
Definition get_labels (l : loc) : M (gmap (gset State) State) :=
  o ← read l; match o with OLabels m => mret m | _ => raise TypeError end.

(** The attributes of a DFA object *)
Definition get_dfa (l : loc) : M (loc * loc * State * loc * loc) :=
  o ← read l;
  match o with
  | ODFA alphabet states initial_state accepting_states transition_function =>
      mret (alphabet, states, initial_state, accepting_states, transition_function)
  | _ => raise TypeError
  end.

(** [X.add(x)], [Z.add(p)], [Z.remove(p)], [row[a] = v], [table[s] = r] *)
Definition set_add (l : loc) (x : State) : M unit :=
  X ← get_set l; write l (OSet (X ∪ {[x]})).
Definition pairs_add (l : loc) (p : State * State) : M unit :=
  Z ← get_pairs l; write l (OPairs (Z ∪ {[p]})).
Definition pairs_remove (l : loc) (p : State * State) : M unit :=
  Z ← get_pairs l;
  if bool_decide (p ∈ Z) then write l (OPairs (Z ∖ {[p]})) else raise KeyError.
Definition row_setitem (l : loc) (a : Symbol) (v : State) : M unit :=
  r ← get_row l; write l (ORow (<[a := v]> r)).
Definition table_setitem (l : loc) (s : State) (r : loc) : M unit :=
  t ← get_table l; write l (OTable (<[s := r]> t)).

(** [table.setdefault(s, default)], [default] being the object the
    argument expression has built. *)
Definition table_setdefault (l : loc) (s : State) (default : loc) : M loc :=
  t ← get_table l;
  match t !! s with
  | Some r => mret r
  | None => write l (OTable (<[s := default]> t));; mret default
  end.

(** [set(X)], and [deepcopy] of a set of states or of pairs of states:
    a new set object with the same elements, which are immutable. *)
Definition copy_set (l : loc) : M loc := X ← get_set l; alloc (OSet X).
Definition copy_pairs (l : loc) : M loc := Z ← get_pairs l; alloc (OPairs Z).

(** [dict(t)]: a new dictionary that refers to the same row objects. *)
Definition copy_table (l : loc) : M loc := t ← get_table l; alloc (OTable t).

Fixpoint for_each {A : Type} (l : list A) (body : A → M unit) : M unit :=
  match l with
  | [] => mret tt
  | x :: l => body x;; for_each l body
  end.

(** A [for] loop that builds a value *)
Fixpoint fold_M {A B : Type} (l : list A) (acc : B) (body : A → B → M B) : M B :=
  match l with
  | [] => mret acc
  | x :: l => acc ← body x acc; fold_M l acc body
  end.

(** A [for] loop whose body may [break]: the body returns [true] to leave
    the loop. *)
Fixpoint for_each_break {A : Type} (l : list A) (body : A → M bool) : M unit :=
  match l with
  | [] => mret tt
  | x :: l => stop ← body x; if stop : bool then mret tt else for_each_break l body
  end.

(** [deepcopy] of a dictionary of rows: a new dictionary, and one new row
    for each row object of the original (a row object shared by two keys
    is copied once). *)
Definition deepcopy_table (l : loc) : M loc :=
  t ← get_table l;
  '(_, copied) ←
    fold_M (map_to_list t) ((∅ : gmap loc loc), (∅ : gmap State loc))
      (λ '(s, r) '(memo, copied),
         match memo !! r with
         | Some r' => mret (memo, <[s := r']> copied)
         | None =>
             sym2state ← get_row r;
             r' ← alloc (ORow sym2state);
             mret (<[r := r']> memo, <[s := r']> copied)
         end);
  alloc (OTable copied).

(** The values a table and its rows hold *)
Definition row_at (h : heap) (r : loc) : option (gmap Symbol State) :=
  match h !! r with
  | Some (ORow sym2state) => Some sym2state
  | _ => None
  end.

Definition table_at (h : heap) (l : loc) : option (gmap State (gmap Symbol State)) :=
  match h !! l with
  | Some (OTable t) =>
      if bool_decide (map_Forall (λ _ r, is_Some (row_at h r)) t)
      then Some (omap (row_at h) t)
      else None
  | _ => None
  end.

(** The automaton a DFA object stands for *)
Definition denote (h : heap) (dfa : loc) : option DFA :=
  match h !! dfa with
  | Some (ODFA alphabet states initial_state accepting_states transition_function) =>
      match h !! alphabet, h !! states, h !! accepting_states,
            table_at h transition_function with
      | Some (OAlphabet syms), Some (OSet X), Some (OSet F), Some tf =>
          Some (mkDFA (mkAlphabet syms) X initial_state F tf)
      | _, _, _, _ => None
      end
  | _ => None
  end.

Definition get_table_value (l : loc) : M (gmap State (gmap Symbol State)) :=
  λ h, match table_at h l with
       | Some tf => (Returned tf, h)
       | None => (Raised TypeError, h)
       end.

Definition value (dfa : loc) : M DFA :=
  λ h, match denote h dfa with
       | Some d => (Returned d, h)
       | None => (Raised TypeError, h)
       end.

(** [DFA(...)]: [_check_input] reads the arguments, then [__init__]
    stores the references in a new DFA object. *)
Definition DFA_init (alphabet states : loc) (initial_state : State)
    (accepting_states transition_function : loc) : M loc :=
  syms ← get_symbols alphabet;
  X ← get_set states;
  F ← get_set accepting_states;
  tf ← get_table_value transition_function;
  lift (_check_input (mkAlphabet syms) X initial_state F tf);;
  alloc (ODFA alphabet states initial_state accepting_states transition_function).

(** [complete] (lines 37-46) *)
Definition complete (dfa : loc) : M loc :=
  '(alphabet, states, initial_state, accepting_states, transition_function) ← get_dfa dfa;
  let sink := Sink in
  transitions ← deepcopy_table transition_function;
  items ← get_table transition_function;
  for_each (map_to_list items)
    (λ '(state, row),
       syms ← get_symbols alphabet;
       for_each (elements syms)
         (λ action,
            sym2state ← get_row row;
            match sym2state !! action with
            | Some _ => mret tt
            | None =>
                t ← get_table transitions;
                r ← lift (getitem t state);
                row_setitem r action sink
            end));;
  X ← get_set states;
  new_states ← alloc (OSet (X ∪ {[sink]}));
  new_transitions ← copy_table transitions;
  DFA_init alphabet new_states initial_state accepting_states new_transitions.

(** The loop [while z_current != z_next: z_current = z_next; z_next =
    deepcopy(z_current); <body>]: [body] is given the object both names
    refer to after the first assignment and returns the copy, as the [for]
    loops leave it.  The result is the object [z_current] names at the
    end. *)
Fixpoint while_changed (fuel : nat) (z_current z_next : loc) (body : loc → M loc)
    : M loc :=
  current ← read z_current;
  next ← read z_next;
  if bool_decide (current = next) then mret z_current
  else match fuel with
       | O => out_of_fuel
       | S fuel =>
           let z_current := z_next in
           z_next ← body z_current;
           while_changed fuel z_current z_next body
       end.

(** Lines 116-123 and 146-153 *)
Definition restricted_transition_function (transition_function new_states : loc)
    : M loc :=
  new_transition_function ← alloc (OTable ∅);
  X ← get_set new_states;
  for_each (elements X)
    (λ s,
       t ← get_table transition_function;
       match t !! s with
       | None => mret tt
       | Some row =>
           sym2state ← get_row row;
           for_each (map_to_list sym2state)
             (λ '(a, _),
                t ← get_table transition_function;
                row ← lift (getitem t s);
                sym2state ← get_row row;
                next_state ← lift (getitem sym2state a);
                X ← get_set new_states;
                if bool_decide (next_state ∈ X)
                then
                  empty ← alloc (ORow ∅);
                  _ ← table_setdefault new_transition_function s empty;
                  _ ← alloc (ORow ∅);
                  new_t ← get_table new_transition_function;
                  new_row ← lift (getitem new_t s);
                  row_setitem new_row a next_state
                else mret tt)
       end);;
  mret new_transition_function.

(** [reachable] (lines 100-127) *)
Definition reachable (fuel : nat) (dfa : loc) : M loc :=
  '(alphabet, states, initial_state, accepting_states, transition_function) ← get_dfa dfa;
  z_current ← alloc (OSet ∅);
  z_next ← alloc (OSet ∅);
  set_add z_next initial_state;;
  z_current ←
    while_changed fuel z_current z_next
      (λ z_current,
         z_next ← copy_set z_current;
         X ← get_set z_current;
         for_each (elements X)
           (λ s,
              t ← get_table transition_function;
              match t !! s with
              | None => mret tt
              | Some row =>
                  sym2state ← get_row row;
                  for_each (map_to_list sym2state)
                    (λ '(a, _),
                       t ← get_table transition_function;
                       row ← lift (getitem t s);
                       sym2state ← get_row row;
                       next_state ← lift (getitem sym2state a);
                       set_add z_next next_state)
              end);;
         mret z_next);
  let new_states := z_current in
  new_transition_function ← restricted_transition_function transition_function new_states;
  X ← get_set new_states;
  F ← get_set accepting_states;
  new_final_states ← alloc (OSet (X ∩ F));
  DFA_init alphabet new_states initial_state new_final_states new_transition_function.

(** [coreachable] (lines 129-159) *)
Definition coreachable (fuel : nat) (dfa : loc) : M loc :=
  '(alphabet, states, initial_state, accepting_states, transition_function) ← get_dfa dfa;
  z_current ← alloc (OSet ∅);
  _ ← alloc (OSet ∅);
  z_next ← copy_set accepting_states;
  z_current ←
    while_changed fuel z_current z_next
      (λ z_current,
         z_next ← copy_set z_current;
         X ← get_set states;
         for_each (elements X)
           (λ state,
              t ← get_table transition_function;
              match t !! state with
              | None => mret tt
              | Some row =>
                  sym2state ← get_row row;
                  for_each_break (map_to_list sym2state)
                    (λ '(a, _),
                       t ← get_table transition_function;
                       row ← lift (getitem t state);
                       sym2state ← get_row row;
                       next_state ← lift (getitem sym2state a);
                       Z ← get_set z_next;
                       if bool_decide (next_state ∈ Z)
                       then set_add z_next state;; mret true
                       else mret false)
              end);;
         mret z_next);
  let new_states := z_current in
  new_transition_function ← restricted_transition_function transition_function new_states;
  X ← get_set new_states;
  let initial_state := if bool_decide (initial_state ∈ X) then initial_state else SNone in
  DFA_init alphabet new_states initial_state accepting_states new_transition_function.

(** [trim] (lines 163-167) *)
Definition trim (fuel : nat) (dfa : loc) : M loc :=
  dfa ← reachable fuel dfa;
  coreachable fuel dfa.

(** [minimize] (lines 48-98) *)
Definition minimize_with (enumerate_set : gset (gset State) → list (gset State))
    (fuel : nat) (orig_dfa : loc) : M loc :=
  dfa ← complete orig_dfa;
  '(alphabet, states, initial_state, accepting_states, transition_function) ← get_dfa dfa;
  z_current ← alloc (OPairs ∅);
  z_next ← alloc (OPairs ∅);
  X ← get_set states;
  for_each (elements X)
    (λ state_s,
       X ← get_set states;
       for_each (elements X)
         (λ state_t,
            F ← get_set accepting_states;
            if bool_decide (state_s ∈ F) && bool_decide (state_t ∈ F)
               || negb (bool_decide (state_s ∈ F)) && negb (bool_decide (state_t ∈ F))
            then pairs_add z_next (state_s, state_t)
            else mret tt));;
  z_current ←
    while_changed fuel z_current z_next
      (λ z_current,
         z_next ← copy_pairs z_current;
         Z ← get_pairs z_current;
         for_each (elements Z)
           (λ '(s, t),
              d ← value dfa;
              Z ← get_pairs z_current;
              removed ← lift (pair_removed d Z s t (alphabet_symbols d));
              if removed : bool then pairs_remove z_next (s, t) else mret tt);;
         mret z_next);
  state2equiv_class ← alloc (OTable ∅);
  Z ← get_pairs z_current;
  for_each (elements Z)
    (λ '(s, t),
       empty ← alloc (OSet ∅);
       class ← table_setdefault state2equiv_class s empty;
       set_add class t);;
  classes ← get_table state2equiv_class;
  frozen ←
    fold_M (map_to_list classes) (∅ : gmap State loc)
      (λ '(k, v) frozen,
         X ← get_set v;
         v' ← alloc (OSet X);
         mret (<[k := v']> frozen));
  state2equiv_class ← alloc (OTable frozen);
  classes ← get_table state2equiv_class;
  C ← fold_M (map_to_list classes) (∅ : gset (gset State))
         (λ '(_, v) C, X ← get_set v; mret (C ∪ {[X]}));
  equivalence_classes ← alloc (OClasses C);
  C ← get_classes equivalence_classes;
  equiv_class2new_state ← alloc (OLabels (equiv_class2new_state_of (enumerate_set C)));
  let new_state_of (state : State) : M State :=
    classes ← get_table state2equiv_class;
    class ← lift (getitem classes state);
    X ← get_set class;
    labels ← get_labels equiv_class2new_state;
    lift (getitem labels X) in
  new_transition_function ← alloc (OTable ∅);
  items ← get_table transition_function;
  for_each (map_to_list items)
    (λ '(state, row),
       new_state ← new_state_of state;
       sym2state ← get_row row;
       for_each (map_to_list sym2state)
         (λ '(action, next_state),
            new_next_state ← new_state_of next_state;
            empty ← alloc (ORow ∅);
            _ ← table_setdefault new_transition_function new_state empty;
            new_t ← get_table new_transition_function;
            new_row ← lift (getitem new_t new_state);
            row_setitem new_row action new_next_state));;
  F ← get_set accepting_states;
  new_final ← fold_M (elements F) (∅ : gset State)
                 (λ old_state new_final, s ← new_state_of old_state; mret (new_final ∪ {[s]}));
  new_final_states ← alloc (OSet new_final);
  labels ← get_labels equiv_class2new_state;
  new_states ← alloc (OSet (list_to_set (snd <$> map_to_list labels)));
  new_initial_state ← new_state_of initial_state;
  DFA_init alphabet new_states new_initial_state new_final_states new_transition_function.

Definition minimize (fuel : nat) (orig_dfa : loc) : M loc :=
  minimize_with elements fuel orig_dfa.

(** A DFA object for the automaton [d], with objects of its own for the
    alphabet, the two sets, the table and each row. *)
Definition store_dfa (d : DFA) : M loc :=
  let '(mkDFA (mkAlphabet syms) X initial F tf) := d in
  alphabet ← alloc (OAlphabet syms);
  states ← alloc (OSet X);
  accepting_states ← alloc (OSet F);
  t ← fold_M (map_to_list tf) (∅ : gmap State loc)
         (λ '(s, sym2state) t, r ← alloc (ORow sym2state); mret (<[s := r]> t));
  transition_function ← alloc (OTable t);
  alloc (ODFA alphabet states initial accepting_states transition_function).

(** The automaton that [f] returns on the automaton [d], freshly stored. *)
Definition run_on (d : DFA) (f : loc → M loc) : outcome DFA :=
  match (dfa ← store_dfa d; dfa' ← f dfa; value dfa') ∅ with
  | (r, _) => r
  end.

(** The outcome of the definitions on values *)
Definition of_result (m : option (result DFA)) : outcome DFA :=
  match m with
  | Some (Ok d) => Returned d
  | Some (Raise e) => Raised e
  | None => OutOfFuel
  end.

(** ** What a computation leaves of the objects it found *)

(** Every object of [h] is in [h'], at its location and as it was. *)
Definition unchanged (h h' : heap) : Prop :=
  ∀ l o, h !! l = Some o → h' !! l = Some o.

(** [L] is the set of the locations in use when a transformation is
    called.  The store [h'] holds at the locations of [L] what [h] holds. *)
Definition agrees (L : gset loc) (h h' : heap) : Prop :=
  ∀ l, l ∈ L → h' !! l = h !! l.

(** The locations of [L] stay in use, and a dictionary of objects made
    since the call refers to objects made since the call. *)
Definition separated (L : gset loc) (h : heap) : Prop :=
  L ⊆ dom h
  ∧ ∀ l t, l ∉ L → h !! l = Some (OTable t) → ∀ s r, t !! s = Some r → r ∉ L.

(** The computation [m] keeps the stores separated, leaves the locations
    of [L] as they are, and returns only values that satisfy [Q]. *)
Definition safe {A : Type} (L : gset loc) (m : M A) (Q : A → Prop) : Prop :=
  ∀ h, separated L h →
    separated L (m h).2 ∧ agrees L h (m h).2 ∧ ∀ a, (m h).1 = Returned a → Q a.

(** The transformation [f] leaves its argument as it is: whatever the
    store and the DFA object [f] is called on, and however the call ends,
    every object of the store is afterwards what it was; so the object
    stands for the same automaton, with the same alphabet, states, initial
    state, accepting states and rows. *)
Definition leaves_argument_unchanged (f : loc → M loc) : Prop :=
  ∀ (h : heap) (dfa : loc),
    unchanged h (f dfa h).2
    ∧ ∀ d, denote h dfa = Some d → denote (f dfa h).2 dfa = Some d.

(** The store that holds the automaton [d] and nothing else, and the DFA
    object in it. *)
Definition store_of (d : DFA) : heap := (store_dfa d ∅).2.

Definition object_of (d : DFA) : loc :=
  match (store_dfa d ∅).1 with
  | Returned dfa => dfa
  | _ => 1%positive
  end.

End Store.

(** * Properties *)

(** ** Construction *)

Lemma existsb_false {A : Type} (f : A → bool) (l : list A) :
  existsb f l = false ↔ ∀ x, x ∈ l → f x = false.
Proof.
  induction l as [|y l IH]; simpl.
  - split; [intros _ x Hx; inversion Hx | done].
  - rewrite orb_false_iff, IH. split.
    + intros [Hy Hl] x Hx. apply elem_of_cons in Hx as [->|Hx]; auto.
    + intros H. split; [apply H; left | intros x Hx; apply H; by right].
Qed.

Lemma forallb_false {A : Type} (f : A → bool) (l : list A) :
  forallb f l = false ↔ ∃ x, x ∈ l ∧ f x = false.
Proof.
  induction l as [|y l IH]; simpl.
  - split; [done|]. intros (x & Hx & _). inversion Hx.
  - rewrite andb_false_iff, IH. split.
    + intros [Hy|(x & Hx & Hf)]; [exists y|exists x]; split; try done;
        [left|by right].
    + intros (x & Hx & Hf). apply elem_of_cons in Hx as [->|Hx]; eauto.
Qed.

(** What [_check_input] lets through: the initial state is checked only
    when it is true as a Python value, and a transition is refused only
    when both its symbol and its target are unknown. *)
Lemma check_input_Ok al sts init acc tf :
  _check_input al sts init acc tf = Ok tt ↔
    (truthy init = true → init ∈ sts)
    ∧ acc ⊆ sts
    ∧ ∀ s sym2state, tf !! s = Some sym2state →
        s ∈ sts
        ∧ ∀ sym next_state, sym2state !! sym = Some next_state →
            sym ∈ symbols al ∨ next_state ∈ sts.
Proof.
  unfold _check_input.
  destruct (truthy init && negb (bool_decide (init ∈ sts))) eqn:Hi.
  { split; [done|]. intros (Hinit & _).
    apply andb_true_iff in Hi as [Ht Hn]. apply negb_true_iff in Hn.
    apply bool_decide_eq_false in Hn. by specialize (Hinit Ht). }
  destruct (existsb _ (elements acc)) eqn:Ha.
  { split; [done|]. intros (_ & Hacc & _).
    apply existsb_exists in Ha as (s & Hs & Hn).
    apply list_elem_of_In, elem_of_elements in Hs.
    apply negb_true_iff, bool_decide_eq_false in Hn. set_solver. }
  destruct (existsb _ (map_to_list tf)) eqn:Ht.
  { split; [done|]. intros (_ & _ & Htf).
    apply existsb_exists in Ht as ([s row] & Hs & Hn).
    apply list_elem_of_In, elem_of_map_to_list in Hs.
    destruct (Htf s row Hs) as [Hin Hrow].
    apply orb_true_iff in Hn as [Hn|Hn].
    - apply negb_true_iff, bool_decide_eq_false in Hn. done.
    - apply existsb_exists in Hn as ([sym nxt] & Hx & Hn).
      apply list_elem_of_In, elem_of_map_to_list in Hx.
      apply andb_true_iff in Hn as [H1 H2].
      apply negb_true_iff, bool_decide_eq_false in H1.
      apply negb_true_iff, bool_decide_eq_false in H2.
      destruct (Hrow sym nxt Hx); done. }
  split; [intros _|done].
  split.
  { intros Htr. rewrite Htr in Hi. simpl in Hi.
    apply negb_false_iff, bool_decide_eq_true in Hi. done. }
  split.
  { intros s Hs. rewrite existsb_false in Ha.
    specialize (Ha s). rewrite elem_of_elements in Ha.
    specialize (Ha Hs). apply negb_false_iff, bool_decide_eq_true in Ha. done. }
  intros s row Hs. rewrite existsb_false in Ht.
  specialize (Ht (s, row)). rewrite elem_of_map_to_list in Ht.
  specialize (Ht Hs). simpl in Ht. apply orb_false_iff in Ht as [H1 H2].
  apply negb_false_iff, bool_decide_eq_true in H1. split; [done|].
  intros sym nxt Hx. rewrite existsb_false in H2.
  specialize (H2 (sym, nxt)). rewrite elem_of_map_to_list in H2.
  specialize (H2 Hx). simpl in H2.
  apply andb_false_iff in H2 as [H2|H2];
    apply negb_false_iff, bool_decide_eq_true in H2; auto.
Qed.

Lemma well_formed_constructed dfa : well_formed dfa → constructed dfa.
Proof.
  intros (Hi & Ha & Ht). apply check_input_Ok. split; [|split; [done|]].
  - intros Htr. destruct Hi as [Hi|Hi]; [|done]. rewrite Hi in Htr. done.
  - intros s row Hs. destruct (Ht s row Hs) as [? Hrow]. split; [done|].
    intros sym nxt Hx. right. by apply (Hrow sym nxt).
Qed.

Lemma DFA_init_Ok al sts init acc tf :
  _check_input al sts init acc tf = Ok tt →
  DFA_init al sts init acc tf = Ok (mkDFA al sts init acc tf).
Proof. intros H. unfold DFA_init. rewrite H. done. Qed.

Lemma DFA_init_inv al sts init acc tf dfa :
  DFA_init al sts init acc tf = Ok dfa →
  dfa = mkDFA al sts init acc tf ∧ constructed dfa.
Proof.
  unfold DFA_init, constructed.
  destruct (_check_input al sts init acc tf) as [[]|e] eqn:H; simpl; [|done].
  intros [= <-]. done.
Qed.

(** C2: the constructor returns automata that break a construction
    invariant.  A transition is refused only when its symbol is unknown and
    its target is unknown too (line 34 joins the two tests with [and]), and
    the initial state is not checked when it is [0] (line 29 tests its
    truth value): each of the three automata below is not well formed and
    is returned without error. *)
Theorem constructor_returns_malformed_automata :
  (¬ well_formed foreign_symbol_dfa ∧ rebuild foreign_symbol_dfa = Ok foreign_symbol_dfa)
  ∧ (¬ well_formed foreign_target_dfa ∧ rebuild foreign_target_dfa = Ok foreign_target_dfa)
  ∧ (¬ well_formed foreign_initial_dfa ∧ rebuild foreign_initial_dfa = Ok foreign_initial_dfa).
Proof.
  repeat split;
    compute_done.
Qed.

(** What does hold: a well-formed automaton is returned, and an accepting
    state or a source of a transition that is not a state is refused. *)
Lemma constructor_returns_well_formed dfa : well_formed dfa → rebuild dfa = Ok dfa.
Proof.
  intros H. unfold rebuild. rewrite (DFA_init_Ok _ _ _ _ _ (well_formed_constructed _ H)).
  by destruct dfa.
Qed.

Lemma check_input_raises_ValueError al sts init acc tf e :
  _check_input al sts init acc tf = Raise e → e = ValueError.
Proof. unfold _check_input. repeat case_match; congruence. Qed.

Lemma constructor_refuses_foreign_accepting al sts init acc tf s :
  s ∈ acc → s ∉ sts → DFA_init al sts init acc tf = Raise ValueError.
Proof.
  intros Hs Hn. unfold DFA_init.
  destruct (_check_input al sts init acc tf) as [[]|e] eqn:H; simpl.
  - apply check_input_Ok in H as (_ & Ha & _). set_solver.
  - by rewrite (check_input_raises_ValueError _ _ _ _ _ _ H).
Qed.

Lemma constructor_refuses_foreign_source al sts init acc tf s sym2state :
  tf !! s = Some sym2state → s ∉ sts → DFA_init al sts init acc tf = Raise ValueError.
Proof.
  intros Hs Hn. unfold DFA_init.
  destruct (_check_input al sts init acc tf) as [[]|e] eqn:H; simpl.
  - apply check_input_Ok in H as (_ & _ & Ht). by destruct (Ht s sym2state Hs).
  - by rewrite (check_input_raises_ValueError _ _ _ _ _ _ H).
Qed.

(** ** Word acceptance reads four fields *)

(** [word_acceptance] never reads the field [states]. *)
Lemma word_acceptance_ext dfa1 dfa2 word :
  alphabet dfa1 = alphabet dfa2 →
  initial_state dfa1 = initial_state dfa2 →
  accepting_states dfa1 = accepting_states dfa2 →
  transition_function dfa1 = transition_function dfa2 →
  word_acceptance dfa1 word = word_acceptance dfa2 word.
Proof.
  intros Hal Hi Hacc Htf. unfold word_acceptance. rewrite Hal, Hi.
  destruct (forallb _ word); [|done].
  generalize (initial_state dfa2). induction word as [|c w IH]; intros s; simpl.
  - by rewrite Hacc.
  - rewrite Htf. destruct (getitem (transition_function dfa2) s) as [row|]; simpl; [|done].
    destruct (row !! c); [apply IH|done].
Qed.

(** ** Completion *)

Section completion.
Variable sink : State.

(** The inner loop (lines 42-44) rewrites the row of [state] only. *)
Lemma complete_row_loop state (sym2state : gmap Symbol State)
    (transitions : gmap State (gmap Symbol State)) (syms : gset Symbol) s :
  set_fold
    (λ action transitions,
       match sym2state !! action with
       | Some _ => transitions
       | None => alter (insert action sink) state transitions
       end) transitions syms !! s
  = if decide (state = s)
    then (λ r, gset_to_gmap sink (syms ∖ dom sym2state) ∪ r) <$> transitions !! state
    else transitions !! s.
Proof.
  revert s.
  apply (set_fold_ind_L
           (λ T X, ∀ s, T !! s
              = if decide (state = s)
                then (λ r, gset_to_gmap sink (X ∖ dom sym2state) ∪ r) <$> transitions !! state
                else transitions !! s)).
  - intros s. case_decide; [subst|done].
    destruct (transitions !! s) as [r|]; simpl; [|done].
    f_equal. replace (∅ ∖ dom sym2state) with (∅ : gset Symbol) by set_solver.
    rewrite gset_to_gmap_empty. by rewrite (left_id_L ∅ (∪)).
  - intros x X T Hx IH s.
    destruct (sym2state !! x) as [y|] eqn:Hy.
    + rewrite IH. case_decide; [|done].
      replace (({[x]} ∪ X) ∖ dom sym2state) with (X ∖ dom sym2state); [done|].
      assert (x ∈ dom sym2state) by (apply elem_of_dom; eauto). set_solver.
    + rewrite lookup_alter. case_decide; [subst|].
      * rewrite IH. rewrite decide_True by done.
        destruct (transitions !! s) as [r|]; simpl; [|done].
        f_equal. apply map_eq. intros a.
        assert (x ∉ dom sym2state) by (by apply not_elem_of_dom).
        destruct (decide (a = x)) as [->|Hne].
        -- rewrite lookup_insert_eq. symmetry.
           apply lookup_union_Some_l, lookup_gset_to_gmap_Some. set_solver.
        -- rewrite lookup_insert_ne by done.
           rewrite !lookup_union, !lookup_gset_to_gmap.
           repeat case_guard; try done; set_solver.
      * rewrite IH. rewrite decide_False by done. done.
Qed.

(** The table [complete] builds: every row of the input, completed; no
    other row. *)
Lemma complete_loops (tf : gmap State (gmap Symbol State)) (syms : gset Symbol) :
  map_fold
    (λ state sym2state transitions,
       set_fold
         (λ action transitions,
            match sym2state !! action with
            | Some _ => transitions
            | None => alter (insert action sink) state transitions
            end)
         transitions syms)
    tf tf
  = completed_row sink syms <$> tf.
Proof.
  apply map_eq. intros s. rewrite lookup_fmap.
  cut (∀ m : gmap State (gmap Symbol State),
         map_fold
           (λ state (sym2state : gmap Symbol State) transitions,
              set_fold
                (λ action transitions,
                   match sym2state !! action with
                   | Some _ => transitions
                   | None => alter (insert action sink) state transitions
                   end)
                transitions syms) tf m !! s
         = match m !! s with
           | Some row => (λ r, gset_to_gmap sink (syms ∖ dom row) ∪ r) <$> tf !! s
           | None => tf !! s
           end).
  { intros H. rewrite (H tf).
    destruct (tf !! s) as [row|] eqn:Hrow; simpl; [|done].
    f_equal. unfold completed_row. apply map_eq. intros a.
    rewrite !lookup_union, !lookup_gset_to_gmap.
    destruct (row !! a) as [y|] eqn:Hy.
    - assert (a ∈ dom row) by (apply elem_of_dom; eauto).
      repeat case_guard; try done; set_solver.
    - assert (a ∉ dom row) by (by apply not_elem_of_dom).
      repeat case_guard; try done; set_solver. }
  apply (map_fold_weak_ind
           (λ T (m : gmap State (gmap Symbol State)),
              T !! s = match m !! s with
                            | Some row =>
                                (λ r, gset_to_gmap sink (syms ∖ dom row) ∪ r) <$> tf !! s
                            | None => tf !! s
                            end)).
  - by rewrite lookup_empty.
  - intros i x m T Hi IH. rewrite complete_row_loop.
    case_decide; [subst|].
    + rewrite lookup_insert_eq. rewrite Hi in IH.
      destruct (decide (tf !! s = T !! s)) as [->|]; [done|congruence].
    + rewrite lookup_insert_ne by done. done.
Qed.

Lemma lookup_completed_row syms (sym2state : gmap Symbol State) a :
  completed_row sink syms sym2state !! a
  = match sym2state !! a with
    | Some x => Some x
    | None => if decide (a ∈ syms) then Some sink else None
    end.
Proof.
  unfold completed_row. rewrite lookup_union, lookup_gset_to_gmap.
  destruct (sym2state !! a); simpl; case_guard; simpl; try case_decide; done.
Qed.

(** [complete] returns whenever the constructor returned its input. *)
Lemma complete_with_Ok dfa :
  constructed dfa →
  complete_with sink dfa
  = Ok (mkDFA (alphabet dfa) (states dfa ∪ {[sink]}) (initial_state dfa)
          (accepting_states dfa)
          (completed_row sink (symbols (alphabet dfa)) <$> transition_function dfa)).
Proof.
  intros Hc. unfold complete_with. rewrite complete_loops.
  apply DFA_init_Ok, check_input_Ok.
  apply check_input_Ok in Hc as (Hi & Ha & Ht).
  split; [|split].
  - set_solver.
  - set_solver.
  - intros s row. rewrite lookup_fmap.
    destruct (transition_function dfa !! s) as [row0|] eqn:Hs; simpl; [|done].
    intros [= <-]. destruct (Ht s row0 Hs) as [Hin Hrow]. split; [set_solver|].
    intros sym nxt. rewrite lookup_completed_row.
    destruct (row0 !! sym) as [y|] eqn:Hy.
    + intros [= <-]. destruct (Hrow sym y Hy); [by left|right; set_solver].
    + case_decide; [|done]. intros _. by left.
Qed.
End completion.

(** The row of a completed table is complete already. *)
Lemma completed_row_twice sink1 sink2 syms (sym2state : gmap Symbol State) :
  completed_row sink2 syms (completed_row sink1 syms sym2state)
  = completed_row sink1 syms sym2state.
Proof.
  apply map_eq. intros a. rewrite !lookup_completed_row.
  destruct (sym2state !! a); [done|]. by case_decide.
Qed.

(** Completing twice, whatever the two sinks are: the second pass writes
    no transition, it only adds its sink to the set of states. *)
Lemma complete_with_twice sink1 sink2 dfa dfa1 :
  complete_with sink1 dfa = Ok dfa1 →
  complete_with sink2 dfa1
  = Ok (mkDFA (alphabet dfa1) (states dfa1 ∪ {[sink2]}) (initial_state dfa1)
          (accepting_states dfa1) (transition_function dfa1)).
Proof.
  intros H1. pose proof H1 as H1'.
  unfold complete_with in H1'. rewrite complete_loops in H1'.
  apply DFA_init_inv in H1' as [Heq Hc1].
  rewrite (complete_with_Ok sink2 dfa1 Hc1). do 2 f_equal.
  rewrite Heq. simpl. apply map_eq. intros s. rewrite !lookup_fmap.
  destruct (transition_function dfa !! s); simpl; [|done].
  by rewrite completed_row_twice.
Qed.

(** C8: completion is idempotent.  For a well-formed automaton both
    completions return; the second returns the automaton it was given
    (the sink it would add is the one already there, and it writes no
    transition), so the two accept the same words with the same
    outcomes. *)
Theorem complete_idempotent (dfa : DFA) :
  well_formed dfa →
  ∃ dfa1 dfa2,
    complete dfa = Ok dfa1 ∧ complete dfa1 = Ok dfa2
    ∧ transition_function dfa2 = transition_function dfa1
    ∧ states dfa2 = states dfa1
    ∧ ∀ word, word_acceptance dfa2 word = word_acceptance dfa1 word.
Proof.
  intros Hwf. apply well_formed_constructed in Hwf.
  pose proof (complete_with_Ok Sink dfa Hwf) as H1.
  eexists _, _. split; [exact H1|].
  split; [apply (complete_with_twice Sink Sink dfa _ H1)|].
  simpl. split; [done|]. split; [set_solver|].
  intros word. by apply word_acceptance_ext.
Qed.

Lemma complete_idempotent_witness :
  well_formed ex_dfa
  ∧ ∃ dfa1 dfa2,
      complete ex_dfa = Ok dfa1 ∧ complete dfa1 = Ok dfa2
      ∧ transition_function dfa2 = transition_function dfa1
      ∧ states dfa2 = states dfa1
      ∧ ∀ word, word_acceptance dfa2 word = word_acceptance dfa1 word.
Proof.
  split; [compute_done|]. apply (complete_idempotent ex_dfa). compute_done.
Defined.

(** C3: completion leaves the transition function partial.  On the
    automaton of the documentation, which is well formed, [complete]
    returns an automaton that has the sink among its states and no row at
    all for it: no successor is defined for the sink on any symbol, while
    the claim asks for a self-loop on each. *)
Theorem complete_sink_has_no_row :
  well_formed ex_dfa
  ∧ ∃ dfa, complete ex_dfa = Ok dfa
      ∧ SSink ∈ states dfa
      ∧ "a" ∈ symbols (alphabet dfa)
      ∧ transition_function dfa !! SSink = None.
Proof.
  split; [compute_done|].
  exists ex_completed. split; [|split; [|split]]; compute_done.
Qed.

(** The sink, and every state without a row, stays without a row. *)
Lemma complete_keeps_rowless_states dfa dfa' s :
  complete dfa = Ok dfa' →
  transition_function dfa !! s = None → transition_function dfa' !! s = None.
Proof.
  intros Hc Hs. unfold complete, complete_with in Hc. rewrite complete_loops in Hc.
  apply DFA_init_inv in Hc as [-> _]. simpl. by rewrite lookup_fmap, Hs.
Qed.

(** What does hold: a state that has a row has, after completion, a
    successor on every symbol of the alphabet. *)
Lemma complete_total_on_rows dfa dfa' s a :
  complete dfa = Ok dfa' →
  is_Some (transition_function dfa !! s) → a ∈ symbols (alphabet dfa) →
  ∃ sym2state, transition_function dfa' !! s = Some sym2state
               ∧ is_Some (sym2state !! a).
Proof.
  intros Hc [row Hs] Ha. unfold complete, complete_with in Hc.
  rewrite complete_loops in Hc. apply DFA_init_inv in Hc as [-> _]. simpl.
  rewrite lookup_fmap, Hs. eexists. split; [done|].
  rewrite lookup_completed_row. destruct (row !! a); [done|].
  rewrite decide_True by done. done.
Qed.

(** ** Word acceptance *)

Lemma word_acceptance_from_not_AssertionError dfa w s :
  word_acceptance_from dfa s w ≠ Raise AssertionError.
Proof.
  revert s. induction w as [|c w IH]; intros s; simpl; [done|].
  unfold getitem. destruct (transition_function dfa !! s) as [row|]; simpl; [|done].
  destruct (row !! c); [apply IH|done].
Qed.

(** C7: [word_acceptance] raises the assertion error, which is the
    out-of-alphabet error of the documentation, exactly when some symbol of
    the word is not in the alphabet of the automaton. *)
Theorem word_acceptance_out_of_alphabet (dfa : DFA) (word : list Symbol) :
  word_acceptance dfa word = Raise AssertionError
  ↔ ∃ char, char ∈ word ∧ char ∉ symbols (alphabet dfa).
Proof.
  unfold word_acceptance.
  destruct (forallb _ word) eqn:Hall.
  - split.
    + intros H. by apply word_acceptance_from_not_AssertionError in H.
    + intros (c & Hc & Hn). rewrite forallb_forall in Hall.
      apply list_elem_of_In in Hc. apply Hall in Hc.
      by apply bool_decide_eq_true in Hc.
  - split; [intros _|done].
    apply forallb_false in Hall as (c & Hc & Hn).
    exists c. split; [done|]. by apply bool_decide_eq_false in Hn.
Qed.

(** C4: [word_acceptance] raises [KeyError] instead of returning false when
    the run reaches a state that has no row in the table.  The automaton
    of the single word [a] is well formed; on the word [aa] the run reaches
    the accepting state, which has no row. *)
Theorem word_acceptance_raises_without_row :
  well_formed only_a_dfa
  ∧ word_acceptance only_a_dfa ["a"] = Ok true
  ∧ word_acceptance only_a_dfa ["a"; "a"] = Raise KeyError.
Proof.
  split; [compute_done|].
  split; compute_done.
Qed.

(** Any symbol read in a state without a row raises. *)
Lemma word_acceptance_from_rowless dfa s char word :
  transition_function dfa !! s = None →
  word_acceptance_from dfa s (char :: word) = Raise KeyError.
Proof. intros Hs. simpl. unfold getitem. by rewrite Hs. Qed.

(** What does hold: from a state that has a row, a symbol the row lacks
    gives false and a symbol the row has moves to its target. *)
Lemma word_acceptance_from_step dfa s sym2state char word :
  transition_function dfa !! s = Some sym2state →
  word_acceptance_from dfa s (char :: word)
  = match sym2state !! char with
    | None => Ok false
    | Some next_state => word_acceptance_from dfa next_state word
    end.
Proof. intros Hs. simpl. unfold getitem. by rewrite Hs. Qed.

(** When every state has a row, [word_acceptance] returns a boolean. *)
Lemma word_acceptance_from_returns dfa s word :
  well_formed dfa → states dfa ⊆ dom (transition_function dfa) →
  s ∈ states dfa → ∃ b, word_acceptance_from dfa s word = Ok b.
Proof.
  intros Hwf Hdom. revert s. induction word as [|c w IH]; intros s Hs; simpl.
  - eauto.
  - apply Hdom, elem_of_dom in Hs as [row Hrow]. unfold getitem. rewrite Hrow. simpl.
    destruct (row !! c) as [t|] eqn:Ht; [|eauto].
    apply IH. destruct Hwf as (_ & _ & Htf).
    destruct (Htf s row Hrow) as [_ Hr]. by destruct (Hr c t Ht).
Qed.

(** C10: on the empty word [word_acceptance] returns whether the initial
    state is an accepting state, whatever the transition table is; for an
    automaton (a value of the constructor) without initial state this is
    false, and no exception is raised. *)
Theorem word_acceptance_empty_word (dfa : DFA) :
  word_acceptance dfa [] = Ok (bool_decide (initial_state dfa ∈ accepting_states dfa))
  ∧ (∀ tf, word_acceptance
             (mkDFA (alphabet dfa) (states dfa) (initial_state dfa)
                (accepting_states dfa) tf) []
           = word_acceptance dfa [])
  ∧ (constructed dfa → no_initial_state dfa → word_acceptance dfa [] = Ok false).
Proof.
  split; [done|]. split; [done|].
  intros Hc [Hi Hn]. unfold word_acceptance. simpl. f_equal.
  apply bool_decide_eq_false. rewrite Hi.
  apply check_input_Ok in Hc as (_ & Ha & _). set_solver.
Qed.

Lemma word_acceptance_empty_word_witness :
  constructed ex_dfa_no_initial ∧ no_initial_state ex_dfa_no_initial
  ∧ word_acceptance ex_dfa_no_initial [] = Ok false.
Proof.
  assert (constructed ex_dfa_no_initial) as Hc by compute_done.
  assert (no_initial_state ex_dfa_no_initial) as Hn by (split; compute_done).
  split; [done|]. split; [done|].
  destruct (word_acceptance_empty_word ex_dfa_no_initial) as (_ & _ & H).
  exact (H Hc Hn).
Defined.

(** ** The loops come to rest *)

Lemma while_changed_more_fuel {A : Type} `{EqDecision A} (body : A → A)
    fuel fuel' (c n z : A) :
  while_changed fuel body c n = Some z → fuel ≤ fuel' →
  while_changed fuel' body c n = Some z.
Proof.
  revert fuel' c n. induction fuel as [|fuel IH]; intros fuel' c n; simpl.
  - case_bool_decide; [|done]. intros [= <-] _.
    destruct fuel'; simpl; by rewrite bool_decide_eq_true_2.
  - case_bool_decide as Hcn.
    + intros [= <-] _. destruct fuel'; simpl; by rewrite bool_decide_eq_true_2.
    + intros Hz Hle. destruct fuel' as [|fuel']; [lia|]. simpl.
      rewrite bool_decide_eq_false_2 by done. apply IH; [done|lia].
Qed.

Section growing_loop.
Context `{Countable X}.
Variable body : gset X → gset X.
Variable U : gset X.
Hypothesis body_grows : ∀ z, z ⊆ U → z ⊆ body z ∧ body z ⊆ U.

(** A loop whose set only grows inside a finite set [U] stops after at
    most as many rounds as [U] has elements that the loop has not yet
    seen. *)
Lemma while_changed_rests fuel (c n : gset X) :
  c ⊆ n → n ⊆ U → size (U ∖ c) ≤ fuel →
  ∃ z, while_changed fuel body c n = Some z ∧ n ⊆ z ∧ z ⊆ U.
Proof.
  revert c n. induction fuel as [|fuel IH]; intros c n Hcn HnU Hsize; simpl.
  - assert (U ∖ c = ∅) as HUc.
    { apply leibniz_equiv, size_empty_iff. lia. }
    assert (c = n) as ->.
    { apply set_eq. intros x. split; [by apply Hcn|]. intros Hx.
      destruct (decide (x ∈ c)) as [|Hxc]; [done|].
      assert (x ∈ U ∖ c) as Hd by (apply elem_of_difference; auto).
      rewrite HUc in Hd. by apply not_elem_of_empty in Hd. }
    rewrite bool_decide_eq_true_2 by done. eauto.
  - case_bool_decide as Heq.
    + subst. eauto.
    + destruct (body_grows n HnU) as [Hg HgU].
      destruct (IH n (body n) Hg HgU) as (z & Hz & Hbz & HzU).
      * assert (U ∖ n ⊂ U ∖ c) as Hlt.
        { split.
          - intros x. rewrite !elem_of_difference. intros [? Hxn].
            split; [done|]. intros Hxc. by apply Hxn, Hcn.
          - intros Hsub. apply Heq. apply set_eq. intros x.
            split; [by apply Hcn|]. intros Hx.
            destruct (decide (x ∈ c)) as [|Hxc]; [done|].
            assert (x ∈ U ∖ c) as Hd by (apply elem_of_difference; auto).
            apply Hsub, elem_of_difference in Hd as [_ Hd]. done. }
        apply subset_size in Hlt. lia.
      * exists z. split; [done|]. split; [|done].
        intros x Hx. by apply Hbz, Hg.
Qed.
End growing_loop.

(** The set [reachable_body] returns: what it was given and the
    successors of its states. *)
Lemma elem_of_reachable_body dfa (z : gset State) x :
  x ∈ reachable_body dfa z
  ↔ x ∈ z ∨ ∃ s sym2state a, s ∈ z ∧ transition_function dfa !! s = Some sym2state
                              ∧ sym2state !! a = Some x.
Proof.
  unfold reachable_body.
  cut (∀ Y : gset State,
         x ∈ set_fold
               (λ s z_next,
                  match transition_function dfa !! s with
                  | None => z_next
                  | Some sym2state =>
                      map_fold (λ (a : Symbol) next_state (z_next : gset State),
                                  z_next ∪ {[next_state]}) z_next sym2state
                  end) z Y
         ↔ x ∈ z ∨ ∃ s sym2state a, s ∈ Y ∧ transition_function dfa !! s = Some sym2state
                                     ∧ sym2state !! a = Some x).
  { intros Hcut. apply Hcut. }
  apply (set_fold_ind_L
           (λ (acc : gset State) (Y : gset State),
              x ∈ acc
              ↔ x ∈ z ∨ ∃ s sym2state a, s ∈ Y
                          ∧ transition_function dfa !! s = Some sym2state
                          ∧ sym2state !! a = Some x)).
  - split; [auto|]. intros [?|(s & ? & ? & Hs & _)]; [done|set_solver].
  - intros s Y acc Hs IH.
    assert (∀ (row : gmap Symbol State),
              x ∈ map_fold (λ (a : Symbol) next_state (z_next : gset State),
                              z_next ∪ {[next_state]}) acc row
              ↔ x ∈ acc ∨ ∃ a, row !! a = Some x) as Hrow.
    { apply (map_fold_weak_ind
               (λ (r : gset State) (m : gmap Symbol State),
                  x ∈ r ↔ x ∈ acc ∨ ∃ a, m !! a = Some x)).
      - split; [auto|]. intros [?|[a Ha]]; [done|]. by rewrite lookup_empty in Ha.
      - intros a t m r Ha IHr. rewrite elem_of_union, elem_of_singleton, IHr.
        split.
        + intros [[?|[a' Ha']]| ->]; [by left| |].
          * right. exists a'. rewrite lookup_insert_ne; [done|]. intros ->. congruence.
          * right. exists a. by rewrite lookup_insert_eq.
        + intros [?|[a' Ha']]; [by left; left|].
          destruct (decide (a = a')) as [->|Hne].
          * rewrite lookup_insert_eq in Ha'. right. congruence.
          * rewrite lookup_insert_ne in Ha' by done. left. right. eauto. }
    destruct (transition_function dfa !! s) as [row|] eqn:Hs'.
    + rewrite Hrow, IH. split.
      * intros [[?|(s' & r' & a & ? & ? & ?)]|[a Ha]]; [by left| |].
        -- right. exists s', r', a. set_solver.
        -- right. exists s, row, a. set_solver.
      * intros [?|(s' & r' & a & Hin & Hr' & Ha)]; [by left; left|].
        apply elem_of_union in Hin as [Hin|Hin].
        -- apply elem_of_singleton in Hin as ->. right. exists a. congruence.
        -- left. right. eauto 10.
    + rewrite IH. split.
      * intros [?|(s' & r' & a & ? & ? & ?)]; [by left|].
        right. exists s', r', a. set_solver.
      * intros [?|(s' & r' & a & Hin & Hr' & Ha)]; [by left|].
        apply elem_of_union in Hin as [Hin|Hin].
        -- apply elem_of_singleton in Hin as ->. congruence.
        -- right. eauto 10.
Qed.

Lemma elem_of_targets (tf : gmap State (gmap Symbol State)) x :
  x ∈ targets tf ↔ ∃ s sym2state a, tf !! s = Some sym2state ∧ sym2state !! a = Some x.
Proof.
  unfold targets. rewrite elem_of_union_list. split.
  - intros (Y & HY & Hx). apply list_elem_of_fmap in HY as (row & -> & Hrow).
    apply list_elem_of_fmap in Hrow as ([s row'] & -> & Hin).
    apply elem_of_map_to_list in Hin. apply elem_of_map_img in Hx as [a Ha].
    eauto.
  - intros (s & row & a & Hs & Ha). exists (map_img row). split.
    + apply list_elem_of_fmap. exists row. split; [done|].
      apply list_elem_of_fmap. exists (s, row). split; [done|].
      by apply elem_of_map_to_list.
    + apply elem_of_map_img. eauto.
Qed.

(** Every row of the restricted table belongs to a state of [new_states]
    and leads into [new_states]. *)
Lemma restricted_transition_function_inside dfa (new_states : gset State) s sym2state :
  restricted_transition_function dfa new_states !! s = Some sym2state →
  s ∈ new_states ∧ ∀ a next_state, sym2state !! a = Some next_state →
                     next_state ∈ new_states.
Proof.
  unfold restricted_transition_function. revert s sym2state.
  pose (inside := λ (Y : gset State) (tf : gmap State (gmap Symbol State)),
          ∀ s sym2state, tf !! s = Some sym2state →
            s ∈ Y ∧ ∀ (a : Symbol) next_state, sym2state !! a = Some next_state →
                      next_state ∈ new_states).
  cut (∀ Y : gset State,
         inside Y
           (set_fold
              (λ s new_transition_function,
                 match transition_function dfa !! s with
                 | None => new_transition_function
                 | Some sym2state =>
                     map_fold
                       (λ (a : Symbol) next_state
                          (new_transition_function : gmap State (gmap Symbol State)),
                          if bool_decide (next_state ∈ new_states)
                          then <[s := <[a := next_state]>
                                        (default ∅ (new_transition_function !! s))]>
                                 new_transition_function
                          else new_transition_function)
                       new_transition_function sym2state
                 end) ∅ Y)).
  { intros Hcut. apply Hcut. }
  apply (set_fold_ind_L (λ tf Y, inside Y tf)).
  - intros s row Hs. by rewrite lookup_empty in Hs.
  - intros s Y tf Hs IH.
    assert (inside ({[s]} ∪ Y) tf) as IH'.
    { intros s' row' Hs'. destruct (IH s' row' Hs'). split; [set_solver|done]. }
    destruct (transition_function dfa !! s) as [row|]; [|done].
    clear IH. revert IH'. generalize tf. intros tf0 Htf0.
    apply (map_fold_weak_ind (λ r (m : gmap Symbol State), inside ({[s]} ∪ Y) r));
      [done|].
    intros a t m r _ IHr. case_bool_decide as Ht; [|done].
    intros s' row'. destruct (decide (s = s')) as [<-|Hne].
    + rewrite lookup_insert_eq. intros [= <-]. split; [set_solver|].
      intros a' t'. destruct (decide (a = a')) as [<-|Hne].
      * rewrite lookup_insert_eq. by intros [= <-].
      * rewrite lookup_insert_ne by done.
        destruct (r !! s) as [row0|] eqn:Hr; simpl.
        -- intros Ha'. destruct (IHr s row0 Hr) as [_ Hrow]. by apply (Hrow a').
        -- by rewrite lookup_empty.
    + rewrite lookup_insert_ne by done. apply IHr.
Qed.

(** [coreachable_body] only adds states. *)
Lemma coreachable_body_bounds dfa (z : gset State) :
  z ⊆ coreachable_body dfa z ∧ coreachable_body dfa z ⊆ z ∪ states dfa.
Proof.
  unfold coreachable_body.
  apply (set_fold_ind_L (λ (acc : gset State) (Y : gset State), z ⊆ acc ∧ acc ⊆ z ∪ Y)).
  - set_solver.
  - intros s Y acc Hs [IH1 IH2].
    destruct (transition_function dfa !! s); [|set_solver].
    destruct (existsb _ _); set_solver.
Qed.

(** [reachable] returns an automaton, for every input. *)
Lemma reachable_returns dfa :
  ∃ dfa', ∀ fuel, reachable_rounds dfa ≤ fuel → reachable fuel dfa = Some (Ok dfa').
Proof.
  set (U := {[initial_state dfa]} ∪ targets (transition_function dfa)).
  assert (∀ z, z ⊆ U → z ⊆ reachable_body dfa z ∧ reachable_body dfa z ⊆ U) as Hbody.
  { intros z Hz. split; intros x; rewrite elem_of_reachable_body; [auto|].
    intros [Hx|(s & row & a & _ & Hs & Ha)]; [by apply Hz|].
    apply elem_of_union_r, elem_of_targets. eauto. }
  destruct (while_changed_rests (reachable_body dfa) U Hbody (reachable_rounds dfa)
              ∅ {[initial_state dfa]}) as (z & Hz & Hiz & HzU).
  { set_solver. }
  { set_solver. }
  { unfold reachable_rounds. apply subseteq_size. set_solver. }
  eexists. intros fuel Hfuel. unfold reachable.
  rewrite (while_changed_more_fuel _ _ fuel _ _ _ Hz Hfuel). simpl.
  f_equal. apply DFA_init_Ok, check_input_Ok.
  split; [set_solver|]. split; [set_solver|].
  intros s row Hs. apply restricted_transition_function_inside in Hs as [? Hrow].
  split; [done|]. intros a t Ha. right. by apply (Hrow a).
Qed.

(** [coreachable] returns an automaton, for every input. *)
Lemma coreachable_returns dfa :
  ∃ dfa', ∀ fuel, coreachable_rounds dfa ≤ fuel → coreachable fuel dfa = Some (Ok dfa').
Proof.
  set (U := accepting_states dfa ∪ states dfa).
  assert (∀ z, z ⊆ U → z ⊆ coreachable_body dfa z ∧ coreachable_body dfa z ⊆ U) as Hbody.
  { intros z Hz. destruct (coreachable_body_bounds dfa z). set_solver. }
  destruct (while_changed_rests (coreachable_body dfa) U Hbody (coreachable_rounds dfa)
              ∅ (accepting_states dfa)) as (z & Hz & Hiz & HzU).
  { set_solver. }
  { set_solver. }
  { unfold coreachable_rounds. apply subseteq_size. set_solver. }
  eexists. intros fuel Hfuel. unfold coreachable.
  rewrite (while_changed_more_fuel _ _ fuel _ _ _ Hz Hfuel). simpl.
  f_equal. apply DFA_init_Ok, check_input_Ok.
  split; [|split; [done|]].
  - case_bool_decide; done.
  - intros s row Hs. apply restricted_transition_function_inside in Hs as [? Hrow].
    split; [done|]. intros a t Ha. right. by apply (Hrow a).
Qed.

(** [trim] returns an automaton, for every input. *)
Lemma trim_returns dfa :
  ∃ n dfa', ∀ fuel, n ≤ fuel → trim fuel dfa = Some (Ok dfa').
Proof.
  destruct (reachable_returns dfa) as (dfa1 & H1).
  destruct (coreachable_returns dfa1) as (dfa2 & H2).
  exists (reachable_rounds dfa `max` coreachable_rounds dfa1), dfa2.
  intros fuel Hfuel. unfold trim. rewrite H1 by lia. simpl. apply H2. lia.
Qed.

(** [complete] returns an automaton, for every well-formed input. *)
Lemma complete_returns dfa : well_formed dfa → ∃ dfa', complete dfa = Ok dfa'.
Proof.
  intros Hwf. eexists. apply complete_with_Ok. by apply well_formed_constructed.
Qed.

(** ** Automata without initial state *)

(** Without initial state, [reachable] starts from the set that holds
    [None] and stops there. *)
Lemma reachable_no_initial_state dfa fuel :
  well_formed dfa → no_initial_state dfa → 1 ≤ fuel →
  ∃ dfa', reachable fuel dfa = Some (Ok dfa') ∧ states dfa' = {[SNone]}.
Proof.
  intros (_ & _ & Htf) [Hi Hn] Hfuel.
  assert (transition_function dfa !! SNone = None) as Hrow.
  { destruct (transition_function dfa !! SNone) as [row|] eqn:Hrow; [|done].
    by destruct (Htf _ _ Hrow). }
  assert (reachable_body dfa {[SNone]} = {[SNone]}) as Hbody.
  { unfold reachable_body. rewrite set_fold_singleton. by rewrite Hrow. }
  assert (while_changed fuel (reachable_body dfa) ∅ {[SNone]} = Some {[SNone]}) as Hloop.
  { destruct fuel as [|fuel]; [lia|]. simpl.
    rewrite bool_decide_eq_false_2 by set_solver. rewrite Hbody.
    destruct fuel; simpl; by rewrite bool_decide_eq_true_2. }
  unfold reachable. rewrite Hi, Hloop. simpl.
  exists (mkDFA (alphabet dfa) {[SNone]} SNone ({[SNone]} ∩ accepting_states dfa)
            (restricted_transition_function dfa {[SNone]})).
  split; [|done]. f_equal. apply DFA_init_Ok.
  apply check_input_Ok. split; [done|]. split; [set_solver|].
  intros s row Hs. apply restricted_transition_function_inside in Hs as [? Hr].
  split; [done|]. intros a t Ha. right. by apply (Hr a).
Qed.

(** C6: [reachable] of an automaton without initial state does not have
    an empty set of states.  On the automaton of the documentation with
    its initial state removed, which is well formed, the loop starts from
    the set that holds [None] (line 105) and the result has exactly one
    state, [None]. *)
Theorem reachable_without_initial_state_is_not_empty :
  well_formed ex_dfa_no_initial ∧ no_initial_state ex_dfa_no_initial
  ∧ ∃ dfa, reachable 10 ex_dfa_no_initial = Some (Ok dfa)
           ∧ states dfa = {[SNone]} ∧ states dfa ≠ ∅.
Proof.
  assert (well_formed ex_dfa_no_initial) as Hwf by compute_done.
  assert (no_initial_state ex_dfa_no_initial) as Hno.
  { split; [done|]. compute_done. }
  split; [done|]. split; [done|].
  destruct (reachable_no_initial_state ex_dfa_no_initial 10 Hwf Hno) as (dfa & Hr & Hs);
    [lia|].
  exists dfa. split; [done|]. split; [done|]. rewrite Hs. set_solver.
Qed.

(** ** Minimization *)

Lemma returns_with_inv m word outcome :
  returns_with m word outcome →
  ∃ dfa, m = Some (Ok dfa) ∧ word_acceptance dfa word = outcome.
Proof. destruct m as [[dfa|]|]; simpl; [eauto|done|done]. Qed.

(** C1: minimization does not preserve acceptance.  The automaton of the
    documentation is well formed and rejects the word [ba]; [minimize]
    returns an automaton on which [word_acceptance] raises [KeyError] for
    that word: the class of the sink, reached on [b], has no row, because
    [complete] gave the sink none.  The automaton [merged_dfa] is well
    formed and rejects [ba] too; [minimize] returns an automaton that
    accepts it: state [1] is merged with the sink, because its successor
    [0] is false as a Python value and lines 67 and 74 skip it. *)
Theorem minimize_changes_acceptance :
  (well_formed ex_dfa
   ∧ word_acceptance ex_dfa ["b"; "a"] = Ok false
   ∧ ∃ dfa, minimize 10 ex_dfa = Some (Ok dfa)
            ∧ word_acceptance dfa ["b"; "a"] = Raise KeyError)
  ∧ (well_formed merged_dfa
     ∧ word_acceptance merged_dfa ["b"; "a"] = Ok false
     ∧ ∃ dfa, minimize 10 merged_dfa = Some (Ok dfa)
              ∧ word_acceptance dfa ["b"; "a"] = Ok true).
Proof.
  split; (split; [compute_done|]); (split; [compute_done|]);
    apply returns_with_inv; compute_done.
Qed.

(** The outcome does not depend on the order in which the classes are
    numbered. *)
Lemma minimize_with_any_order enumerate_set fuel dfa completed z word outcome :
  (∀ X, enumerate_set X ≡ₚ elements X) →
  complete dfa = Ok completed →
  minimize_loop fuel completed ∅ (same_acceptance_pairs completed) = Some (Ok z) →
  Forall (λ order, returns_with (Some (quotient completed (state2equiv_class_of z) order))
                     word outcome)
    (permutations (elements (equivalence_classes_of (state2equiv_class_of z)))) →
  ∃ dfa', minimize_with enumerate_set fuel dfa = Some (Ok dfa')
          ∧ word_acceptance dfa' word = outcome.
Proof.
  intros Henum Hc Hloop Hall. unfold minimize_with. rewrite Hc. simpl.
  rewrite Hloop. simpl. apply returns_with_inv.
  rewrite Forall_forall in Hall. apply Hall.
  apply permutations_Permutation. symmetry. apply Henum.
Qed.

Lemma minimize_raises_in_any_order enumerate_set :
  (∀ X, enumerate_set X ≡ₚ elements X) →
  ∃ dfa, minimize_with enumerate_set 10 ex_dfa = Some (Ok dfa)
         ∧ word_acceptance dfa ["b"; "a"] = Raise KeyError.
Proof.
  intros Henum.
  apply (minimize_with_any_order enumerate_set 10 ex_dfa ex_completed ex_pairs);
    [done|compute_done..].
Qed.

(** A word gained: [merged_dfa] rejects [ba] (no transition leaves its
    initial state on [b]) and its minimization accepts it, in whatever
    order the classes are numbered. *)
Lemma minimize_accepts_rejected_word enumerate_set :
  (∀ X, enumerate_set X ≡ₚ elements X) →
  well_formed merged_dfa
  ∧ word_acceptance merged_dfa ["b"; "a"] = Ok false
  ∧ ∃ dfa, minimize_with enumerate_set 10 merged_dfa = Some (Ok dfa)
           ∧ word_acceptance dfa ["b"; "a"] = Ok true.
Proof.
  intros Henum. split; [compute_done|]. split; [compute_done|].
  apply (minimize_with_any_order enumerate_set 10 merged_dfa merged_completed merged_pairs);
    [done|compute_done..].
Qed.

(** *** No automaton without initial state is minimized *)

Lemma elem_of_same_acceptance_pairs dfa s t :
  (s, t) ∈ same_acceptance_pairs dfa → s ∈ states dfa ∧ t ∈ states dfa.
Proof.
  unfold same_acceptance_pairs.
  cut (∀ Y : gset State,
         (s, t) ∈ set_fold
           (λ state_s (z_next : gset (State * State)),
              set_fold
                (λ state_t (z_next : gset (State * State)),
                   if bool_decide (state_s ∈ accepting_states dfa)
                      && bool_decide (state_t ∈ accepting_states dfa)
                      || negb (bool_decide (state_s ∈ accepting_states dfa))
                         && negb (bool_decide (state_t ∈ accepting_states dfa))
                   then z_next ∪ {[(state_s, state_t)]}
                   else z_next)
                z_next (states dfa))
           ∅ Y
         → s ∈ Y ∧ t ∈ states dfa).
  { intros Hcut. apply Hcut. }
  apply (set_fold_ind_L
           (λ (acc : gset (State * State)) (Y : gset State),
              (s, t) ∈ acc → s ∈ Y ∧ t ∈ states dfa)).
  - set_solver.
  - intros x Y acc Hx IH.
    cut (∀ Y' : gset State,
           (s, t) ∈ set_fold
             (λ state_t (z_next : gset (State * State)),
                if bool_decide (x ∈ accepting_states dfa)
                   && bool_decide (state_t ∈ accepting_states dfa)
                   || negb (bool_decide (x ∈ accepting_states dfa))
                      && negb (bool_decide (state_t ∈ accepting_states dfa))
                then z_next ∪ {[(x, state_t)]}
                else z_next)
             acc Y'
           → (s, t) ∈ acc ∨ (s = x ∧ t ∈ Y')).
    { intros Hcut H. destruct (Hcut _ H) as [Hin|[-> Ht]]; [|set_solver].
      destruct (IH Hin). set_solver. }
    apply (set_fold_ind_L
             (λ (acc' : gset (State * State)) (Y' : gset State),
                (s, t) ∈ acc' → (s, t) ∈ acc ∨ (s = x ∧ t ∈ Y'))).
    + auto.
    + intros y Y' acc' Hy IH'. destruct (_ || _); set_solver.
Qed.

Lemma minimize_body_subseteq dfa z z' : minimize_body dfa z = Ok z' → z' ⊆ z.
Proof.
  unfold minimize_body.
  cut (∀ (l : list (State * State)) (z0 : gset (State * State)),
         for_each l z0
           (λ '(s, t) z_next,
              removed ← pair_removed dfa z s t (elements (symbols (alphabet dfa)));
              Ok (if removed : bool then z_next ∖ {[(s, t)]} else z_next))
         = Ok z' → z' ⊆ z0).
  { intros Hcut. apply Hcut. }
  intros l. induction l as [|[s t] l IH]; intros z0; simpl.
  - by intros [= <-].
  - destruct (pair_removed dfa z s t _) as [[]|e]; simpl; [| |done].
    + intros H. apply IH in H. set_solver.
    + apply IH.
Qed.

(** The loop returns pairs it was given. *)
Lemma minimize_loop_subseteq fuel dfa c n z :
  minimize_loop fuel dfa c n = Some (Ok z) → z ⊆ c ∪ n.
Proof.
  revert c n. induction fuel as [|fuel IH]; intros c n; simpl.
  - case_bool_decide; [|done]. intros [= <-]. set_solver.
  - case_bool_decide; [intros [= <-]; set_solver|].
    destruct (minimize_body dfa n) as [n'|e] eqn:Hbody; [|done].
    intros Hz. apply IH in Hz. apply minimize_body_subseteq in Hbody. set_solver.
Qed.

(** A state has a class only if it is the first component of a pair. *)
Lemma state2equiv_class_of_lookup (z : gset (State * State)) s X :
  state2equiv_class_of z !! s = Some X → ∃ t, (s, t) ∈ z.
Proof.
  unfold state2equiv_class_of. revert X.
  cut (∀ (Y : gset (State * State)) X,
         set_fold
           (λ '(s, t) (state2equiv_class : gmap State (gset State)),
              <[s := default ∅ (state2equiv_class !! s) ∪ {[t]}]> state2equiv_class)
           ∅ Y !! s = Some X
         → ∃ t, (s, t) ∈ Y).
  { intros Hcut. apply Hcut. }
  apply (set_fold_ind_L
           (λ (m : gmap State (gset State)) (Y : gset (State * State)),
              ∀ X, m !! s = Some X → ∃ t, (s, t) ∈ Y)).
  - intros X. by rewrite lookup_empty.
  - intros [s' t'] Y m Hp IH X. destruct (decide (s' = s)) as [->|Hne].
    + intros _. exists t'. set_solver.
    + rewrite lookup_insert_ne by done. intros H.
      destruct (IH X H) as [t Ht]. exists t. set_solver.
Qed.

(** The quotient is built only when the initial state has a class. *)
Lemma quotient_Ok_initial_state dfa state2equiv_class order dfa' :
  quotient dfa state2equiv_class order = Ok dfa' →
  is_Some (state2equiv_class !! initial_state dfa).
Proof.
  unfold quotient.
  destruct (for_each (map_to_list (transition_function dfa)) _ _) as [ntf|];
    simpl; [|intros ?; discriminate].
  destruct (for_each (elements (accepting_states dfa)) _ _) as [nf|];
    simpl; [|intros ?; discriminate].
  destruct (state2equiv_class !! initial_state dfa) as [X|] eqn:Hs; [eauto|].
  unfold new_state_of, getitem. rewrite Hs. simpl. intros ?; discriminate.
Qed.

(** [minimize] returns no automaton on a well-formed automaton without
    initial state, however the classes are numbered and whatever the fuel
    is. *)
Lemma minimize_without_initial_state enumerate_set fuel dfa dfa' :
  well_formed dfa → no_initial_state dfa →
  minimize_with enumerate_set fuel dfa ≠ Some (Ok dfa').
Proof.
  intros Hwf [Hi Hn] Hmin. unfold minimize_with in Hmin.
  unfold complete in Hmin.
  rewrite (complete_with_Ok Sink dfa (well_formed_constructed _ Hwf)) in Hmin.
  simpl in Hmin.
  destruct (minimize_loop fuel _ ∅ _) as [[z|]|] eqn:Hloop; simpl in Hmin; [|done..].
  injection Hmin as Hq. apply quotient_Ok_initial_state in Hq as [X HX]. simpl in HX.
  rewrite Hi in HX. apply state2equiv_class_of_lookup in HX as [t Ht].
  apply minimize_loop_subseteq in Hloop. apply Hloop in Ht.
  apply elem_of_union in Ht as [Ht|Ht]; [set_solver|].
  apply elem_of_same_acceptance_pairs in Ht as [Hs _]. simpl in Hs.
  unfold Sink in Hs. set_solver.
Qed.

(** *** Every automaton with an initial state is minimized *)

Lemma complete_rows_total dfa completed :
  well_formed dfa → complete dfa = Ok completed → rows_total completed.
Proof.
  intros Hwf Hc. unfold complete in Hc.
  rewrite (complete_with_Ok Sink dfa (well_formed_constructed _ Hwf)) in Hc.
  injection Hc as <-. destruct Hwf as (_ & _ & Htf).
  intros s row. simpl. rewrite lookup_fmap.
  destruct (transition_function dfa !! s) as [row0|] eqn:Hs; simpl; [|done].
  intros [= <-]. destruct (Htf s row0 Hs) as [Hin Hrow].
  split; [set_solver|]. split.
  - intros a Ha. rewrite lookup_completed_row. destruct (row0 !! a); [done|].
    by rewrite decide_True.
  - intros a t. rewrite lookup_completed_row.
    destruct (row0 !! a) as [y|] eqn:Hy.
    + intros [= <-]. destruct (Hrow a y Hy). set_solver.
    + case_decide; [|done]. intros [= <-]. set_solver.
Qed.

Lemma any_of_returns {A} (f : A → result bool) (l : list A) :
  (∀ x, x ∈ l → ∃ b, f x = Ok b) → ∃ b, any_of f l = Ok b.
Proof.
  induction l as [|x l IH]; intros Hf; simpl; [eauto|].
  destruct (Hf x) as [b ->]; [left|]. simpl. destruct b; [eauto|].
  apply IH. intros y Hy. apply Hf. by right.
Qed.

Lemma any_of_true {A} (f : A → result bool) (l : list A) x :
  (∀ y, y ∈ l → ∃ b, f y = Ok b) → x ∈ l → f x = Ok true → any_of f l = Ok true.
Proof.
  induction l as [|y l IH]; intros Hf Hx Hfx; simpl; [by inversion Hx|].
  destruct (Hf y) as [b Hb]; [left|]. rewrite Hb. simpl. destruct b; [done|].
  apply IH; [intros ? ?; apply Hf; by right| |done].
  apply elem_of_cons in Hx as [->|]; [congruence|done].
Qed.

Lemma for_each_returns {A B} (P : B → Prop) (l : list A) (acc : B)
    (body : A → B → result B) :
  P acc →
  (∀ x acc, x ∈ l → P acc → ∃ acc', body x acc = Ok acc' ∧ P acc') →
  ∃ acc', for_each l acc body = Ok acc' ∧ P acc'.
Proof.
  revert acc. induction l as [|x l IH]; intros acc Hacc Hbody; simpl; [eauto|].
  destruct (Hbody x acc) as (acc1 & -> & Hacc1); [left|done|]. simpl.
  apply IH; [done|]. intros y acc2 Hy. apply Hbody. by right.
Qed.

Lemma same_acceptance_pairs_reflexive dfa :
  reflexive_on (states dfa) (same_acceptance_pairs dfa).
Proof.
  unfold reflexive_on, same_acceptance_pairs.
  cut (∀ Y : gset State,
         Y ⊆ states dfa →
         ∀ x, x ∈ Y →
           (x, x) ∈ set_fold
             (λ state_s (z_next : gset (State * State)),
                set_fold
                  (λ state_t (z_next : gset (State * State)),
                     if bool_decide (state_s ∈ accepting_states dfa)
                        && bool_decide (state_t ∈ accepting_states dfa)
                        || negb (bool_decide (state_s ∈ accepting_states dfa))
                           && negb (bool_decide (state_t ∈ accepting_states dfa))
                     then z_next ∪ {[(state_s, state_t)]}
                     else z_next)
                  z_next (states dfa))
             ∅ Y).
  { intros Hcut x Hx. by apply (Hcut (states dfa)). }
  apply (set_fold_ind_L
           (λ (acc : gset (State * State)) (Y : gset State),
              Y ⊆ states dfa → ∀ x, x ∈ Y → (x, x) ∈ acc)).
  - set_solver.
  - intros y Y acc Hy IH HY x Hx.
    cut (∀ Y' : gset State,
           acc ⊆ set_fold
             (λ state_t (z_next : gset (State * State)),
                if bool_decide (y ∈ accepting_states dfa)
                   && bool_decide (state_t ∈ accepting_states dfa)
                   || negb (bool_decide (y ∈ accepting_states dfa))
                      && negb (bool_decide (state_t ∈ accepting_states dfa))
                then z_next ∪ {[(y, state_t)]}
                else z_next)
             acc Y'
           ∧ (y ∈ Y' →
              (y, y) ∈ set_fold
                (λ state_t (z_next : gset (State * State)),
                   if bool_decide (y ∈ accepting_states dfa)
                      && bool_decide (state_t ∈ accepting_states dfa)
                      || negb (bool_decide (y ∈ accepting_states dfa))
                         && negb (bool_decide (state_t ∈ accepting_states dfa))
                   then z_next ∪ {[(y, state_t)]}
                   else z_next)
                acc Y')).
    { intros Hcut. destruct (Hcut (states dfa)) as [Hmono Hyy].
      apply elem_of_union in Hx as [Hx|Hx].
      - apply elem_of_singleton in Hx as ->. apply Hyy. set_solver.
      - apply Hmono, IH; [set_solver|done]. }
    apply (set_fold_ind_L
             (λ (acc' : gset (State * State)) (Y' : gset State),
                acc ⊆ acc' ∧ (y ∈ Y' → (y, y) ∈ acc'))).
    + set_solver.
    + intros t Y' acc' Ht [IH1 IH2]. destruct (decide (y = t)) as [<-|Hne].
      * destruct (bool_decide (y ∈ accepting_states dfa)); simpl; set_solver.
      * destruct (_ || _); set_solver.
Qed.

Lemma state2equiv_class_of_is_Some (z : gset (State * State)) x t :
  (x, t) ∈ z → is_Some (state2equiv_class_of z !! x).
Proof.
  unfold state2equiv_class_of. revert t.
  cut (∀ (Y : gset (State * State)) t,
         (x, t) ∈ Y →
         is_Some (set_fold
                    (λ '(s, t) (state2equiv_class : gmap State (gset State)),
                       <[s := default ∅ (state2equiv_class !! s) ∪ {[t]}]>
                         state2equiv_class)
                    ∅ Y !! x)).
  { intros Hcut. apply Hcut. }
  apply (set_fold_ind_L
           (λ (m : gmap State (gset State)) (Y : gset (State * State)),
              ∀ t, (x, t) ∈ Y → is_Some (m !! x))).
  - set_solver.
  - intros [s' t'] Y m Hp IH t Ht. destruct (decide (s' = x)) as [->|Hne].
    + rewrite lookup_insert_eq. eauto.
    + rewrite lookup_insert_ne by done. apply (IH t). set_solver.
Qed.

Lemma equiv_class2new_state_of_is_Some (order : list (gset State)) X :
  X ∈ order → is_Some (equiv_class2new_state_of order !! X).
Proof.
  intros HX. unfold equiv_class2new_state_of.
  destruct (list_to_map _ !! X) as [v|] eqn:Hv; [eauto|].
  apply not_elem_of_list_to_map_2 in Hv. exfalso. apply Hv.
  rewrite fmap_imap. replace (imap _ order) with (id <$> order).
  - by rewrite list_fmap_id.
  - rewrite <- imap_const. by apply imap_ext.
Qed.

Lemma minimize_loop_more_fuel (dfa : DFA) (fuel fuel' : nat)
    (c n : gset (State * State)) (r : result (gset (State * State))) :
  minimize_loop fuel dfa c n = Some r → fuel ≤ fuel' →
  minimize_loop fuel' dfa c n = Some r.
Proof.
  revert fuel' c n. induction fuel as [|fuel IH]; intros fuel' c n; simpl.
  - case_bool_decide; [|done]. intros [= <-] _.
    destruct fuel'; simpl; by rewrite bool_decide_eq_true_2.
  - case_bool_decide as Hcn.
    + intros [= <-] _. destruct fuel'; simpl; by rewrite bool_decide_eq_true_2.
    + intros Hr Hle. destruct fuel' as [|fuel']; [lia|]. simpl.
      rewrite bool_decide_eq_false_2 by done.
      destruct (minimize_body dfa n); [|done]. apply IH; [done|lia].
Qed.

Section minimize_returns.
Variable dfa : DFA.
Hypothesis Htotal : rows_total dfa.

Lemma related_test_returns (z : gset (State * State)) q a pair x :
  a ∈ symbols (alphabet dfa) →
  x ∈ filter (λ _, is_Some (transition_function dfa !! q)) (elements (states dfa)) →
  ∃ next, (sym2state ← getitem (transition_function dfa) q;
           next ← getitem sym2state a;
           Ok (bool_decide (next = x) && bool_decide (pair x ∈ z)))
          = Ok (bool_decide (next = x) && bool_decide (pair x ∈ z))
          ∧ ∃ sym2state, transition_function dfa !! q = Some sym2state
                         ∧ sym2state !! a = Some next.
Proof.
  intros Ha Hx. apply list_elem_of_filter in Hx as [[row Hrow] _].
  destruct (Htotal q row Hrow) as (_ & Hall & _). destruct (Hall a Ha) as [next Hnext].
  exists next. unfold getitem. rewrite Hrow. simpl. rewrite Hnext. simpl. eauto.
Qed.

Lemma any_successor_related_returns (z : gset (State * State)) q a pair :
  a ∈ symbols (alphabet dfa) → ∃ b, any_successor_related dfa z q a pair = Ok b.
Proof.
  intros Ha. unfold any_successor_related. apply any_of_returns. intros x Hx.
  destruct (related_test_returns z q a pair x Ha Hx) as (next & -> & _). eauto.
Qed.

Lemma any_successor_related_true (z : gset (State * State)) q a pair sym2state y :
  a ∈ symbols (alphabet dfa) →
  transition_function dfa !! q = Some sym2state → sym2state !! a = Some y →
  pair y ∈ z → any_successor_related dfa z q a pair = Ok true.
Proof.
  intros Ha Hq Hy Hz. unfold any_successor_related. apply (any_of_true _ _ y).
  - intros x Hx. destruct (related_test_returns z q a pair x Ha Hx) as (next & -> & _).
    eauto.
  - apply list_elem_of_filter. split; [eauto|]. apply elem_of_elements.
    by destruct (Htotal q sym2state Hq) as (_ & _ & Ht); apply (Ht a).
  - unfold getitem. rewrite Hq. simpl. rewrite Hy. simpl.
    by rewrite !bool_decide_eq_true_2.
Qed.

Lemma pair_removed_returns (z : gset (State * State)) s t actions :
  (∀ a, a ∈ actions → a ∈ symbols (alphabet dfa)) →
  ∃ b, pair_removed dfa z s t actions = Ok b.
Proof.
  induction actions as [|a actions IH]; intros Hact; simpl; [eauto|].
  assert (a ∈ symbols (alphabet dfa)) as Ha by (apply Hact; left).
  assert (∀ q pair b0, ∃ b,
            (if b0 : bool
             then negb <$> any_successor_related dfa z q a pair
             else Ok false) = Ok b) as Htest.
  { intros q pair [|]; [|eauto].
    destruct (any_successor_related_returns z q a pair Ha) as [b ->]. simpl. eauto. }
  destruct (Htest t (λ t_prime, (successor_or_None dfa s a, t_prime))
              (truthy (successor_or_None dfa s a))) as [b1 ->]. simpl.
  destruct b1; [eauto|].
  destruct (Htest s (λ s_prime, (s_prime, successor_or_None dfa t a))
              (truthy (successor_or_None dfa t a))) as [b2 ->]. simpl.
  destruct b2; [eauto|]. apply IH. intros ? ?. apply Hact. by right.
Qed.

Lemma truthy_successor s a :
  truthy (successor_or_None dfa s a) = true →
  ∃ sym2state, transition_function dfa !! s = Some sym2state
               ∧ sym2state !! a = Some (successor_or_None dfa s a).
Proof.
  unfold successor_or_None.
  destruct (transition_function dfa !! s) as [row|]; [|done].
  destruct (row !! a) as [y|] eqn:Hy; simpl; [|done]. intros _. by exists row.
Qed.

Lemma pair_removed_reflexive (z : gset (State * State)) x actions :
  reflexive_on (states dfa) z →
  (∀ a, a ∈ actions → a ∈ symbols (alphabet dfa)) →
  pair_removed dfa z x x actions = Ok false.
Proof.
  intros Hrefl. induction actions as [|a actions IH]; intros Hact; simpl; [done|].
  assert (a ∈ symbols (alphabet dfa)) as Ha by (apply Hact; left).
  assert ((if truthy (successor_or_None dfa x a)
           then negb <$> any_successor_related dfa z x a
                           (λ t_prime, (successor_or_None dfa x a, t_prime))
           else Ok false) = Ok false) as ->.
  { destruct (truthy (successor_or_None dfa x a)) eqn:Htr; [|done].
    destruct (truthy_successor x a Htr) as (row & Hrow & Hy).
    rewrite (any_successor_related_true z x a _ row _ Ha Hrow Hy); [done|].
    apply Hrefl. by destruct (Htotal x row Hrow) as (_ & _ & Ht); apply (Ht a). }
  simpl.
  assert ((if truthy (successor_or_None dfa x a)
           then negb <$> any_successor_related dfa z x a
                           (λ s_prime, (s_prime, successor_or_None dfa x a))
           else Ok false) = Ok false) as ->.
  { destruct (truthy (successor_or_None dfa x a)) eqn:Htr; [|done].
    destruct (truthy_successor x a Htr) as (row & Hrow & Hy).
    rewrite (any_successor_related_true z x a _ row _ Ha Hrow Hy); [done|].
    apply Hrefl. by destruct (Htotal x row Hrow) as (_ & _ & Ht); apply (Ht a). }
  simpl. apply IH. intros ? ?. apply Hact. by right.
Qed.

Lemma minimize_body_returns (z : gset (State * State)) :
  ∃ z', minimize_body dfa z = Ok z'
        ∧ (reflexive_on (states dfa) z → reflexive_on (states dfa) z').
Proof.
  unfold minimize_body.
  cut (∀ (l : list (State * State)) (z0 : gset (State * State)),
         ∃ z', for_each l z0
                 (λ '(s, t) z_next,
                    removed ← pair_removed dfa z s t (elements (symbols (alphabet dfa)));
                    Ok (if removed : bool then z_next ∖ {[(s, t)]} else z_next))
               = Ok z'
               ∧ (reflexive_on (states dfa) z → reflexive_on (states dfa) z0 →
                  reflexive_on (states dfa) z')).
  { intros Hcut. destruct (Hcut (elements z) z) as (z' & Hz' & Hrefl).
    exists z'. split; [done|]. intros H. by apply Hrefl. }
  assert (∀ a, a ∈ elements (symbols (alphabet dfa)) → a ∈ symbols (alphabet dfa))
    as Hsyms by (intros a; apply elem_of_elements).
  intros l. induction l as [|[s t] l IH]; intros z0; simpl; [eauto|].
  destruct (pair_removed_returns z s t _ Hsyms) as [b Hb]. rewrite Hb. simpl.
  destruct (IH (if b then z0 ∖ {[(s, t)]} else z0)) as (z' & Hz' & Hrefl).
  exists z'. split; [done|]. intros Hz Hz0. apply Hrefl; [done|].
  destruct b; [|done]. intros x Hx. apply elem_of_difference. split; [by apply Hz0|].
  intros Heq. apply elem_of_singleton in Heq. injection Heq as -> ->.
  rewrite (pair_removed_reflexive z t _ Hz Hsyms) in Hb. done.
Qed.

Lemma minimize_loop_returns (fuel : nat) (c n : gset (State * State)) :
  n ⊆ c → c = n ∨ size n < fuel → reflexive_on (states dfa) n →
  ∃ z, minimize_loop fuel dfa c n = Some (Ok z) ∧ reflexive_on (states dfa) z.
Proof.
  revert c n. induction fuel as [|fuel IH]; intros c n Hnc Hfuel Hrefl; simpl.
  - destruct Hfuel as [->|]; [|lia]. rewrite bool_decide_eq_true_2 by done. eauto.
  - case_bool_decide as Hcn; [subst; eauto|].
    destruct Hfuel as [|Hfuel]; [done|].
    destruct (minimize_body_returns n) as (n' & Hn' & Hrefl').
    rewrite Hn'. apply IH; [by apply minimize_body_subseteq in Hn'| |by apply Hrefl'].
    destruct (decide (n = n')) as [|Hne]; [by left|right].
    assert (n' ⊂ n) as Hsub.
    { apply minimize_body_subseteq in Hn'. split; [done|]. intros Hsub.
      apply Hne. apply set_eq. intros p. split; [apply Hsub|apply Hn']. }
    apply subset_size in Hsub. lia.
Qed.

Hypothesis Haccepting : accepting_states dfa ⊆ states dfa.
Hypothesis Hinitial : initial_state dfa ∈ states dfa.

(** The label of a state that has a class *)
Lemma new_state_of_returns (z : gset (State * State)) (order : list (gset State)) x :
  reflexive_on (states dfa) z →
  order ≡ₚ elements (equivalence_classes_of (state2equiv_class_of z)) →
  x ∈ states dfa →
  ∃ v, new_state_of (state2equiv_class_of z) (equiv_class2new_state_of order) x = Ok v
       ∧ v ∈ (list_to_set (map_to_list (equiv_class2new_state_of order)).*2 : gset State).
Proof.
  intros Hrefl Horder Hx. unfold new_state_of, getitem.
  destruct (state2equiv_class_of_is_Some z x x (Hrefl x Hx)) as [X HX]. rewrite HX. simpl.
  destruct (equiv_class2new_state_of_is_Some order X) as [v Hv].
  { rewrite Horder. apply elem_of_elements. unfold equivalence_classes_of.
    apply elem_of_list_to_set, list_elem_of_fmap. exists (x, X).
    split; [done|]. by apply elem_of_map_to_list. }
  rewrite Hv. exists v. split; [done|].
  apply elem_of_list_to_set, list_elem_of_fmap. exists (X, v).
  split; [done|]. by apply elem_of_map_to_list.
Qed.

Lemma quotient_returns (z : gset (State * State)) (order : list (gset State)) :
  reflexive_on (states dfa) z →
  order ≡ₚ elements (equivalence_classes_of (state2equiv_class_of z)) →
  ∃ dfa', quotient dfa (state2equiv_class_of z) order = Ok dfa'.
Proof.
  intros Hrefl Horder. unfold quotient.
  set (V := list_to_set (map_to_list (equiv_class2new_state_of order)).*2 : gset State).
  pose (inside := λ tf : gmap State (gmap Symbol State),
          ∀ s row, tf !! s = Some row →
            s ∈ V ∧ ∀ (a : Symbol) t, row !! a = Some t → t ∈ V).
  destruct (for_each_returns inside (map_to_list (transition_function dfa)) ∅
              (λ '(state, sym2state) new_transition_function,
                 new_state' ← new_state_of (state2equiv_class_of z)
                                 (equiv_class2new_state_of order) state;
                 for_each (map_to_list sym2state) new_transition_function
                   (λ '(action, next_state) new_transition_function,
                      new_next_state ← new_state_of (state2equiv_class_of z)
                                          (equiv_class2new_state_of order) next_state;
                      Ok (<[new_state' := <[action := new_next_state]>
                                            (default ∅ (new_transition_function !! new_state'))]>
                            new_transition_function))))
    as (ntf & -> & Hntf).
  { intros s row Hs. by rewrite lookup_empty in Hs. }
  { intros [state row] acc Hin Hacc. apply elem_of_map_to_list in Hin.
    destruct (Htotal state row Hin) as (Hstate & _ & Htargets).
    destruct (new_state_of_returns z order state Hrefl Horder Hstate) as (v & -> & Hv).
    simpl. apply for_each_returns; [done|].
    intros [action next] acc' Hin' Hacc'. apply elem_of_map_to_list in Hin'.
    destruct (new_state_of_returns z order next Hrefl Horder (Htargets _ _ Hin'))
      as (w & -> & Hw).
    simpl. eexists. split; [done|]. intros s' row'.
    destruct (decide (v = s')) as [<-|Hne].
    - rewrite lookup_insert_eq. intros [= <-]. split; [done|]. intros a t.
      destruct (decide (action = a)) as [<-|Hne].
      + rewrite lookup_insert_eq. by intros [= <-].
      + rewrite lookup_insert_ne by done.
        destruct (acc' !! v) as [row0|] eqn:Hrow0; simpl.
        * intros Ha. destruct (Hacc' v row0 Hrow0) as [_ Hr]. by apply (Hr a).
        * by rewrite lookup_empty.
    - rewrite lookup_insert_ne by done. apply Hacc'. }
  simpl.
  destruct (for_each_returns (λ F : gset State, F ⊆ V) (elements (accepting_states dfa)) ∅
              (λ old_state new_final_states,
                 s ← new_state_of (state2equiv_class_of z)
                       (equiv_class2new_state_of order) old_state;
                 Ok (new_final_states ∪ {[s]})))
    as (nf & -> & Hnf).
  { set_solver. }
  { intros x acc Hx Hacc. apply elem_of_elements in Hx.
    destruct (new_state_of_returns z order x Hrefl Horder (Haccepting x Hx))
      as (v & -> & Hv).
    simpl. eexists. split; [done|]. set_solver. }
  simpl.
  destruct (new_state_of_returns z order (initial_state dfa) Hrefl Horder Hinitial)
    as (v & -> & Hv).
  simpl. eexists. apply DFA_init_Ok, check_input_Ok.
  split; [done|]. split; [done|].
  intros s row Hs. destruct (Hntf s row Hs) as [? Hrow]. split; [done|].
  intros a t Ha. right. by apply (Hrow a).
Qed.
End minimize_returns.

Lemma minimize_returns enumerate_set dfa :
  (∀ X, enumerate_set X ≡ₚ elements X) →
  well_formed dfa → initial_state dfa ∈ states dfa →
  ∃ n dfa', ∀ fuel, n ≤ fuel → minimize_with enumerate_set fuel dfa = Some (Ok dfa').
Proof.
  intros Henum Hwf Hinit.
  destruct (complete_returns dfa Hwf) as [completed Hc].
  pose proof (complete_rows_total dfa completed Hwf Hc) as Htotal.
  assert (states completed = states dfa ∪ {[Sink]}
          ∧ accepting_states completed = accepting_states dfa
          ∧ initial_state completed = initial_state dfa) as (Hst & Hacc & Hini).
  { unfold complete in Hc.
    rewrite (complete_with_Ok Sink dfa (well_formed_constructed _ Hwf)) in Hc.
    by injection Hc as <-. }
  set (Z0 := same_acceptance_pairs completed).
  pose proof (same_acceptance_pairs_reflexive completed) as Hrefl0. fold Z0 in Hrefl0.
  destruct (minimize_body_returns completed Htotal Z0) as (Z1 & HZ1 & Hrefl1).
  destruct (minimize_loop_returns completed Htotal (S (size Z1)) Z0 Z1)
    as (z & Hz & Hreflz).
  { by apply minimize_body_subseteq in HZ1. }
  { right. lia. }
  { by apply Hrefl1. }
  destruct (quotient_returns completed Htotal) with (z := z)
    (order := enumerate_set (equivalence_classes_of (state2equiv_class_of z)))
    as [dfa' Hq].
  { rewrite Hacc, Hst. destruct Hwf as (_ & Ha & _). set_solver. }
  { rewrite Hini, Hst. set_solver. }
  { done. }
  { apply Henum. }
  exists (S (S (size Z1))), dfa'. intros fuel Hfuel.
  unfold minimize_with. rewrite Hc. simpl. fold Z0.
  destruct fuel as [|fuel]; [lia|]. simpl.
  rewrite bool_decide_eq_false_2.
  - rewrite HZ1.
    rewrite (minimize_loop_more_fuel _ _ fuel _ _ _ Hz) by lia.
    simpl. by rewrite Hq.
  - intros Heq. assert ((Sink, Sink) ∈ Z0) as Hin by (apply Hrefl0; set_solver).
    rewrite <- Heq in Hin. set_solver.
Qed.

(** Among the well-formed automata, [minimize] returns on those that have
    an initial state and on no other. *)
Lemma minimize_returns_iff dfa :
  well_formed dfa →
  (∃ fuel dfa', minimize fuel dfa = Some (Ok dfa')) ↔ initial_state dfa ∈ states dfa.
Proof.
  intros Hwf. split.
  - intros (fuel & dfa' & Hmin).
    destruct (decide (initial_state dfa ∈ states dfa)) as [|Hn]; [done|].
    exfalso. apply (minimize_without_initial_state elements fuel dfa dfa' Hwf); [|done].
    destruct Hwf as ([Hi|Hi] & _); [|done]. split; [done|]. by rewrite <- Hi.
  - intros Hi. destruct (minimize_returns elements dfa) as (n & dfa' & Hmin); [done..|].
    exists n, dfa'. by apply Hmin.
Qed.

(** C5: [minimize] raises on well-formed automata without initial state.
    On the automaton of the documentation with its initial state removed
    the lookup of the class of the initial state (line 98) raises
    [KeyError].  [coreachable] itself returns such automata: on
    [dead_start_dfa] it returns one without initial state, on which
    [minimize] raises. *)
Theorem minimize_raises_without_initial_state :
  (well_formed ex_dfa_no_initial ∧ no_initial_state ex_dfa_no_initial
   ∧ minimize 10 ex_dfa_no_initial = Some (Raise KeyError))
  ∧ (well_formed dead_start_dfa
     ∧ coreachable 10 dead_start_dfa = Some (Ok dead_start_coreachable)
     ∧ well_formed dead_start_coreachable ∧ no_initial_state dead_start_coreachable
     ∧ minimize 10 dead_start_coreachable = Some (Raise KeyError)).
Proof.
  split; [split; [|split]|split; [|split; [|split; [|split]]]]; compute_done.
Qed.

(** * The transformations leave their argument as it is *)

Section frame.
Import Store.
Variable L : gset loc.

Lemma agrees_refl h : agrees L h h.
Proof. done. Qed.

Lemma agrees_trans h1 h2 h3 : agrees L h1 h2 → agrees L h2 h3 → agrees L h1 h3.
Proof. intros H12 H23 l Hl. by rewrite (H23 l Hl), (H12 l Hl). Qed.

Lemma safe_ret {A} (a : A) (Q : A → Prop) : Q a → safe L (mret a) Q.
Proof. intros Ha h Hh. split; [done|]. split; [done|]. by intros a' [= <-]. Qed.

Lemma safe_bind {A B} (m : M A) (k : A → M B) (Q : A → Prop) (R : B → Prop) :
  safe L m Q → (∀ a, Q a → safe L (k a) R) → safe L (m ≫= k) R.
Proof.
  intros Hm Hk h Hh. destruct (Hm h Hh) as (Hsep & Hag & HQ).
  unfold mbind, M_bind. destruct (m h) as [[a| |] h1]; simpl in *.
  - destruct (Hk a (HQ a eq_refl) h1 Hsep) as (Hsep' & Hag' & HR).
    split; [done|]. split; [by eapply agrees_trans|done].
  - done.
  - done.
Qed.

Lemma safe_weaken {A} (m : M A) (Q Q' : A → Prop) :
  safe L m Q → (∀ a, Q a → Q' a) → safe L m Q'.
Proof.
  intros Hm HQ h Hh. destruct (Hm h Hh) as (? & ? & H). split; [done|]. split; [done|].
  intros a Ha. by apply HQ, H.
Qed.

Lemma safe_raise {A} e (Q : A → Prop) : safe L (raise e) Q.
Proof. intros h Hh. done. Qed.

Lemma safe_out_of_fuel {A} (Q : A → Prop) : safe L out_of_fuel Q.
Proof. intros h Hh. done. Qed.

Lemma safe_lift {A} (r : result A) : safe L (lift r) (λ _, True).
Proof. destruct r; [by apply safe_ret|apply safe_raise]. Qed.

(** Reading changes nothing; a dictionary read at a location made since
    the call refers to objects made since the call. *)
Lemma safe_read l :
  safe L (read l)
    (λ o, ∀ t, l ∉ L → o = OTable t → ∀ s r, t !! s = Some r → r ∉ L).
Proof.
  intros h Hh. unfold read. destruct (h !! l) as [o|] eqn:Hl; simpl; [|done].
  split; [done|]. split; [done|]. intros o' [= <-] t Hn ->. by apply (proj2 Hh l).
Qed.

Lemma safe_alloc o :
  (∀ t, o = OTable t → ∀ s r, t !! s = Some r → r ∉ L) →
  safe L (alloc o) (λ l, l ∉ L).
Proof.
  intros Ho h [Hdom Htab]. unfold alloc. simpl.
  pose proof (is_fresh (dom h)) as Hfresh.
  assert (fresh (dom h) ∉ L) as HL by set_solver.
  split; [split|split].
  - rewrite dom_insert. set_solver.
  - intros l t Hl. destruct (decide (fresh (dom h) = l)) as [<-|Hne].
    + rewrite lookup_insert_eq. intros [= ->]. by apply Ho.
    + rewrite lookup_insert_ne by done. by apply Htab.
  - intros l Hl. rewrite lookup_insert_ne; [done|]. intros <-. done.
  - by intros l [= <-].
Qed.

Lemma safe_write l o :
  l ∉ L → (∀ t, o = OTable t → ∀ s r, t !! s = Some r → r ∉ L) →
  safe L (write l o) (λ _, True).
Proof.
  intros Hl Ho h [Hdom Htab]. unfold write. simpl. split; [split|split].
  - rewrite dom_insert. set_solver.
  - intros l' t Hl'. destruct (decide (l = l')) as [<-|Hne].
    + rewrite lookup_insert_eq. intros [= ->]. by apply Ho.
    + rewrite lookup_insert_ne by done. by apply Htab.
  - intros l' Hl'. rewrite lookup_insert_ne; [done|]. intros <-. done.
  - done.
Qed.

Lemma safe_get_symbols l : safe L (get_symbols l) (λ _, True).
Proof.
  eapply safe_bind; [apply safe_read|]. intros o _.
  destruct o; first [by apply safe_ret|apply safe_raise].
Qed.

Lemma safe_get_set l : safe L (get_set l) (λ _, True).
Proof.
  eapply safe_bind; [apply safe_read|]. intros o _.
  destruct o; first [by apply safe_ret|apply safe_raise].
Qed.

Lemma safe_get_pairs l : safe L (get_pairs l) (λ _, True).
Proof.
  eapply safe_bind; [apply safe_read|]. intros o _.
  destruct o; first [by apply safe_ret|apply safe_raise].
Qed.

Lemma safe_get_row l : safe L (get_row l) (λ _, True).
Proof.
  eapply safe_bind; [apply safe_read|]. intros o _.
  destruct o; first [by apply safe_ret|apply safe_raise].
Qed.

Lemma safe_get_classes l : safe L (get_classes l) (λ _, True).
Proof.
  eapply safe_bind; [apply safe_read|]. intros o _.
  destruct o; first [by apply safe_ret|apply safe_raise].
Qed.

Lemma safe_get_labels l : safe L (get_labels l) (λ _, True).
Proof.
  eapply safe_bind; [apply safe_read|]. intros o _.
  destruct o; first [by apply safe_ret|apply safe_raise].
Qed.

Lemma safe_get_dfa l : safe L (get_dfa l) (λ _, True).
Proof.
  eapply safe_bind; [apply safe_read|]. intros o _.
  destruct o; first [by apply safe_ret|apply safe_raise].
Qed.

(** A dictionary made since the call refers to objects made since the
    call. *)
Lemma safe_get_table l :
  safe L (get_table l) (λ t, l ∉ L → ∀ s r, t !! s = Some r → r ∉ L).
Proof.
  eapply safe_bind; [apply safe_read|]. intros o Ho.
  destruct o; try apply safe_raise. apply safe_ret. intros Hl. by apply Ho.
Qed.

Lemma safe_getitem `{Countable K} {V} (d : gmap K V) k :
  safe L (lift (getitem d k)) (λ v, d !! k = Some v).
Proof.
  unfold getitem. destruct (d !! k); [by apply safe_ret|apply safe_raise].
Qed.

Lemma safe_get_table_value l : safe L (get_table_value l) (λ _, True).
Proof. intros h Hh. unfold get_table_value. by destruct (table_at h l). Qed.

Lemma safe_value l : safe L (value l) (λ _, True).
Proof. intros h Hh. unfold value. by destruct (denote h l). Qed.

(** Mutations of objects made since the call *)
Lemma safe_set_add l x : l ∉ L → safe L (set_add l x) (λ _, True).
Proof.
  intros Hl. eapply safe_bind; [apply safe_get_set|]. intros X _.
  by apply safe_write.
Qed.

Lemma safe_pairs_add l p : l ∉ L → safe L (pairs_add l p) (λ _, True).
Proof.
  intros Hl. eapply safe_bind; [apply safe_get_pairs|]. intros X _.
  by apply safe_write.
Qed.

Lemma safe_pairs_remove l p : l ∉ L → safe L (pairs_remove l p) (λ _, True).
Proof.
  intros Hl. eapply safe_bind; [apply safe_get_pairs|]. intros X _.
  case_bool_decide; [by apply safe_write|apply safe_raise].
Qed.

Lemma safe_row_setitem l a v : l ∉ L → safe L (row_setitem l a v) (λ _, True).
Proof.
  intros Hl. eapply safe_bind; [apply safe_get_row|]. intros X _.
  by apply safe_write.
Qed.

Lemma safe_table_setdefault l s default :
  l ∉ L → default ∉ L → safe L (table_setdefault l s default) (λ r, r ∉ L).
Proof.
  intros Hl Hd. eapply safe_bind; [apply safe_get_table|]. intros t Ht.
  destruct (t !! s) as [r|] eqn:Hs.
  - apply safe_ret. by apply (Ht Hl s).
  - eapply safe_bind; [|intros _ _; by apply safe_ret].
    apply safe_write; [done|]. intros t' [= <-] s' r'.
    destruct (decide (s = s')) as [<-|Hne].
    + rewrite lookup_insert_eq. by intros [= <-].
    + rewrite lookup_insert_ne by done. by apply Ht.
Qed.

(** Copies are objects made since the call. *)
Lemma safe_copy_set l : safe L (copy_set l) (λ l', l' ∉ L).
Proof.
  eapply safe_bind; [apply safe_get_set|]. intros X _. by apply safe_alloc.
Qed.

Lemma safe_copy_pairs l : safe L (copy_pairs l) (λ l', l' ∉ L).
Proof.
  eapply safe_bind; [apply safe_get_pairs|]. intros X _. by apply safe_alloc.
Qed.

Lemma safe_copy_table l : l ∉ L → safe L (copy_table l) (λ l', l' ∉ L).
Proof.
  intros Hl. eapply safe_bind; [apply safe_get_table|]. intros t Ht.
  apply safe_alloc. intros t' [= <-]. by apply Ht.
Qed.

(** Loops *)
Lemma safe_for_each {A} (l : list A) (body : A → M unit) :
  (∀ x, safe L (body x) (λ _, True)) → safe L (for_each l body) (λ _, True).
Proof.
  intros Hbody. induction l as [|x l IH]; simpl; [by apply safe_ret|].
  eapply safe_bind; [apply Hbody|]. intros _ _. apply IH.
Qed.

Lemma safe_for_each_break {A} (l : list A) (body : A → M bool) :
  (∀ x, safe L (body x) (λ _, True)) → safe L (for_each_break l body) (λ _, True).
Proof.
  intros Hbody. induction l as [|x l IH]; simpl; [by apply safe_ret|].
  eapply safe_bind; [apply Hbody|]. intros [] _; [by apply safe_ret|apply IH].
Qed.

Lemma safe_fold_M {A B} (l : list A) (acc : B) (body : A → B → M B) (Q : B → Prop) :
  Q acc → (∀ x acc, Q acc → safe L (body x acc) Q) → safe L (fold_M l acc body) Q.
Proof.
  intros Hacc Hbody. revert acc Hacc.
  induction l as [|x l IH]; intros acc Hacc; simpl; [by apply safe_ret|].
  eapply safe_bind; [by apply Hbody|]. intros acc' Hacc'. by apply IH.
Qed.

Lemma safe_while_changed fuel z_current z_next (body : loc → M loc) :
  (∀ z, safe L (body z) (λ _, True)) →
  safe L (while_changed fuel z_current z_next body) (λ _, True).
Proof.
  intros Hbody. revert z_current z_next.
  induction fuel as [|fuel IH]; intros z_current z_next; simpl.
  - eapply safe_bind; [apply safe_read|]. intros current _.
    eapply safe_bind; [apply safe_read|]. intros next _.
    case_bool_decide; [by apply safe_ret|apply safe_out_of_fuel].
  - eapply safe_bind; [apply safe_read|]. intros current _.
    eapply safe_bind; [apply safe_read|]. intros next _.
    case_bool_decide; [by apply safe_ret|].
    eapply safe_bind; [apply Hbody|]. intros z _. apply IH.
Qed.

(** [deepcopy] of the table returns a dictionary made since the call. *)
Lemma safe_deepcopy_table l : safe L (deepcopy_table l) (λ l', l' ∉ L).
Proof.
  eapply safe_bind; [apply safe_get_table|]. intros t _.
  eapply safe_bind.
  - apply (safe_fold_M _ _ _
             (λ p : gmap loc loc * gmap State loc,
                (∀ r r', p.1 !! r = Some r' → r' ∉ L)
                ∧ ∀ s r', p.2 !! s = Some r' → r' ∉ L)).
    + split; simpl; intros ? ?; by rewrite lookup_empty.
    + intros [s r] [memo copied] [Hmemo Hcopied]. simpl in *.
      destruct (memo !! r) as [r'|] eqn:Hr.
      * apply safe_ret. split; [done|]. simpl. intros s' r''.
        destruct (decide (s = s')) as [<-|Hne].
        -- rewrite lookup_insert_eq. intros [= <-]. by apply (Hmemo r).
        -- rewrite lookup_insert_ne by done. apply Hcopied.
      * eapply safe_bind; [apply safe_get_row|]. intros sym2state _.
        eapply safe_bind; [by apply safe_alloc|]. intros r' Hr'.
        apply safe_ret. split; simpl.
        -- intros r0 r0'. destruct (decide (r = r0)) as [<-|Hne].
           ++ rewrite lookup_insert_eq. by intros [= <-].
           ++ rewrite lookup_insert_ne by done. apply Hmemo.
        -- intros s' r''. destruct (decide (s = s')) as [<-|Hne].
           ++ rewrite lookup_insert_eq. by intros [= <-].
           ++ rewrite lookup_insert_ne by done. apply Hcopied.
  - intros [memo copied] [_ Hcopied]. simpl in *.
    apply safe_alloc. intros t' [= <-]. apply Hcopied.
Qed.

(** The constructor writes nothing and makes one object. *)
Lemma safe_DFA_init alphabet states initial_state accepting_states transition_function :
  safe L (DFA_init alphabet states initial_state accepting_states transition_function)
    (λ _, True).
Proof.
  unfold DFA_init.
  eapply safe_bind; [apply safe_get_symbols|]. intros syms _.
  eapply safe_bind; [apply safe_get_set|]. intros X _.
  eapply safe_bind; [apply safe_get_set|]. intros F _.
  eapply safe_bind; [apply safe_get_table_value|]. intros tf _.
  eapply safe_bind; [apply safe_lift|]. intros _ _.
  eapply safe_weaken; [by apply safe_alloc|done].
Qed.

Create HintDb safe.
#[local] Hint Resolve safe_get_symbols safe_get_set safe_get_pairs safe_get_row
  safe_get_classes safe_get_labels safe_get_dfa safe_get_table
  safe_lift safe_get_table_value safe_value safe_copy_set safe_copy_pairs
  safe_deepcopy_table safe_DFA_init safe_set_add safe_pairs_add
  safe_pairs_remove safe_row_setitem safe_table_setdefault safe_copy_table : safe.

(** The rule of a computation that is not a loop *)
Ltac safe_rule :=
  first
    [ apply safe_getitem
    | solve [eauto with safe]
    | apply safe_alloc; first [done|by intros ? [= <-] ? ?; rewrite lookup_empty] ].

(** The rules applied along the text of a function: at each [≫=] the rule
    of the computation at its head, the rest being left with what the
    head returns. *)
Ltac safe_steps :=
  repeat
    lazymatch goal with
    | |- safe _ (mret _) _ => by apply safe_ret
    | |- safe _ (raise _) _ => apply safe_raise
    | |- safe _ (for_each _ _) _ => apply safe_for_each; intros ?
    | |- safe _ (for_each_break _ _) _ => apply safe_for_each_break; intros ?
    | |- safe _ (for_each _ _ ≫= _) _ =>
        eapply safe_bind; [apply safe_for_each; intros ?|intros _ _]
    | |- safe _ (for_each_break _ _ ≫= _) _ =>
        eapply safe_bind; [apply safe_for_each_break; intros ?|intros _ _]
    | |- safe _ (while_changed _ _ _ _ ≫= _) _ =>
        eapply safe_bind; [apply safe_while_changed; intros ?|intros ? _]
    | |- safe _ ((_ ≫= _) ≫= _) _ => eapply safe_bind; [|intros ? ?; simpl in *]
    | |- safe _ (_ ≫= _) _ => eapply safe_bind; [safe_rule|intros ? ?; simpl in *]
    | |- safe _ (match ?x with _ => _ end) _ => destruct x eqn:?
    | |- safe _ _ ?Q =>
        tryif is_evar Q then safe_rule else (eapply safe_weaken; [safe_rule|done])
    end.

(** A loop that builds a value no later write depends on *)
Ltac safe_fold :=
  eapply safe_bind;
    [eapply safe_fold_M with (Q := λ _, True); [done|intros ? ? _]|intros ? _].
Ltac safe_fold_pairs :=
  eapply safe_bind;
    [eapply safe_fold_M with (Q := λ _, True); [done|intros [? ?] ? _; simpl]
    |intros ? _].

Lemma safe_complete dfa : safe L (complete dfa) (λ _, True).
Proof. unfold complete. safe_steps. Qed.
#[local] Hint Resolve safe_complete : safe.

Lemma safe_restricted_transition_function transition_function new_states :
  safe L (restricted_transition_function transition_function new_states) (λ _, True).
Proof. unfold restricted_transition_function. safe_steps. Qed.
#[local] Hint Resolve safe_restricted_transition_function : safe.

Lemma safe_reachable fuel dfa : safe L (reachable fuel dfa) (λ _, True).
Proof. unfold reachable. safe_steps. Qed.
#[local] Hint Resolve safe_reachable : safe.

Lemma safe_coreachable fuel dfa : safe L (coreachable fuel dfa) (λ _, True).
Proof. unfold coreachable. safe_steps. Qed.
#[local] Hint Resolve safe_coreachable : safe.

Lemma safe_trim fuel dfa : safe L (trim fuel dfa) (λ _, True).
Proof. unfold trim. safe_steps. Qed.

Lemma safe_minimize_with enumerate_set fuel dfa :
  safe L (minimize_with enumerate_set fuel dfa) (λ _, True).
Proof.
  unfold minimize_with. safe_steps.
  eapply safe_bind.
  { apply (safe_fold_M _ _ _
             (λ frozen : gmap State loc, ∀ s r, frozen !! s = Some r → r ∉ L)).
    - intros ? ?. by rewrite lookup_empty.
    - intros [k v] frozen Hfrozen. safe_steps. apply safe_ret. intros s' r'.
      destruct (decide (k = s')) as [<-|Hne].
      + rewrite lookup_insert_eq. by intros [= <-].
      + rewrite lookup_insert_ne by done. apply Hfrozen. }
  intros frozen Hfrozen.
  eapply safe_bind; [apply safe_alloc; by intros ? [= <-]|]. intros ? ?.
  safe_steps. safe_fold_pairs; [safe_steps|].
  safe_steps. safe_fold; [safe_steps|].
  safe_steps.
Qed.
End frame.

(** A computation that is safe for the locations in use leaves every
    object as it was. *)
Lemma safe_unchanged {A} (m : Store.M A) (Q : A → Prop) (h : gmap Store.loc Store.object) :
  Store.safe (dom h) m Q → Store.unchanged h (m h).2.
Proof.
  intros Hsafe. destruct (Hsafe h) as (_ & Hag & _).
  - split; [done|]. intros l t Hl Ht. exfalso. apply Hl, elem_of_dom. eauto.
  - intros l o Hl. rewrite Hag; [done|]. apply elem_of_dom. eauto.
Qed.

(** A DFA object whose parts are unchanged stands for the same automaton. *)
Lemma denote_unchanged (h h' : gmap Store.loc Store.object) dfa d :
  Store.unchanged h h' → Store.denote h dfa = Some d → Store.denote h' dfa = Some d.
Proof.
  intros Hun. unfold Store.denote.
  destruct (h !! dfa) as [[| | | | | | |al sts init acc tf]|] eqn:Hdfa; try done.
  rewrite (Hun _ _ Hdfa).
  destruct (h !! al) as [[syms| | | | | | |]|] eqn:Hal; try done.
  rewrite (Hun _ _ Hal).
  destruct (h !! sts) as [[|X| | | | | |]|] eqn:Hsts; try done.
  rewrite (Hun _ _ Hsts).
  destruct (h !! acc) as [[|F| | | | | |]|] eqn:Hacc; try done.
  rewrite (Hun _ _ Hacc).
  assert (∀ r, is_Some (Store.row_at h r) → Store.row_at h' r = Store.row_at h r) as Hrow.
  { intros r [row Hr]. unfold Store.row_at in *.
    destruct (h !! r) as [[| | |row'| | | |]|] eqn:Hr'; try done.
    by rewrite (Hun _ _ Hr'). }
  assert (∀ v, Store.table_at h tf = Some v → Store.table_at h' tf = Some v) as Htab.
  { intros v. unfold Store.table_at.
    destruct (h !! tf) as [[| | | |t| | |]|] eqn:Htf; try done.
    rewrite (Hun _ _ Htf). case_bool_decide as Hall; [|done]. intros [= <-].
    rewrite bool_decide_eq_true_2.
    - f_equal. apply map_eq. intros s. rewrite !lookup_omap.
      destruct (t !! s) as [r|] eqn:Hs; simpl; [|done].
      apply Hrow. by apply (Hall s).
    - intros s r Hs. rewrite Hrow; by apply (Hall s). }
  destruct (Store.table_at h tf) as [v|]; [|done].
  by rewrite (Htab v eq_refl).
Qed.

Lemma safe_leaves_argument_unchanged (f : Store.loc → Store.M Store.loc) :
  (∀ L dfa, Store.safe L (f dfa) (λ _, True)) → Store.leaves_argument_unchanged f.
Proof.
  intros Hsafe h dfa.
  assert (Store.unchanged h (f dfa h).2) as Hun by (eapply safe_unchanged, Hsafe).
  split; [done|]. intros d. by apply denote_unchanged.
Qed.

(** C9: every transformation leaves its argument as it is.  Over the
    store of objects, [complete], [minimize], [reachable], [coreachable]
    and [trim] change no object that exists when they are called, whether
    they return, raise or are cut short: the DFA object they were given
    has afterwards the alphabet, the states, the initial state, the
    accepting states, the table and the rows it had. *)
Theorem transformations_leave_argument_unchanged :
  Store.leaves_argument_unchanged Store.complete
  ∧ (∀ fuel, Store.leaves_argument_unchanged (Store.minimize fuel))
  ∧ (∀ fuel, Store.leaves_argument_unchanged (Store.reachable fuel))
  ∧ (∀ fuel, Store.leaves_argument_unchanged (Store.coreachable fuel))
  ∧ (∀ fuel, Store.leaves_argument_unchanged (Store.trim fuel)).
Proof.
  split; [|split; [|split; [|split]]]; try intros fuel;
    apply safe_leaves_argument_unchanged; intros L dfa.
  - apply safe_complete.
  - apply safe_minimize_with.
  - apply safe_reachable.
  - apply safe_coreachable.
  - apply safe_trim.
Qed.

Lemma transformations_leave_argument_unchanged_witness :
  Store.denote (Store.store_of ex_dfa) (Store.object_of ex_dfa) = Some ex_dfa
  ∧ Store.denote (Store.minimize 10 (Store.object_of ex_dfa) (Store.store_of ex_dfa)).2
      (Store.object_of ex_dfa) = Some ex_dfa.
Proof.
  assert (Store.denote (Store.store_of ex_dfa) (Store.object_of ex_dfa) = Some ex_dfa)
    as Hd by compute_done.
  split; [done|].
  destruct transformations_leave_argument_unchanged as (_ & Hmin & _).
  destruct (Hmin 10 (Store.store_of ex_dfa) (Store.object_of ex_dfa)) as [_ H].
  exact (H ex_dfa Hd).
Defined.

(** The store and the values agree: on the automata of the examples, each
    transformation over the store ends as the one over values does, with
    the same automaton or the same exception. *)
Lemma store_agrees_on_examples :
  Store.run_on ex_dfa Store.complete = Store.of_result (Some (complete ex_dfa))
  ∧ Store.run_on ex_dfa (Store.minimize 10) = Store.of_result (minimize 10 ex_dfa)
  ∧ Store.run_on ex_dfa (Store.reachable 10) = Store.of_result (reachable 10 ex_dfa)
  ∧ Store.run_on ex_dfa (Store.coreachable 10) = Store.of_result (coreachable 10 ex_dfa)
  ∧ Store.run_on ex_dfa (Store.trim 10) = Store.of_result (trim 10 ex_dfa)
  ∧ Store.run_on merged_dfa (Store.minimize 10) = Store.of_result (minimize 10 merged_dfa)
  ∧ Store.run_on only_a_dfa (Store.trim 10) = Store.of_result (trim 10 only_a_dfa)
  ∧ Store.run_on dead_start_dfa (Store.coreachable 10)
    = Store.of_result (coreachable 10 dead_start_dfa)
  ∧ Store.run_on ex_dfa_no_initial (Store.reachable 10)
    = Store.of_result (reachable 10 ex_dfa_no_initial)
  ∧ Store.run_on ex_dfa_no_initial (Store.minimize 10)
    = Store.of_result (minimize 10 ex_dfa_no_initial)
  ∧ Store.run_on foreign_target_dfa (Store.minimize 10)
    = Store.of_result (minimize 10 foreign_target_dfa)
  ∧ Store.run_on only_a_dfa (Store.minimize 1) = Store.of_result (minimize 1 only_a_dfa).
Proof. repeat split; compute_done. Qed.

(** * Runs, reachability and accepted words *)

(** ** Accepted words *)

Lemma word_acceptance_from_true dfa s word :
  word_acceptance_from dfa s word = Ok true
  ↔ ∃ t, run (transition_function dfa) s word = Some t ∧ t ∈ accepting_states dfa.
Proof.
  revert s. induction word as [|a w IH]; intros s; simpl.
  - split.
    + intros [= H]. apply bool_decide_eq_true in H. eauto.
    + intros (t & [= <-] & Ht). f_equal. by apply bool_decide_eq_true.
  - unfold successor, getitem.
    destruct (transition_function dfa !! s) as [row|]; simpl.
    + destruct (row !! a) as [t|]; simpl; [apply IH|].
      split; [done|]. by intros (t & ? & _).
    + split; [done|]. by intros (t & ? & _).
Qed.

Lemma accepts_run dfa word :
  accepts dfa word
  ↔ (∀ char, char ∈ word → char ∈ symbols (alphabet dfa))
    ∧ ∃ t, run (transition_function dfa) (initial_state dfa) word = Some t
           ∧ t ∈ accepting_states dfa.
Proof.
  unfold accepts, word_acceptance.
  destruct (forallb _ word) eqn:Hall.
  - rewrite word_acceptance_from_true. split; [|by intros [_ ?]].
    intros H. split; [|done]. intros c Hc. rewrite forallb_forall in Hall.
    apply list_elem_of_In in Hc. apply Hall in Hc. by apply bool_decide_eq_true in Hc.
  - split; [done|]. intros [Hin _]. apply forallb_false in Hall as (c & Hc & Hn).
    apply bool_decide_eq_false in Hn. exfalso. by apply Hn, Hin.
Qed.

(** ** Reachable states *)

(** A loop that has run at least once ends on a set its body leaves as it
    is, and keeps what its body keeps. *)
Lemma while_changed_fixpoint {A : Type} `{EqDecision A} (P : A → Prop)
    (body : A → A) (fuel : nat) (c n z : A) :
  P n → (∀ x, P x → P (body x)) →
  while_changed fuel body c n = Some z →
  (z = c ∧ c = n) ∨ (P z ∧ body z = z).
Proof.
  intros Hn Hbody. revert c n Hn. induction fuel as [|fuel IH]; intros c n Hn; simpl.
  - case_bool_decide; [|done]. intros [= <-]. by left.
  - case_bool_decide; [intros [= <-]; by left|].
    intros Hz. destruct (IH n (body n) (Hbody n Hn) Hz) as [[-> Heq]|?]; [|by right].
    right. by rewrite <- Heq.
Qed.

Lemma elem_of_reachable_body_successor dfa (z : gset State) x :
  x ∈ reachable_body dfa z
  ↔ x ∈ z ∨ ∃ s a, s ∈ z ∧ successor (transition_function dfa) s a = Some x.
Proof.
  rewrite elem_of_reachable_body. unfold successor. split.
  - intros [?|(s & row & a & Hs & Hrow & Ha)]; [by left|right].
    exists s, a. split; [done|]. by rewrite Hrow.
  - intros [?|(s & a & Hs & Hsucc)]; [by left|right].
    destruct (transition_function dfa !! s) as [row|] eqn:Hrow; [|done].
    exists s, row, a. done.
Qed.

(** The set the loop of [reachable] ends with holds the states a path
    leads to from the initial state, and no other. *)
Lemma reachable_loop_exact dfa fuel z :
  while_changed fuel (reachable_body dfa) ∅ {[initial_state dfa]} = Some z →
  ∀ s, s ∈ z ↔ reaches dfa s.
Proof.
  intros Hz.
  destruct (while_changed_fixpoint
              (λ z : gset State, initial_state dfa ∈ z ∧ ∀ x, x ∈ z → reaches dfa x)
              (reachable_body dfa) fuel ∅ {[initial_state dfa]} z)
    as [[_ Hempty]|[[Hinit Hsound] Hfix]]; [| |done| |].
  - split; [set_solver|]. intros x Hx. apply elem_of_singleton in Hx as ->. constructor.
  - intros y [Hi Hs]. split.
    + apply elem_of_reachable_body_successor. by left.
    + intros x Hx. apply elem_of_reachable_body_successor in Hx
        as [?|(s & a & Hsy & Hsucc)]; [by apply Hs|].
      eapply reaches_step; [by apply Hs|done].
  - exfalso. assert (initial_state dfa ∈ (∅ : gset State)) by (rewrite Hempty; set_solver).
    set_solver.
  - intros s. split; [apply Hsound|].
    induction 1 as [|s a t _ IH Hsucc]; [done|].
    rewrite <- Hfix. apply elem_of_reachable_body_successor. right. eauto.
Qed.

(** The restricted table has the transitions of the table that start and
    end in [new_states], and no empty row. *)
Lemma restricted_transition_function_exact dfa (new_states : gset State) :
  (∀ s a t,
     successor (restricted_transition_function dfa new_states) s a = Some t
     ↔ s ∈ new_states ∧ t ∈ new_states
       ∧ successor (transition_function dfa) s a = Some t)
  ∧ no_empty_row (restricted_transition_function dfa new_states).
Proof.
  unfold restricted_transition_function.
  pose (exact := λ (Y : gset State) (tf : gmap State (gmap Symbol State)),
          (∀ s a t, successor tf s a = Some t
                    ↔ s ∈ Y ∧ t ∈ new_states
                      ∧ successor (transition_function dfa) s a = Some t)
          ∧ no_empty_row tf).
  cut (∀ Y : gset State,
         exact Y
           (set_fold
              (λ s new_transition_function,
                 match transition_function dfa !! s with
                 | None => new_transition_function
                 | Some sym2state =>
                     map_fold
                       (λ (a : Symbol) next_state
                          (new_transition_function : gmap State (gmap Symbol State)),
                          if bool_decide (next_state ∈ new_states)
                          then <[s := <[a := next_state]>
                                        (default ∅ (new_transition_function !! s))]>
                                 new_transition_function
                          else new_transition_function)
                       new_transition_function sym2state
                 end) ∅ Y)).
  { intros Hcut. apply Hcut. }
  apply (set_fold_ind_L (λ tf Y, exact Y tf)).
  - split.
    + intros s a t. unfold successor at 1. rewrite lookup_empty. simpl. set_solver.
    + intros s row Hs. by rewrite lookup_empty in Hs.
  - intros s Y tf Hs [IH Hne].
    destruct (transition_function dfa !! s) as [row0|] eqn:Hrow0.
    + pose (partial := λ (tf' : gmap State (gmap Symbol State)) (m : gmap Symbol State),
              (∀ s' a t, successor tf' s' a = Some t
                         ↔ (s' ∈ Y ∧ t ∈ new_states
                            ∧ successor (transition_function dfa) s' a = Some t)
                           ∨ (s' = s ∧ t ∈ new_states ∧ m !! a = Some t))
              ∧ no_empty_row tf').
      assert (partial
                (map_fold
                   (λ (a : Symbol) next_state
                      (new_transition_function : gmap State (gmap Symbol State)),
                      if bool_decide (next_state ∈ new_states)
                      then <[s := <[a := next_state]>
                                    (default ∅ (new_transition_function !! s))]>
                             new_transition_function
                      else new_transition_function)
                   tf row0) row0) as [Hex Hne'].
      { apply (map_fold_weak_ind partial).
        - split; [|done]. intros s' a t. rewrite IH. split; [by left|].
          intros [?|(_ & _ & Hm)]; [done|]. by rewrite lookup_empty in Hm.
        - intros a t m tf' Ha [IH' Hne']. case_bool_decide as Ht.
          + split.
            * intros s' a' t'. destruct (decide (s = s')) as [<-|Hns].
              -- unfold successor at 1. rewrite lookup_insert_eq. simpl.
                 destruct (decide (a = a')) as [<-|Hna].
                 ++ rewrite !lookup_insert_eq. split.
                    ** intros [= <-]. right. done.
                    ** intros [(HsY & _)|(_ & _ & [= <-])]; [done|done].
                 ++ rewrite !lookup_insert_ne by done.
                    assert (default ∅ (tf' !! s) !! a' = successor tf' s a') as ->.
                    { unfold successor. destruct (tf' !! s); simpl; [done|].
                      by rewrite lookup_empty. }
                    apply IH'.
              -- unfold successor at 1. rewrite lookup_insert_ne by done.
                 fold (successor tf' s' a'). rewrite IH'. split.
                 ++ intros [?|(-> & _)]; [by left|done].
                 ++ intros [?|(-> & _)]; [by left|done].
            * intros s' row'. destruct (decide (s = s')) as [<-|Hns].
              -- rewrite lookup_insert_eq. intros [= <-]. apply insert_non_empty.
              -- rewrite lookup_insert_ne by done. apply Hne'.
          + split; [|done]. intros s' a' t'. rewrite IH'. split.
            * intros [?|(-> & Ht' & Hm)]; [by left|right].
              split; [done|]. split; [done|].
              rewrite lookup_insert_ne; [done|]. intros ->. congruence.
            * intros [?|(-> & Ht' & Hm)]; [by left|right].
              split; [done|]. split; [done|].
              destruct (decide (a = a')) as [<-|Hna].
              -- rewrite lookup_insert_eq in Hm. congruence.
              -- by rewrite lookup_insert_ne in Hm. }
      split; [|done]. intros s' a t. rewrite Hex. split.
      * intros [(? & ? & ?)|(-> & ? & Hm)].
        -- split; [set_solver|done].
        -- split; [set_solver|]. split; [done|]. unfold successor. by rewrite Hrow0.
      * intros (Hin & Ht & Hsucc). apply elem_of_union in Hin as [Hin|Hin].
        -- apply elem_of_singleton in Hin as ->. right. split; [done|]. split; [done|].
           unfold successor in Hsucc. by rewrite Hrow0 in Hsucc.
        -- by left.
    + split; [|done]. intros s' a t. rewrite IH. split.
      * intros (? & ? & ?). split; [set_solver|done].
      * intros (Hin & Ht & Hsucc). apply elem_of_union in Hin as [Hin|Hin]; [|done].
        apply elem_of_singleton in Hin as ->. unfold successor in Hsucc.
        by rewrite Hrow0 in Hsucc.
Qed.

(** Two tables without empty rows that have the same successors are the
    same table. *)
Lemma table_eq (tf1 tf2 : gmap State (gmap Symbol State)) :
  no_empty_row tf1 → no_empty_row tf2 →
  (∀ s a, successor tf1 s a = successor tf2 s a) → tf1 = tf2.
Proof.
  intros H1 H2 Hsucc. apply map_eq. intros s.
  destruct (tf1 !! s) as [row1|] eqn:Hs1, (tf2 !! s) as [row2|] eqn:Hs2; [| | |done].
  - f_equal. apply map_eq. intros a. specialize (Hsucc s a).
    unfold successor in Hsucc. by rewrite Hs1, Hs2 in Hsucc.
  - destruct (map_choose row1 (H1 s row1 Hs1)) as (a & t & Ha).
    specialize (Hsucc s a). unfold successor in Hsucc.
    rewrite Hs1, Hs2 in Hsucc. simpl in Hsucc. congruence.
  - destruct (map_choose row2 (H2 s row2 Hs2)) as (a & t & Ha).
    specialize (Hsucc s a). unfold successor in Hsucc.
    rewrite Hs1, Hs2 in Hsucc. simpl in Hsucc. congruence.
Qed.

Lemma option_eq_Some {A} (o1 o2 : option A) :
  (∀ x, o1 = Some x ↔ o2 = Some x) → o1 = o2.
Proof.
  intros H. destruct o1 as [x|], o2 as [y|]; [| | |done].
  - by apply H.
  - symmetry. by apply H.
  - by apply H.
Qed.

(** What [reachable] returns, when it returns. *)
Lemma reachable_inv fuel dfa dfa' :
  reachable fuel dfa = Some (Ok dfa') →
  ∃ new_states,
    while_changed fuel (reachable_body dfa) ∅ {[initial_state dfa]} = Some new_states
    ∧ dfa' = mkDFA (alphabet dfa) new_states (initial_state dfa)
               (new_states ∩ accepting_states dfa)
               (restricted_transition_function dfa new_states).
Proof.
  unfold reachable.
  destruct (while_changed fuel (reachable_body dfa) ∅ {[initial_state dfa]})
    as [new_states|]; simpl; [|done].
  intros [= H]. apply DFA_init_inv in H as [-> _]. eauto.
Qed.

Lemma reachable_Ok_states fuel dfa dfa' :
  reachable fuel dfa = Some (Ok dfa') → ∀ s, s ∈ states dfa' ↔ reaches dfa s.
Proof.
  intros H. apply reachable_inv in H as (N & HN & ->). simpl.
  by apply (reachable_loop_exact dfa fuel).
Qed.

Lemma reachable_Ok_successor fuel dfa dfa' s a t :
  reachable fuel dfa = Some (Ok dfa') →
  successor (transition_function dfa') s a = Some t
  ↔ reaches dfa s ∧ successor (transition_function dfa) s a = Some t.
Proof.
  intros H. apply reachable_inv in H as (N & HN & ->). simpl.
  destruct (restricted_transition_function_exact dfa N) as [Hex _].
  rewrite Hex, !(reachable_loop_exact dfa fuel N HN). split.
  - intros (? & ? & ?). done.
  - intros [Hs Hsucc]. split; [done|]. split; [|done]. by eapply reaches_step.
Qed.

Lemma reachable_Ok_run fuel dfa dfa' s word :
  reachable fuel dfa = Some (Ok dfa') → reaches dfa s →
  run (transition_function dfa') s word = run (transition_function dfa) s word.
Proof.
  intros H. revert s. induction word as [|a w IH]; intros s Hs; simpl; [done|].
  assert (successor (transition_function dfa') s a
          = successor (transition_function dfa) s a) as ->.
  { apply option_eq_Some. intros t. rewrite (reachable_Ok_successor _ _ _ _ _ _ H).
    split; [by intros [_ ?]|done]. }
  destruct (successor (transition_function dfa) s a) as [t|] eqn:Hsucc; simpl; [|done].
  apply IH. by eapply reaches_step.
Qed.

Lemma reaches_run dfa s word t :
  reaches dfa s → run (transition_function dfa) s word = Some t → reaches dfa t.
Proof.
  revert s. induction word as [|a w IH]; intros s Hs; simpl.
  - by intros [= <-].
  - destruct (successor (transition_function dfa) s a) as [u|] eqn:Hsucc; simpl; [|done].
    apply IH. by eapply reaches_step.
Qed.

(** A row of the table [reachable] returns is the row the state had. *)
Lemma reachable_Ok_row fuel dfa dfa' s sym2state :
  reachable fuel dfa = Some (Ok dfa') →
  transition_function dfa' !! s = Some sym2state →
  reaches dfa s ∧ transition_function dfa !! s = Some sym2state.
Proof.
  intros H Hrow.
  assert (no_empty_row (transition_function dfa')) as Hne.
  { pose proof H as H'. apply reachable_inv in H' as (N & HN & ->). simpl.
    apply restricted_transition_function_exact. }
  destruct (map_choose sym2state (Hne s sym2state Hrow)) as (a & t & Ha).
  assert (successor (transition_function dfa') s a = Some t) as Hsucc.
  { unfold successor. by rewrite Hrow. }
  apply (reachable_Ok_successor _ _ _ _ _ _ H) in Hsucc as [Hs Hsucc].
  split; [done|]. unfold successor in Hsucc.
  destruct (transition_function dfa !! s) as [row|] eqn:Hrow0; [|done].
  f_equal. apply map_eq. intros b. apply option_eq_Some. intros u.
  pose proof (reachable_Ok_successor fuel dfa dfa' s b u H) as Hb.
  unfold successor in Hb. rewrite Hrow, Hrow0 in Hb. simpl in Hb.
  rewrite Hb. split; [done|]. by intros [_ ?].
Qed.

Lemma reachable_Ok_word_acceptance_from fuel dfa dfa' s word b :
  reachable fuel dfa = Some (Ok dfa') → reaches dfa s →
  word_acceptance_from dfa' s word = Ok b → word_acceptance_from dfa s word = Ok b.
Proof.
  intros H. revert s. induction word as [|a w IH]; intros s Hs; simpl.
  - intros [= <-]. f_equal. apply bool_decide_ext.
    pose proof H as H'. apply reachable_inv in H' as (N & HN & ->). simpl.
    rewrite elem_of_intersection, (reachable_loop_exact dfa fuel N HN). tauto.
  - unfold getitem.
    destruct (transition_function dfa' !! s) as [row|] eqn:Hrow; simpl; [|done].
    destruct (reachable_Ok_row _ _ _ _ _ H Hrow) as [_ ->]. simpl.
    destruct (row !! a) as [t|] eqn:Ha; [|done].
    apply IH. eapply reaches_step; [done|]. unfold successor.
    destruct (reachable_Ok_row _ _ _ _ _ H Hrow) as [_ ->]. done.
Qed.

Lemma reachable_Ok_accepts fuel dfa dfa' word :
  reachable fuel dfa = Some (Ok dfa') → accepts dfa' word ↔ accepts dfa word.
Proof.
  intros H. rewrite !accepts_run.
  assert (initial_state dfa' = initial_state dfa) as Hi.
  { pose proof H as H'. by apply reachable_inv in H' as (N & HN & ->). }
  rewrite Hi, (reachable_Ok_run fuel dfa dfa' _ _ H) by constructor.
  pose proof H as H'. apply reachable_inv in H' as (N & HN & ->). simpl.
  split; intros [Hal (t & Hrun & Ht)]; (split; [done|]); exists t; (split; [done|]).
  - set_solver.
  - apply elem_of_intersection. split; [|done].
    apply (reachable_loop_exact dfa fuel N HN).
    eapply reaches_run; [|done]. constructor.
Qed.

Lemma reaches_reachable fuel dfa dfa' s :
  reachable fuel dfa = Some (Ok dfa') → reaches dfa' s ↔ reaches dfa s.
Proof.
  intros H.
  assert (initial_state dfa' = initial_state dfa) as Hi.
  { pose proof H as H'. by apply reachable_inv in H' as (N & HN & ->). }
  split.
  - induction 1 as [|s a t _ IH Hsucc]; [rewrite Hi; constructor|].
    apply (reachable_Ok_successor _ _ _ _ _ _ H) in Hsucc as [_ Hsucc].
    by eapply reaches_step.
  - induction 1 as [|s a t Hs IH Hsucc]; [rewrite <- Hi; constructor|].
    eapply reaches_step; [done|]. by apply (reachable_Ok_successor _ _ _ _ _ _ H).
Qed.

Lemma reachable_Ok_twice fuel fuel' dfa dfa' dfa'' :
  reachable fuel dfa = Some (Ok dfa') → reachable fuel' dfa' = Some (Ok dfa'') →
  dfa'' = dfa'.
Proof.
  intros H H'.
  pose proof (reachable_Ok_states _ _ _ H) as Hs.
  pose proof (reachable_Ok_states _ _ _ H') as Hs'.
  assert (∀ s a, successor (transition_function dfa'') s a
                 = successor (transition_function dfa') s a) as Hsucc.
  { intros s a. apply option_eq_Some. intros t.
    rewrite (reachable_Ok_successor _ _ _ _ _ _ H').
    split; [by intros [_ ?]|]. intros Hsucc. split; [|done].
    apply (reaches_reachable _ _ _ _ H).
    by apply (reachable_Ok_successor _ _ _ _ _ _ H) in Hsucc as [? _]. }
  pose proof H as Hinv. apply reachable_inv in Hinv as (N & HN & HeqN).
  pose proof H' as Hinv'. apply reachable_inv in Hinv' as (N' & HN' & HeqN').
  assert (N' = N) as HNN.
  { apply set_eq. intros s. rewrite HeqN in Hs. rewrite HeqN' in Hs'. simpl in *.
    rewrite Hs, Hs'. apply (reaches_reachable _ _ _ _ H). }
  assert (transition_function dfa'' = transition_function dfa') as Htf.
  { apply table_eq; [| |done].
    - rewrite HeqN'. simpl. apply restricted_transition_function_exact.
    - rewrite HeqN. simpl. apply restricted_transition_function_exact. }
  rewrite HeqN' in Htf |- *. simpl in Htf. rewrite Htf, HNN.
  rewrite HeqN. simpl. f_equal. set_solver.
Qed.

(** ** Coreachable states *)

Lemma existsb_successor_in (sym2state : gmap Symbol State) (z : gset State) :
  existsb (λ '(a, next_state), bool_decide (next_state ∈ z)) (map_to_list sym2state) = true
  ↔ ∃ a t, sym2state !! a = Some t ∧ t ∈ z.
Proof.
  rewrite existsb_exists. split.
  - intros ([a t] & Hin & Ht). apply list_elem_of_In, elem_of_map_to_list in Hin.
    apply bool_decide_eq_true in Ht. eauto.
  - intros (a & t & Ha & Ht). exists (a, t). split.
    + by apply list_elem_of_In, elem_of_map_to_list.
    + by apply bool_decide_eq_true.
Qed.

(** One round of the loop of [coreachable] adds only states that have a
    successor in the set as it has grown so far. *)
Lemma coreachable_body_sound dfa (z : gset State) (P : State → Prop) :
  (∀ x, x ∈ z → P x) →
  (∀ s a t, s ∈ states dfa → successor (transition_function dfa) s a = Some t →
            P t → P s) →
  ∀ x, x ∈ coreachable_body dfa z → P x.
Proof.
  intros Hz Hstep. unfold coreachable_body.
  cut (∀ Y : gset State, Y ⊆ states dfa →
         ∀ x, x ∈ set_fold
                (λ state (z_next : gset State),
                   match transition_function dfa !! state with
                   | None => z_next
                   | Some sym2state =>
                       if existsb (λ '(a, next_state), bool_decide (next_state ∈ z_next))
                            (map_to_list sym2state)
                       then z_next ∪ {[state]}
                       else z_next
                   end) z Y → P x).
  { intros Hcut. by apply Hcut. }
  intros Y. apply (set_fold_ind_L (λ (acc : gset State) (Y : gset State),
                                     Y ⊆ states dfa → ∀ x, x ∈ acc → P x)).
  - intros _. done.
  - intros s Y' acc Hs IH HY.
    assert (∀ x, x ∈ acc → P x) as IH' by (apply IH; set_solver).
    destruct (transition_function dfa !! s) as [row|] eqn:Hrow; [|done].
    destruct (existsb _ _) eqn:Hex; [|done].
    apply existsb_successor_in in Hex as (a & t & Ha & Ht).
    intros x Hx. apply elem_of_union in Hx as [Hx|Hx]; [by apply IH'|].
    apply elem_of_singleton in Hx as ->. apply (Hstep s a t).
    + set_solver.
    + unfold successor. by rewrite Hrow.
    + by apply IH'.
Qed.

(** One round adds every state of the automaton that has a successor in
    the set it was given. *)
Lemma coreachable_body_complete dfa (z : gset State) s a t :
  s ∈ states dfa → successor (transition_function dfa) s a = Some t → t ∈ z →
  s ∈ coreachable_body dfa z.
Proof.
  intros Hs Hsucc Ht. revert Hs. unfold coreachable_body.
  generalize (states dfa). intros Y.
  apply (set_fold_ind_L (λ (acc : gset State) (Y : gset State),
                           z ⊆ acc ∧ (s ∈ Y → s ∈ acc))).
  - split; [done|]. set_solver.
  - intros x Y' acc Hx [Hz IH].
    assert (z ⊆ match transition_function dfa !! x with
                | None => acc
                | Some sym2state =>
                    if existsb (λ '(a, next_state), bool_decide (next_state ∈ acc))
                         (map_to_list sym2state)
                    then acc ∪ {[x]}
                    else acc
                end) as Hz'.
    { destruct (transition_function dfa !! x); [|done].
      destruct (existsb _ _); set_solver. }
    split; [done|]. intros Hin. apply elem_of_union in Hin as [Hin|Hin].
    + apply elem_of_singleton in Hin as ->. unfold successor in Hsucc.
      destruct (transition_function dfa !! x) as [row|] eqn:Hrow; [|done].
      simpl in Hsucc.
      assert (existsb (λ '(a, next_state), bool_decide (next_state ∈ acc))
                (map_to_list row) = true) as ->.
      { apply existsb_successor_in. exists a, t. split; [done|]. by apply Hz. }
      set_solver.
    + specialize (IH Hin). destruct (transition_function dfa !! x); [|done].
      destruct (existsb _ _); set_solver.
Qed.

(** The set the loop of [coreachable] ends with holds the states from
    which an accepting state is reached, and no other. *)
Lemma coreachable_loop_exact dfa fuel z :
  while_changed fuel (coreachable_body dfa) ∅ (accepting_states dfa) = Some z →
  ∀ s, s ∈ z ↔ coreaches dfa s.
Proof.
  intros Hz.
  destruct (while_changed_fixpoint
              (λ z : gset State, accepting_states dfa ⊆ z ∧ ∀ x, x ∈ z → coreaches dfa x)
              (coreachable_body dfa) fuel ∅ (accepting_states dfa) z)
    as [[-> Hempty]|[[Hacc Hsound] Hfix]]; [| |done| |].
  - split; [done|]. intros x Hx. by constructor.
  - intros y [Hacc Hs]. split.
    + destruct (coreachable_body_bounds dfa y). set_solver.
    + apply coreachable_body_sound; [done|]. intros s a t ? ? ?. by eapply coreaches_step.
  - intros s. split; [set_solver|].
    induction 1 as [s Hs|s a t _ _ _ IH]; [|done]. rewrite <- Hempty in Hs. set_solver.
  - intros s. split; [apply Hsound|].
    induction 1 as [s Hs|s a t Hs Hsucc _ IH]; [by apply Hacc|].
    rewrite <- Hfix. by eapply coreachable_body_complete.
Qed.

(** What [coreachable] returns, when it returns. *)
Lemma coreachable_inv fuel dfa dfa' :
  coreachable fuel dfa = Some (Ok dfa') →
  ∃ new_states,
    while_changed fuel (coreachable_body dfa) ∅ (accepting_states dfa) = Some new_states
    ∧ dfa' = mkDFA (alphabet dfa) new_states
               (if bool_decide (initial_state dfa ∈ new_states)
                then initial_state dfa else SNone)
               (accepting_states dfa)
               (restricted_transition_function dfa new_states).
Proof.
  unfold coreachable.
  destruct (while_changed fuel (coreachable_body dfa) ∅ (accepting_states dfa))
    as [new_states|]; simpl; [|done].
  intros [= H]. apply DFA_init_inv in H as [-> _]. eauto.
Qed.

Lemma coreachable_Ok_states fuel dfa dfa' :
  coreachable fuel dfa = Some (Ok dfa') → ∀ s, s ∈ states dfa' ↔ coreaches dfa s.
Proof.
  intros H. apply coreachable_inv in H as (N & HN & ->). simpl.
  by apply (coreachable_loop_exact dfa fuel).
Qed.

Lemma coreachable_Ok_successor fuel dfa dfa' s a t :
  coreachable fuel dfa = Some (Ok dfa') →
  successor (transition_function dfa') s a = Some t
  ↔ coreaches dfa s ∧ coreaches dfa t
    ∧ successor (transition_function dfa) s a = Some t.
Proof.
  intros H. apply coreachable_inv in H as (N & HN & ->). simpl.
  destruct (restricted_transition_function_exact dfa N) as [Hex _].
  by rewrite Hex, !(coreachable_loop_exact dfa fuel N HN).
Qed.

Lemma successor_source dfa s a t :
  sources_are_states dfa → successor (transition_function dfa) s a = Some t →
  s ∈ states dfa.
Proof.
  intros Hsrc Hsucc. unfold successor in Hsucc.
  destruct (transition_function dfa !! s) as [row|] eqn:Hrow; [|done]. by eapply Hsrc.
Qed.

Lemma coreaches_run dfa s word t :
  sources_are_states dfa →
  run (transition_function dfa) s word = Some t → t ∈ accepting_states dfa →
  coreaches dfa s.
Proof.
  intros Hsrc. revert s. induction word as [|a w IH]; intros s; simpl.
  - intros [= <-] Ht. by constructor.
  - destruct (successor (transition_function dfa) s a) as [u|] eqn:Hsucc; simpl; [|done].
    intros Hrun Ht. eapply coreaches_step; [|done|by apply IH].
    by eapply successor_source.
Qed.

Lemma coreachable_Ok_run fuel dfa dfa' s word t :
  sources_are_states dfa → coreachable fuel dfa = Some (Ok dfa') →
  t ∈ accepting_states dfa →
  run (transition_function dfa') s word = Some t
  ↔ run (transition_function dfa) s word = Some t.
Proof.
  intros Hsrc H Ht. revert s. induction word as [|a w IH]; intros s; simpl; [done|].
  split.
  - destruct (successor (transition_function dfa') s a) as [u|] eqn:Hsucc; simpl; [|done].
    apply (coreachable_Ok_successor _ _ _ _ _ _ H) in Hsucc as (_ & _ & ->). simpl.
    apply IH.
  - destruct (successor (transition_function dfa) s a) as [u|] eqn:Hsucc; simpl; [|done].
    intros Hrun.
    assert (coreaches dfa u) as Hu by (by eapply coreaches_run).
    assert (successor (transition_function dfa') s a = Some u) as ->.
    { apply (coreachable_Ok_successor _ _ _ _ _ _ H). split; [|done].
      eapply coreaches_step; [|done..]. by eapply successor_source. }
    simpl. by apply IH.
Qed.

Lemma coreachable_Ok_accepts fuel dfa dfa' word :
  sources_are_states dfa →
  (coreaches dfa SNone → coreaches dfa (initial_state dfa)) →
  coreachable fuel dfa = Some (Ok dfa') → accepts dfa' word ↔ accepts dfa word.
Proof.
  intros Hsrc Hinit H. rewrite !accepts_run.
  pose proof H as H'. apply coreachable_inv in H' as (N & HN & Heq).
  assert (alphabet dfa' = alphabet dfa) as -> by (by rewrite Heq).
  assert (accepting_states dfa' = accepting_states dfa) as -> by (by rewrite Heq).
  assert (initial_state dfa'
          = if bool_decide (initial_state dfa ∈ N) then initial_state dfa else SNone)
    as -> by (by rewrite Heq).
  case_bool_decide as Hin.
  - split; intros [Hal (t & Hrun & Ht)]; (split; [done|]); exists t; (split; [|done]).
    + by apply (coreachable_Ok_run fuel dfa dfa' _ _ _ Hsrc H Ht).
    + by apply (coreachable_Ok_run fuel dfa dfa' _ _ _ Hsrc H Ht).
  - rewrite (coreachable_loop_exact dfa fuel N HN) in Hin.
    split; intros [Hal (t & Hrun & Ht)]; exfalso; apply Hin.
    + apply Hinit. apply (coreachable_Ok_run fuel dfa dfa' _ _ _ Hsrc H Ht) in Hrun.
      by eapply coreaches_run.
    + by eapply coreaches_run.
Qed.

Lemma coreaches_states dfa s :
  accepting_states dfa ⊆ states dfa → coreaches dfa s → s ∈ states dfa.
Proof. intros Hacc. destruct 1; [by apply Hacc|done]. Qed.

Lemma well_formed_sources dfa : well_formed dfa → sources_are_states dfa.
Proof. intros (_ & _ & Htf) s row Hs. by destruct (Htf s row Hs). Qed.

Lemma reaches_states dfa s :
  well_formed dfa → initial_state dfa ∈ states dfa → reaches dfa s → s ∈ states dfa.
Proof.
  intros (_ & _ & Htf) Hi. induction 1 as [|s a t _ _ Hsucc]; [done|].
  unfold successor in Hsucc.
  destruct (transition_function dfa !! s) as [row|] eqn:Hrow; [|done].
  destruct (Htf s row Hrow) as [_ Hr]. by destruct (Hr a t Hsucc).
Qed.

(** ** Trimming *)

Lemma trim_inv fuel dfa dfa' :
  trim fuel dfa = Some (Ok dfa') →
  ∃ dfa1, reachable fuel dfa = Some (Ok dfa1) ∧ coreachable fuel dfa1 = Some (Ok dfa').
Proof.
  unfold trim, and_then. destruct (reachable fuel dfa) as [[dfa1|]|]; [|done..]. eauto.
Qed.

Lemma reachable_Ok_sources fuel dfa dfa' :
  reachable fuel dfa = Some (Ok dfa') → sources_are_states dfa'.
Proof.
  intros H. apply reachable_inv in H as (N & HN & ->). intros s row Hs. simpl in *.
  by apply restricted_transition_function_inside in Hs as [? _].
Qed.

Lemma coreaches_reachable fuel dfa dfa' s :
  sources_are_states dfa → reachable fuel dfa = Some (Ok dfa') →
  coreaches dfa' s ↔ reaches dfa s ∧ coreaches dfa s.
Proof.
  intros Hsrc H.
  pose proof (reachable_Ok_states _ _ _ H) as Hst.
  assert (∀ x, x ∈ accepting_states dfa' ↔ reaches dfa x ∧ x ∈ accepting_states dfa)
    as Hacc.
  { intros x. pose proof H as H'. apply reachable_inv in H' as (N & HN & ->). simpl.
    by rewrite elem_of_intersection, (reachable_loop_exact dfa fuel N HN). }
  split.
  - induction 1 as [s Hs|s a t Hs Hsucc _ [_ IH]].
    + apply Hacc in Hs as [? ?]. split; [done|]. by constructor.
    + apply Hst in Hs. split; [done|].
      apply (reachable_Ok_successor _ _ _ _ _ _ H) in Hsucc as [_ Hsucc].
      eapply coreaches_step; [|done..]. by eapply successor_source.
  - intros [Hr Hc]. induction Hc as [s Hs|s a t Hs Hsucc _ IH].
    + constructor. by apply Hacc.
    + eapply coreaches_step.
      * by apply Hst.
      * by apply (reachable_Ok_successor _ _ _ _ _ _ H).
      * apply IH. by eapply reaches_step.
Qed.

Lemma trim_Ok_states fuel dfa dfa' :
  sources_are_states dfa → trim fuel dfa = Some (Ok dfa') →
  ∀ s, s ∈ states dfa' ↔ reaches dfa s ∧ coreaches dfa s.
Proof.
  intros Hsrc H s. apply trim_inv in H as (dfa1 & H1 & H2).
  rewrite (coreachable_Ok_states _ _ _ H2). by apply (coreaches_reachable fuel).
Qed.

Lemma trim_Ok_accepts fuel dfa dfa' word :
  well_formed dfa → SNone ∉ states dfa →
  trim fuel dfa = Some (Ok dfa') → accepts dfa' word ↔ accepts dfa word.
Proof.
  intros Hwf Hnone H. apply trim_inv in H as (dfa1 & H1 & H2).
  rewrite <- (reachable_Ok_accepts _ _ _ word H1).
  apply (coreachable_Ok_accepts fuel); [by eapply reachable_Ok_sources| |done].
  assert (initial_state dfa1 = initial_state dfa) as ->.
  { pose proof H1 as H'. by apply reachable_inv in H' as (N & HN & ->). }
  intros Hc. destruct (proj1 Hwf) as [Hi|Hi]; [by rewrite Hi|].
  exfalso. apply Hnone.
  apply (coreaches_reachable fuel dfa) in Hc as [Hr _];
    [|by apply well_formed_sources|done].
  by apply reaches_states.
Qed.

Lemma coreaches_coreachable fuel dfa dfa' s :
  coreachable fuel dfa = Some (Ok dfa') → coreaches dfa' s ↔ coreaches dfa s.
Proof.
  intros H.
  pose proof (coreachable_Ok_states _ _ _ H) as Hst.
  assert (accepting_states dfa' = accepting_states dfa) as Hacc.
  { pose proof H as H'. by apply coreachable_inv in H' as (N & HN & ->). }
  split.
  - induction 1 as [s Hs|s a t Hs Hsucc _ IH].
    + constructor. by rewrite <- Hacc.
    + by apply Hst.
  - induction 1 as [s Hs|s a t Hs Hsucc Ht IH].
    + constructor. by rewrite Hacc.
    + eapply coreaches_step; [| |done].
      * apply Hst. by eapply coreaches_step.
      * apply (coreachable_Ok_successor _ _ _ _ _ _ H). split; [|done].
        by eapply coreaches_step.
Qed.

Lemma coreachable_Ok_twice fuel fuel' dfa dfa' dfa'' :
  coreachable fuel dfa = Some (Ok dfa') → coreachable fuel' dfa' = Some (Ok dfa'') →
  dfa'' = dfa'.
Proof.
  intros H H'.
  pose proof (coreachable_Ok_states _ _ _ H) as Hs.
  pose proof (coreachable_Ok_states _ _ _ H') as Hs'.
  assert (∀ s a, successor (transition_function dfa'') s a
                 = successor (transition_function dfa') s a) as Hsucc.
  { intros s a. apply option_eq_Some. intros t.
    rewrite (coreachable_Ok_successor _ _ _ _ _ _ H').
    split; [by intros (_ & _ & ?)|]. intros Hsucc.
    rewrite !(coreaches_coreachable _ _ _ _ H).
    pose proof Hsucc as Hsucc'.
    by apply (coreachable_Ok_successor _ _ _ _ _ _ H) in Hsucc' as (? & ? & _). }
  pose proof H as Hinv. apply coreachable_inv in Hinv as (N & HN & HeqN).
  pose proof H' as Hinv'. apply coreachable_inv in Hinv' as (N' & HN' & HeqN').
  assert (N' = N) as HNN.
  { apply set_eq. intros s. rewrite HeqN in Hs. rewrite HeqN' in Hs'. simpl in *.
    rewrite Hs, Hs'. apply (coreaches_coreachable _ _ _ _ H). }
  assert (transition_function dfa'' = transition_function dfa') as Htf.
  { apply table_eq; [| |done].
    - rewrite HeqN'. simpl. apply restricted_transition_function_exact.
    - rewrite HeqN. simpl. apply restricted_transition_function_exact. }
  rewrite HeqN' in Htf |- *. simpl in Htf. rewrite Htf, HNN.
  rewrite HeqN. simpl. f_equal.
  repeat case_bool_decide; done.
Qed.

(** ** Trimming twice *)

Lemma restricted_transition_function_empty dfa (new_states : gset State) :
  new_states = ∅ → restricted_transition_function dfa new_states = ∅.
Proof.
  intros ->. apply map_empty. intros s.
  destruct (restricted_transition_function dfa ∅ !! s) as [row|] eqn:Hrow; [|done].
  apply restricted_transition_function_inside in Hrow as [Hs _]. set_solver.
Qed.

(** A state that is reached, and from which an accepting state is
    reached, is reached in the result of [coreachable]; and then an
    accepting state is reached from the initial state. *)
Lemma reaches_coreachable fuel dfa dfa' s :
  sources_are_states dfa → coreachable fuel dfa = Some (Ok dfa') →
  reaches dfa s → coreaches dfa s →
  reaches dfa' s ∧ coreaches dfa (initial_state dfa).
Proof.
  intros Hsrc H. induction 1 as [|s a t Hs IH Hsucc]; intros Hc.
  - split; [|done].
    pose proof H as H'. apply coreachable_inv in H' as (N & HN & Heq).
    assert (initial_state dfa' = initial_state dfa) as <-; [|constructor].
    rewrite Heq. simpl. rewrite bool_decide_eq_true_2; [done|].
    by apply (coreachable_loop_exact _ _ _ HN).
  - assert (coreaches dfa s) as Hcs.
    { eapply coreaches_step; [|done..]. by eapply successor_source. }
    destruct (IH Hcs) as [Hr Hi]. split; [|done].
    eapply reaches_step; [done|]. by apply (coreachable_Ok_successor _ _ _ _ _ _ H).
Qed.

Lemma coreaches_no_accepting dfa s : accepting_states dfa = ∅ → ¬ coreaches dfa s.
Proof.
  intros Hacc. induction 1 as [s Hs|]; [|done]. rewrite Hacc in Hs. set_solver.
Qed.

Lemma trim_Ok_twice fuel fuel' dfa dfa' dfa'' :
  trim fuel dfa = Some (Ok dfa') → trim fuel' dfa' = Some (Ok dfa'') → dfa'' = dfa'.
Proof.
  intros H H'. apply trim_inv in H as (r1 & H1 & H2).
  apply trim_inv in H' as (r3 & H3 & H4).
  pose proof (reachable_Ok_sources _ _ _ H1) as Hsrc1.
  pose proof (coreachable_Ok_states _ _ _ H2) as Hst2.
  assert (∀ s, s ∈ states dfa' → reaches dfa' s ∧ coreaches r1 (initial_state r1))
    as Hreached.
  { intros s Hs. apply Hst2 in Hs.
    apply (reaches_coreachable fuel r1); [done..| |done].
    apply (reaches_reachable _ _ _ _ H1), (reachable_Ok_states _ _ _ H1).
    apply coreaches_states; [|done].
    pose proof H1 as Hinv. apply reachable_inv in Hinv as (N1 & _ & ->). simpl.
    set_solver. }
  pose proof H2 as Hinv2. apply coreachable_inv in Hinv2 as (N2 & HN2 & Heq2).
  pose proof H3 as Hinv3. apply reachable_inv in Hinv3 as (N3 & HN3 & Heq3).
  destruct (decide (initial_state r1 ∈ N2)) as [Hin|Hout].
  - assert (r3 = dfa') as ->; [|by apply (coreachable_Ok_twice _ _ _ _ _ H2 H4)].
    assert (initial_state dfa' = initial_state r1) as Hi.
    { rewrite Heq2. simpl. by rewrite bool_decide_eq_true_2. }
    assert (N3 = N2) as ->.
    { apply set_eq. intros s. rewrite (reachable_loop_exact _ _ _ HN3). split.
      - induction 1 as [|s a t _ _ Hsucc].
        + by rewrite Hi.
        + apply (coreachable_Ok_successor _ _ _ _ _ _ H2) in Hsucc as (_ & Ht & _).
          by apply (coreachable_loop_exact _ _ _ HN2).
      - intros Hs. apply Hreached. by rewrite Heq2. }
    rewrite Heq3. rewrite Heq2 at 5. f_equal.
    + by rewrite Heq2.
    + by rewrite Heq2.
    + rewrite Heq2. simpl. apply set_eq. intros s. rewrite elem_of_intersection.
      split; [by intros [_ ?]|]. intros Hs. split; [|done].
      apply (coreachable_loop_exact _ _ _ HN2). by constructor.
    + apply table_eq.
      * apply restricted_transition_function_exact.
      * apply restricted_transition_function_exact.
      * intros s a. apply option_eq_Some. intros t.
        destruct (restricted_transition_function_exact dfa' N2) as [-> _].
        assert (transition_function dfa' = restricted_transition_function r1 N2) as <-
          by (by rewrite Heq2).
        split; [by intros (_ & _ & ?)|]. intros Hsucc. split; [|split; [|done]].
        -- apply (coreachable_Ok_successor _ _ _ _ _ _ H2) in Hsucc as (Hs & _ & _).
           by apply (coreachable_loop_exact _ _ _ HN2).
        -- apply (coreachable_Ok_successor _ _ _ _ _ _ H2) in Hsucc as (_ & Ht & _).
           by apply (coreachable_loop_exact _ _ _ HN2).
  - assert (N2 = ∅) as HN2e.
    { apply set_eq. intros s. split; [|set_solver]. intros Hs. exfalso. apply Hout.
      destruct (Hreached s) as [_ Hc]; [by rewrite Heq2|].
      by apply (coreachable_loop_exact _ _ _ HN2). }
    assert (accepting_states r1 = ∅) as HF.
    { apply set_eq. intros s. split; [|set_solver]. intros Hs.
      rewrite <- HN2e. apply (coreachable_loop_exact _ _ _ HN2). by constructor. }
    assert (dfa' = mkDFA (alphabet r1) ∅ SNone ∅ ∅) as Hdfa'.
    { rewrite Heq2, HF, HN2e. rewrite bool_decide_eq_false_2 by set_solver.
      by rewrite restricted_transition_function_empty. }
    pose proof H4 as Hinv4. apply coreachable_inv in Hinv4 as (N4 & HN4 & Heq4).
    assert (accepting_states r3 = ∅) as HF3.
    { rewrite Heq3, Hdfa'. simpl. set_solver. }
    assert (N4 = ∅) as HN4e.
    { apply set_eq. intros s. split; [|set_solver]. intros Hs. exfalso.
      apply (coreachable_loop_exact _ _ _ HN4) in Hs.
      by apply coreaches_no_accepting in Hs. }
    rewrite Heq4, HF3, HN4e. rewrite bool_decide_eq_false_2 by set_solver.
    rewrite restricted_transition_function_empty by done.
    rewrite Hdfa'. f_equal. rewrite Heq3, Hdfa'. done.
Qed.

(** ** Completion and accepted words *)

Lemma complete_inv dfa dfa' :
  complete dfa = Ok dfa' →
  dfa' = mkDFA (alphabet dfa) (states dfa ∪ {[Sink]}) (initial_state dfa)
           (accepting_states dfa)
           (completed_row Sink (symbols (alphabet dfa)) <$> transition_function dfa).
Proof.
  intros Hc. unfold complete, complete_with in Hc. rewrite complete_loops in Hc.
  by apply DFA_init_inv in Hc as [-> _].
Qed.

Lemma complete_successor dfa dfa' s a :
  complete dfa = Ok dfa' →
  successor (transition_function dfa') s a
  = match transition_function dfa !! s with
    | None => None
    | Some sym2state =>
        match sym2state !! a with
        | Some t => Some t
        | None => if decide (a ∈ symbols (alphabet dfa)) then Some Sink else None
        end
    end.
Proof.
  intros Hc. apply complete_inv in Hc as ->. unfold successor. simpl.
  rewrite lookup_fmap. destruct (transition_function dfa !! s) as [row|]; simpl; [|done].
  apply lookup_completed_row.
Qed.

Lemma complete_run dfa dfa' s word t :
  complete dfa = Ok dfa' → transition_function dfa !! Sink = None → t ≠ Sink →
  run (transition_function dfa') s word = Some t
  ↔ run (transition_function dfa) s word = Some t.
Proof.
  intros Hc Hsink Ht. revert s. induction word as [|a w IH]; intros s; simpl; [done|].
  rewrite (complete_successor _ _ _ _ Hc). unfold successor.
  destruct (transition_function dfa !! s) as [row|] eqn:Hrow; simpl; [|done].
  destruct (row !! a) as [u|] eqn:Ha; simpl; [apply IH|].
  split; [|done]. case_decide; [|done]. simpl. destruct w as [|b w]; simpl.
  - intros [= <-]. done.
  - rewrite (complete_successor _ _ _ _ Hc), Hsink. done.
Qed.

Lemma complete_accepts dfa dfa' word :
  complete dfa = Ok dfa' → transition_function dfa !! Sink = None →
  Sink ∉ accepting_states dfa → accepts dfa' word ↔ accepts dfa word.
Proof.
  intros Hc Hsink Hacc. rewrite !accepts_run.
  assert (alphabet dfa' = alphabet dfa ∧ initial_state dfa' = initial_state dfa
          ∧ accepting_states dfa' = accepting_states dfa) as (-> & -> & ->).
  { pose proof Hc as H'. by apply complete_inv in H' as ->. }
  split; intros [Hal (t & Hrun & Ht)]; (split; [done|]); exists t; (split; [|done]).
  - apply (complete_run _ _ _ _ _ Hc Hsink) in Hrun; [done|]. by intros ->.
  - apply (complete_run _ _ _ _ _ Hc Hsink); [by intros ->|done].
Qed.

Lemma complete_well_formed dfa dfa' :
  well_formed dfa → complete dfa = Ok dfa' → well_formed dfa'.
Proof.
  intros Hwf Hc. pose proof (complete_rows_total _ _ Hwf Hc) as Htotal.
  apply complete_inv in Hc as Heq. destruct Hwf as (Hi & Ha & Htf).
  split; [|split].
  - rewrite Heq. simpl. destruct Hi; [by left|right; set_solver].
  - rewrite Heq. simpl. set_solver.
  - intros s row Hs. destruct (Htotal s row Hs) as (Hin & _ & Ht). split; [done|].
    intros a t Hat. split; [|by apply (Ht a)].
    rewrite Heq in Hs. simpl in Hs. rewrite lookup_fmap in Hs.
    destruct (transition_function dfa !! s) as [row0|] eqn:Hs0; simpl in Hs; [|done].
    injection Hs as <-. rewrite lookup_completed_row in Hat.
    destruct (row0 !! a) as [y|] eqn:Hy.
    + destruct (Htf s row0 Hs0) as [_ Hr]. rewrite Heq. simpl. by destruct (Hr a y Hy).
    + case_decide; [|done]. by rewrite Heq.
Qed.

(** ** The states of the minimized automaton *)


Lemma minimize_with_inv enumerate_set fuel dfa dfa' :
  minimize_with enumerate_set fuel dfa = Some (Ok dfa') →
  ∃ completed z,
    complete dfa = Ok completed
    ∧ minimize_loop fuel completed ∅ (same_acceptance_pairs completed) = Some (Ok z)
    ∧ quotient completed (state2equiv_class_of z)
        (enumerate_set (equivalence_classes_of (state2equiv_class_of z))) = Ok dfa'.
Proof.
  unfold minimize_with, and_then. destruct (complete dfa) as [completed|]; [|done].
  destruct (minimize_loop fuel completed ∅ _) as [[z|]|] eqn:Hloop; [|done..].
  intros [= H]. eauto.
Qed.




(** ** [minimize] and the empty word *)

(** Related states agree on acceptance from the start (lines 55-59). *)
Lemma same_acceptance_pairs_agree dfa s t :
  (s, t) ∈ same_acceptance_pairs dfa →
  s ∈ accepting_states dfa ↔ t ∈ accepting_states dfa.
Proof.
  unfold same_acceptance_pairs.
  pose (agree := λ acc : gset (State * State),
          ∀ s t, (s, t) ∈ acc → s ∈ accepting_states dfa ↔ t ∈ accepting_states dfa).
  cut (∀ Y : gset State,
         agree (set_fold
           (λ state_s (z_next : gset (State * State)),
              set_fold
                (λ state_t (z_next : gset (State * State)),
                   if bool_decide (state_s ∈ accepting_states dfa)
                      && bool_decide (state_t ∈ accepting_states dfa)
                      || negb (bool_decide (state_s ∈ accepting_states dfa))
                         && negb (bool_decide (state_t ∈ accepting_states dfa))
                   then z_next ∪ {[(state_s, state_t)]}
                   else z_next)
                z_next (states dfa))
           ∅ Y)).
  { intros Hcut. apply (Hcut (states dfa)). }
  apply (set_fold_ind_L (λ (acc : gset (State * State)) (Y : gset State), agree acc)).
  - intros ? ?. set_solver.
  - intros x Y acc Hx IH.
    apply (set_fold_ind_L
             (λ (acc' : gset (State * State)) (Y' : gset State), agree acc')); [done|].
    intros y Y' acc' Hy IH'.
    destruct (_ || _) eqn:Htest; [|done].
    intros s' t' Hin. apply elem_of_union in Hin as [Hin|Hin]; [by apply IH'|].
    apply elem_of_singleton in Hin. injection Hin as -> ->.
    apply orb_true_iff in Htest as [Htest|Htest];
      apply andb_true_iff in Htest as [H1 H2].
    + apply bool_decide_eq_true in H1, H2. done.
    + apply negb_true_iff, bool_decide_eq_false in H1.
      apply negb_true_iff, bool_decide_eq_false in H2. done.
Qed.

(** The class of a state holds the states related to it. *)
Lemma elem_of_state2equiv_class_of (z : gset (State * State)) s t :
  (s, t) ∈ z ↔ ∃ X, state2equiv_class_of z !! s = Some X ∧ t ∈ X.
Proof.
  unfold state2equiv_class_of. revert s t.
  cut (∀ (Y : gset (State * State)) s t,
         (s, t) ∈ Y
         ↔ ∃ X, set_fold
                  (λ '(s, t) (state2equiv_class : gmap State (gset State)),
                     <[s := default ∅ (state2equiv_class !! s) ∪ {[t]}]>
                       state2equiv_class)
                  ∅ Y !! s = Some X ∧ t ∈ X).
  { intros Hcut. apply Hcut. }
  apply (set_fold_ind_L
           (λ (m : gmap State (gset State)) (Y : gset (State * State)),
              ∀ s t, (s, t) ∈ Y ↔ ∃ X, m !! s = Some X ∧ t ∈ X)).
  - intros s t. split; [set_solver|]. intros (X & HX & _). by rewrite lookup_empty in HX.
  - intros [s' t'] Y m Hp IH s t. rewrite elem_of_union, elem_of_singleton.
    destruct (decide (s' = s)) as [->|Hne].
    + rewrite lookup_insert_eq. split.
      * intros [Heq|Hin]; eexists; (split; [done|]).
        -- injection Heq as ->. set_solver.
        -- apply IH in Hin as (X & -> & Ht). simpl. set_solver.
      * intros (X & HX & Ht). injection HX as <-. apply elem_of_union in Ht as [Ht|Ht].
        -- right. apply IH. destruct (m !! s) as [X|]; simpl in Ht; [eauto|set_solver].
        -- left. apply elem_of_singleton in Ht. by subst.
    + rewrite lookup_insert_ne by done. rewrite <- IH. split; [|by right].
      intros [Heq|?]; [|done]. injection Heq as -> ->. done.
Qed.

(** Two classes with the same number are the same class. *)
Lemma equiv_class2new_state_of_inj (order : list (gset State)) X Y v :
  NoDup order →
  equiv_class2new_state_of order !! X = Some v →
  equiv_class2new_state_of order !! Y = Some v → X = Y.
Proof.
  intros Hnd. unfold equiv_class2new_state_of.
  assert (NoDup (imap (λ (i : nat) (ec : gset State), (ec, SInt (Z.of_nat i))) order).*1)
    as Hnd'.
  { rewrite fmap_imap. replace (imap _ order) with (id <$> order).
    - by rewrite list_fmap_id.
    - rewrite <- imap_const. by apply imap_ext. }
  rewrite <- !(elem_of_list_to_map _ _ _ Hnd').
  intros HX HY.
  apply elem_of_lookup_imap_1 in HX as (i & ec & [= -> ->] & Hi).
  apply elem_of_lookup_imap_1 in HY as (j & ec' & [= -> Hij] & Hj).
  apply Nat2Z.inj in Hij as <-. congruence.
Qed.

Lemma for_each_union {A} (g : A → result State) (l : list A) (acc F : gset State) :
  for_each l acc (λ old_state new_final_states,
                    s ← g old_state; Ok (new_final_states ∪ {[s]})) = Ok F →
  ∀ x, x ∈ F ↔ x ∈ acc ∨ ∃ f, f ∈ l ∧ g f = Ok x.
Proof.
  revert acc. induction l as [|y l IH]; intros acc; simpl.
  - intros [= <-] x. split; [by left|]. intros [?|(f & Hf & _)]; [done|]. by inversion Hf.
  - destruct (g y) as [v|] eqn:Hy; simpl; [|done]. intros H x.
    rewrite (IH _ H), elem_of_union, elem_of_singleton. split.
    + intros [[?| ->]|(f & Hf & Hg)]; [by left| |].
      * right. exists y. split; [left|done].
      * right. exists f. split; [by right|done].
    + intros [?|(f & Hf & Hg)]; [by left; left|].
      apply elem_of_cons in Hf as [->|Hf].
      * left. right. congruence.
      * right. eauto.
Qed.

(** The initial state and the accepting states of the quotient *)
Lemma quotient_Ok_accepting dfa state2equiv_class order dfa' :
  quotient dfa state2equiv_class order = Ok dfa' →
  new_state_of state2equiv_class (equiv_class2new_state_of order) (initial_state dfa)
  = Ok (initial_state dfa')
  ∧ ∀ x, x ∈ accepting_states dfa'
         ↔ ∃ f, f ∈ accepting_states dfa
                ∧ new_state_of state2equiv_class (equiv_class2new_state_of order) f = Ok x.
Proof.
  unfold quotient.
  destruct (for_each (map_to_list (transition_function dfa)) _ _) as [ntf|];
    simpl; [|intros ?; discriminate].
  destruct (for_each (elements (accepting_states dfa)) _ _) as [nf|] eqn:Hnf;
    simpl; [|intros ?; discriminate].
  destruct (new_state_of _ _ (initial_state dfa)) as [i|]; simpl; [|intros ?; discriminate].
  intros H. apply DFA_init_inv in H as [-> _]. simpl. split; [done|].
  intros x. rewrite (for_each_union _ _ _ _ Hnf x). split.
  - intros [?|(f & Hf & Hg)]; [set_solver|]. apply elem_of_elements in Hf. eauto.
  - intros (f & Hf & Hg). right. exists f. by rewrite elem_of_elements.
Qed.

(** The loop of [minimize] keeps every state related to itself. *)
Lemma minimize_loop_reflexive (fuel : nat) (dfa : DFA) (c n z : gset (State * State)) :
  rows_total dfa → reflexive_on (states dfa) n →
  minimize_loop fuel dfa c n = Some (Ok z) → reflexive_on (states dfa) z.
Proof.
  intros Htotal. revert c n. induction fuel as [|fuel IH]; intros c n Hn; simpl.
  - case_bool_decide; [|done]. intros [= <-]. by subst.
  - case_bool_decide; [intros [= <-]; by subst|].
    destruct (minimize_body_returns dfa Htotal n) as (n' & -> & Hn').
    apply IH. by apply Hn'.
Qed.

Lemma minimize_with_Ok_empty_word enumerate_set fuel dfa dfa' :
  (∀ X, enumerate_set X ≡ₚ elements X) → well_formed dfa →
  minimize_with enumerate_set fuel dfa = Some (Ok dfa') →
  initial_state dfa' ∈ accepting_states dfa' ↔ initial_state dfa ∈ accepting_states dfa.
Proof.
  intros Henum Hwf H. apply minimize_with_inv in H as (c & z & Hc & Hloop & Hq).
  pose proof (complete_rows_total _ _ Hwf Hc) as Htotal.
  pose proof (minimize_loop_reflexive _ _ _ _ _ Htotal
                (same_acceptance_pairs_reflexive c) Hloop) as Hrefl.
  apply minimize_loop_subseteq in Hloop.
  apply quotient_Ok_accepting in Hq as [Hi Hacc].
  pose proof (complete_inv _ _ Hc) as Heq.
  assert (initial_state c = initial_state dfa) as Hic by (by rewrite Heq).
  assert (accepting_states c = accepting_states dfa) as Hfc by (by rewrite Heq).
  rewrite <- Hic, <- Hfc. rewrite Hacc. split.
  - intros (f & Hf & Hg). unfold new_state_of, getitem in Hi, Hg.
    destruct (state2equiv_class_of z !! initial_state c) as [Xi|] eqn:HXi; [|done].
    destruct (state2equiv_class_of z !! f) as [Xf|] eqn:HXf; [|done].
    simpl in Hi, Hg.
    destruct (equiv_class2new_state_of _ !! Xi) as [vi|] eqn:Hvi; [|done].
    destruct (equiv_class2new_state_of _ !! Xf) as [vf|] eqn:Hvf; [|done].
    injection Hi as Hi. injection Hg as Hg. subst vi vf.
    assert (Xf = Xi) as ->.
    { eapply equiv_class2new_state_of_inj; [|done..]. rewrite Henum. apply NoDup_elements. }
    assert (f ∈ states c) as Hfs.
    { rewrite Heq. simpl. destruct Hwf as (_ & Ha & _). rewrite Hfc in Hf. set_solver. }
    assert ((initial_state c, f) ∈ z) as Hpair.
    { apply elem_of_state2equiv_class_of. exists Xi. split; [done|].
      destruct (proj1 (elem_of_state2equiv_class_of z f f) (Hrefl f Hfs))
        as (X & HX & HfX).
      congruence. }
    apply Hloop in Hpair. apply elem_of_union in Hpair as [Hpair|Hpair]; [set_solver|].
    by apply same_acceptance_pairs_agree in Hpair as ->.
  - intros Hin. eauto.
Qed.

(** ** Errors of [word_acceptance] *)

Lemma word_acceptance_from_KeyError dfa s word :
  word_acceptance_from dfa s word = Raise KeyError
  ↔ ∃ w1 char w2 t,
      word = w1 ++ char :: w2
      ∧ run (transition_function dfa) s w1 = Some t
      ∧ transition_function dfa !! t = None.
Proof.
  revert s. induction word as [|a w IH]; intros s.
  - split; [done|]. intros (w1 & c & w2 & t & Heq & _). by destruct w1.
  - simpl. unfold getitem.
    destruct (transition_function dfa !! s) as [row|] eqn:Hrow; simpl.
    + destruct (row !! a) as [u|] eqn:Ha.
      * rewrite IH. split.
        -- intros (w1 & c & w2 & t & -> & Hrun & Ht).
           exists (a :: w1), c, w2, t. split; [done|]. split; [|done].
           simpl. unfold successor. rewrite Hrow. simpl. by rewrite Ha.
        -- intros (w1 & c & w2 & t & Heq & Hrun & Ht). destruct w1 as [|a' w1].
           ++ simpl in *. injection Hrun as <-. congruence.
           ++ simpl in *. injection Heq as <- ->. unfold successor in Hrun.
              rewrite Hrow in Hrun. simpl in Hrun. rewrite Ha in Hrun. simpl in Hrun.
              eauto 10.
      * split; [done|]. intros (w1 & c & w2 & t & Heq & Hrun & Ht).
        destruct w1 as [|a' w1]; simpl in *.
        -- injection Hrun as <-. congruence.
        -- injection Heq as <- ->. unfold successor in Hrun.
           rewrite Hrow in Hrun. simpl in Hrun. by rewrite Ha in Hrun.
    + split; [intros _|done]. exists [], a, w, s. done.
Qed.

Lemma word_acceptance_from_app dfa s w1 w2 t :
  run (transition_function dfa) s w1 = Some t →
  word_acceptance_from dfa s (w1 ++ w2) = word_acceptance_from dfa t w2.
Proof.
  revert s. induction w1 as [|a w1 IH]; intros s; simpl.
  - by intros [= <-].
  - unfold successor, getitem.
    destruct (transition_function dfa !! s) as [row|]; simpl; [|done].
    destruct (row !! a) as [u|]; simpl; [apply IH|done].
Qed.

Lemma word_acceptance_from_ext dfa1 dfa2 s word :
  accepting_states dfa1 = accepting_states dfa2 →
  transition_function dfa1 = transition_function dfa2 →
  word_acceptance_from dfa1 s word = word_acceptance_from dfa2 s word.
Proof.
  intros Hacc Htf. revert s. induction word as [|c w IH]; intros s; simpl.
  - by rewrite Hacc.
  - rewrite Htf. destruct (getitem (transition_function dfa2) s) as [row|]; simpl; [|done].
    destruct (row !! c); [apply IH|done].
Qed.

Lemma forallb_bool_decide {A : Type} (P : A → Prop) `{∀ x, Decision (P x)}
    (l : list A) :
  forallb (λ x, bool_decide (P x)) l = true ↔ ∀ x, x ∈ l → P x.
Proof.
  rewrite forallb_forall. split.
  - intros Hall c Hc. apply list_elem_of_In in Hc. by apply Hall, bool_decide_eq_true in Hc.
  - intros Hall c Hc. apply list_elem_of_In in Hc. by apply bool_decide_eq_true, Hall.
Qed.

(** ** Well-formed results *)

Lemma reachable_well_formed fuel dfa dfa' :
  well_formed dfa → reachable fuel dfa = Some (Ok dfa') → well_formed dfa'.
Proof.
  intros (_ & _ & Htf) H.
  pose proof H as H'. apply reachable_inv in H' as (N & HN & Heq).
  split; [|split].
  - right. apply (reachable_Ok_states _ _ _ H). rewrite Heq. simpl. constructor.
  - rewrite Heq. simpl. set_solver.
  - intros s row Hrow. destruct (reachable_Ok_row _ _ _ _ _ H Hrow) as [Hs Hrow0].
    split; [by apply (reachable_Ok_states _ _ _ H)|]. intros a t Ha.
    destruct (Htf s row Hrow0) as [_ Hr]. destruct (Hr a t Ha) as [Hsym _].
    split; [by rewrite Heq|]. apply (reachable_Ok_states _ _ _ H).
    eapply reaches_step; [done|]. unfold successor. by rewrite Hrow0.
Qed.

Lemma coreachable_well_formed fuel dfa dfa' :
  well_formed dfa → coreachable fuel dfa = Some (Ok dfa') → well_formed dfa'.
Proof.
  intros (_ & _ & Htf) H.
  pose proof H as H'. apply coreachable_inv in H' as (N & HN & Heq).
  split; [|split].
  - rewrite Heq. simpl. case_bool_decide; [by right|by left].
  - intros s Hs. apply (coreachable_Ok_states _ _ _ H). constructor.
    by rewrite Heq in Hs.
  - intros s row Hrow.
    assert (s ∈ N ∧ ∀ a t, row !! a = Some t → t ∈ N) as [HsN Hr].
    { rewrite Heq in Hrow. simpl in Hrow.
      by apply restricted_transition_function_inside in Hrow. }
    split; [by rewrite Heq|]. intros a t Ha. split; [|rewrite Heq; by apply (Hr a)].
    assert (successor (transition_function dfa') s a = Some t) as Hsucc.
    { unfold successor. by rewrite Hrow. }
    apply (coreachable_Ok_successor _ _ _ _ _ _ H) in Hsucc as (_ & _ & Hsucc).
    unfold successor in Hsucc.
    destruct (transition_function dfa !! s) as [row0|] eqn:Hrow0; [|done].
    destruct (Htf s row0 Hrow0) as [_ Hr0]. destruct (Hr0 a t Hsucc) as [Hsym _].
    by rewrite Heq.
Qed.

(** ** [_check_same_type] *)

Lemma forallb_class_eq_values c (l : list PyObject) :
  (∀ o, o ∈ l → is_value o) →
  forallb (λ symbol, class_eq c symbol) l = bool_decide (l = []).
Proof.
  destruct l as [|o l]; [done|]. intros Hval. simpl.
  assert (is_value o) as Ho by (apply Hval; left). by destruct o.
Qed.

(** * Further properties of the transformations *)

(** ** [reachable] *)

(** X1: [reachable] returns on every automaton, whatever its fields are,
    without raising, and the states of the result are the states that a
    path of transitions reaches from the initial state, and no other. *)
Theorem reachable_states_are_the_reached_states (dfa : DFA) :
  ∃ dfa',
    (∀ fuel, reachable_rounds dfa ≤ fuel → reachable fuel dfa = Some (Ok dfa'))
    ∧ ∀ s, s ∈ states dfa' ↔ reaches dfa s.
Proof.
  destruct (reachable_returns dfa) as [dfa' Hr]. exists dfa'. split; [done|].
  apply (reachable_Ok_states (reachable_rounds dfa)). by apply Hr.
Qed.

(** X2: the table [reachable] returns has the transitions of its argument
    that leave a reached state, and no other; and it has no empty row: a
    state without outgoing transition has no row in the result, whether it
    had an empty row or none. *)
Theorem reachable_keeps_the_transitions_of_reached_states (dfa : DFA) :
  ∃ dfa',
    (∀ fuel, reachable_rounds dfa ≤ fuel → reachable fuel dfa = Some (Ok dfa'))
    ∧ (∀ s a t,
         successor (transition_function dfa') s a = Some t
         ↔ reaches dfa s ∧ successor (transition_function dfa) s a = Some t)
    ∧ no_empty_row (transition_function dfa').
Proof.
  destruct (reachable_returns dfa) as [dfa' Hr]. exists dfa'. split; [done|].
  pose proof (Hr _ (le_n _)) as H. split.
  - intros s a t. by apply (reachable_Ok_successor (reachable_rounds dfa)).
  - apply reachable_inv in H as (N & _ & ->). simpl.
    apply restricted_transition_function_exact.
Qed.

(** X3: [reachable] keeps the accepted words: [word_acceptance] returns
    [True] on the result for the words on which it returns [True] on the
    argument; and when it returns a boolean on the result, it returns that
    boolean on the argument. *)
Theorem reachable_preserves_accepted_words (dfa : DFA) :
  ∃ dfa',
    (∀ fuel, reachable_rounds dfa ≤ fuel → reachable fuel dfa = Some (Ok dfa'))
    ∧ ∀ word,
        (word_acceptance dfa' word = Ok true ↔ word_acceptance dfa word = Ok true)
        ∧ ∀ b, word_acceptance dfa' word = Ok b → word_acceptance dfa word = Ok b.
Proof.
  destruct (reachable_returns dfa) as [dfa' Hr]. exists dfa'. split; [done|].
  pose proof (Hr _ (le_n _)) as H. intros word. split.
  - apply (reachable_Ok_accepts _ _ _ word H).
  - intros b. unfold word_acceptance.
    pose proof H as H'. apply reachable_inv in H' as (N & _ & Heq).
    assert (alphabet dfa' = alphabet dfa) as -> by (by rewrite Heq).
    assert (initial_state dfa' = initial_state dfa) as -> by (by rewrite Heq).
    destruct (forallb _ word); [|done].
    apply (reachable_Ok_word_acceptance_from _ _ _ _ _ _ H). constructor.
Qed.

(** X4: [reachable] is idempotent: called on its own result it returns
    that result. *)
Theorem reachable_idempotent (dfa : DFA) :
  ∃ dfa',
    (∀ fuel, reachable_rounds dfa ≤ fuel → reachable fuel dfa = Some (Ok dfa'))
    ∧ ∀ fuel, reachable_rounds dfa' ≤ fuel → reachable fuel dfa' = Some (Ok dfa').
Proof.
  destruct (reachable_returns dfa) as [dfa' Hr]. exists dfa'. split; [done|].
  pose proof (Hr _ (le_n _)) as H.
  destruct (reachable_returns dfa') as [dfa'' Hr']. intros fuel Hfuel.
  rewrite (Hr' fuel Hfuel). do 2 f_equal.
  by apply (reachable_Ok_twice _ _ _ _ _ H (Hr' fuel Hfuel)).
Qed.

(** ** [coreachable] *)

(** X5: [coreachable] returns on every automaton, without raising; the
    states of the result are the states from which a path of transitions
    through states of the automaton leads to an accepting state, and no
    other; the initial state is kept when it is one of them and is [None]
    otherwise. *)
Theorem coreachable_states_are_the_coreaching_states (dfa : DFA) :
  ∃ dfa',
    (∀ fuel, coreachable_rounds dfa ≤ fuel → coreachable fuel dfa = Some (Ok dfa'))
    ∧ (∀ s, s ∈ states dfa' ↔ coreaches dfa s)
    ∧ (coreaches dfa (initial_state dfa) → initial_state dfa' = initial_state dfa)
    ∧ (¬ coreaches dfa (initial_state dfa) → initial_state dfa' = SNone).
Proof.
  destruct (coreachable_returns dfa) as [dfa' Hr]. exists dfa'. split; [done|].
  pose proof (Hr _ (le_n _)) as H.
  split; [apply (coreachable_Ok_states _ _ _ H)|].
  apply coreachable_inv in H as (N & HN & ->). simpl.
  rewrite <- (coreachable_loop_exact _ _ _ HN).
  split; intros Hi; case_bool_decide; done.
Qed.

(** X6: the table [coreachable] returns has the transitions of its
    argument between two states from which an accepting state is reached,
    and no other; and it has no empty row. *)
Theorem coreachable_keeps_the_transitions_of_coreaching_states (dfa : DFA) :
  ∃ dfa',
    (∀ fuel, coreachable_rounds dfa ≤ fuel → coreachable fuel dfa = Some (Ok dfa'))
    ∧ (∀ s a t,
         successor (transition_function dfa') s a = Some t
         ↔ coreaches dfa s ∧ coreaches dfa t
           ∧ successor (transition_function dfa) s a = Some t)
    ∧ no_empty_row (transition_function dfa').
Proof.
  destruct (coreachable_returns dfa) as [dfa' Hr]. exists dfa'. split; [done|].
  pose proof (Hr _ (le_n _)) as H. split.
  - intros s a t. by apply (coreachable_Ok_successor (coreachable_rounds dfa)).
  - apply coreachable_inv in H as (N & _ & ->). simpl.
    apply restricted_transition_function_exact.
Qed.

(** X7: on a well-formed automaton that does not use [None] as the name
    of a state, [coreachable] keeps the accepted words. *)
Theorem coreachable_preserves_accepted_words (dfa : DFA) :
  well_formed dfa → SNone ∉ states dfa →
  ∃ dfa',
    (∀ fuel, coreachable_rounds dfa ≤ fuel → coreachable fuel dfa = Some (Ok dfa'))
    ∧ ∀ word, word_acceptance dfa' word = Ok true ↔ word_acceptance dfa word = Ok true.
Proof.
  intros Hwf Hnone.
  destruct (coreachable_returns dfa) as [dfa' Hr]. exists dfa'. split; [done|].
  pose proof (Hr _ (le_n _)) as H. intros word.
  apply (coreachable_Ok_accepts (coreachable_rounds dfa) dfa dfa' word
           (well_formed_sources _ Hwf)); [|done].
  intros Hc. exfalso. apply Hnone. apply coreaches_states; [|done]. apply Hwf.
Qed.

Lemma coreachable_preserves_accepted_words_witness :
  well_formed ex_dfa ∧ (SNone ∉ states ex_dfa)
  ∧ ∃ dfa',
      (∀ fuel, coreachable_rounds ex_dfa ≤ fuel
               → coreachable fuel ex_dfa = Some (Ok dfa'))
      ∧ ∀ word, word_acceptance dfa' word = Ok true
                ↔ word_acceptance ex_dfa word = Ok true.
Proof.
  assert (well_formed ex_dfa) as Hwf by compute_done.
  assert (SNone ∉ states ex_dfa) as Hnone by compute_done.
  split; [done|]. split; [done|].
  exact (coreachable_preserves_accepted_words ex_dfa Hwf Hnone).
Defined.

(** X8: [coreachable] is idempotent: called on its own result it returns
    that result. *)
Theorem coreachable_idempotent (dfa : DFA) :
  ∃ dfa',
    (∀ fuel, coreachable_rounds dfa ≤ fuel → coreachable fuel dfa = Some (Ok dfa'))
    ∧ ∀ fuel, coreachable_rounds dfa' ≤ fuel → coreachable fuel dfa' = Some (Ok dfa').
Proof.
  destruct (coreachable_returns dfa) as [dfa' Hr]. exists dfa'. split; [done|].
  pose proof (Hr _ (le_n _)) as H.
  destruct (coreachable_returns dfa') as [dfa'' Hr']. intros fuel Hfuel.
  rewrite (Hr' fuel Hfuel). do 2 f_equal.
  by apply (coreachable_Ok_twice _ _ _ _ _ H (Hr' fuel Hfuel)).
Qed.

(** ** [trim] *)

(** X9: on a well-formed automaton [trim] returns an automaton whose
    states are the states that are reached from the initial state and from
    which an accepting state is reached, and no other. *)
Theorem trim_states_are_the_useful_states (dfa : DFA) :
  well_formed dfa →
  ∃ n dfa',
    (∀ fuel, n ≤ fuel → trim fuel dfa = Some (Ok dfa'))
    ∧ ∀ s, s ∈ states dfa' ↔ reaches dfa s ∧ coreaches dfa s.
Proof.
  intros Hwf. destruct (trim_returns dfa) as (n & dfa' & Hr). exists n, dfa'.
  split; [done|]. apply (trim_Ok_states n); [by apply well_formed_sources|].
  by apply Hr.
Qed.

Lemma trim_states_are_the_useful_states_witness :
  well_formed ex_dfa
  ∧ ∃ n dfa',
      (∀ fuel, n ≤ fuel → trim fuel ex_dfa = Some (Ok dfa'))
      ∧ ∀ s, s ∈ states dfa' ↔ reaches ex_dfa s ∧ coreaches ex_dfa s.
Proof.
  assert (well_formed ex_dfa) as Hwf by compute_done.
  split; [done|]. exact (trim_states_are_the_useful_states ex_dfa Hwf).
Defined.

(** X10: on a well-formed automaton that does not use [None] as the name
    of a state, [trim] keeps the accepted words; the automaton may have no
    initial state. *)
Theorem trim_preserves_accepted_words (dfa : DFA) :
  well_formed dfa → SNone ∉ states dfa →
  ∃ n dfa',
    (∀ fuel, n ≤ fuel → trim fuel dfa = Some (Ok dfa'))
    ∧ ∀ word, word_acceptance dfa' word = Ok true ↔ word_acceptance dfa word = Ok true.
Proof.
  intros Hwf Hnone. destruct (trim_returns dfa) as (n & dfa' & Hr). exists n, dfa'.
  split; [done|]. intros word. apply (trim_Ok_accepts n); [done..|]. by apply Hr.
Qed.

Lemma trim_preserves_accepted_words_witness :
  well_formed ex_dfa_no_initial ∧ (SNone ∉ states ex_dfa_no_initial)
  ∧ ∃ n dfa',
      (∀ fuel, n ≤ fuel → trim fuel ex_dfa_no_initial = Some (Ok dfa'))
      ∧ ∀ word, word_acceptance dfa' word = Ok true
                ↔ word_acceptance ex_dfa_no_initial word = Ok true.
Proof.
  assert (well_formed ex_dfa_no_initial) as Hwf by compute_done.
  assert (SNone ∉ states ex_dfa_no_initial) as Hnone by compute_done.
  split; [done|]. split; [done|].
  exact (trim_preserves_accepted_words ex_dfa_no_initial Hwf Hnone).
Defined.

(** ** [complete] *)

(** X11: on a well-formed automaton that does not use the sink as the name
    of a state, [complete] returns an automaton that accepts the same
    words. *)
Theorem complete_preserves_accepted_words (dfa : DFA) :
  well_formed dfa → Sink ∉ states dfa →
  ∃ dfa',
    complete dfa = Ok dfa'
    ∧ ∀ word, word_acceptance dfa' word = Ok true ↔ word_acceptance dfa word = Ok true.
Proof.
  intros Hwf Hsink. destruct (complete_returns dfa Hwf) as [dfa' Hc]. exists dfa'.
  split; [done|]. intros word. apply (complete_accepts _ _ word Hc).
  - destruct (transition_function dfa !! Sink) as [row|] eqn:Hrow; [|done].
    exfalso. apply Hsink. by apply (well_formed_sources _ Hwf Sink row).
  - intros Hacc. apply Hsink. by apply Hwf.
Qed.

Lemma complete_preserves_accepted_words_witness :
  well_formed ex_dfa ∧ (Sink ∉ states ex_dfa)
  ∧ ∃ dfa',
      complete ex_dfa = Ok dfa'
      ∧ ∀ word, word_acceptance dfa' word = Ok true
                ↔ word_acceptance ex_dfa word = Ok true.
Proof.
  assert (well_formed ex_dfa) as Hwf by compute_done.
  assert (Sink ∉ states ex_dfa) as Hsink by compute_done.
  split; [done|]. split; [done|].
  exact (complete_preserves_accepted_words ex_dfa Hwf Hsink).
Defined.

(** ** Well-formed results *)

(** X12: [complete], [reachable], [coreachable] and [trim] return a
    well-formed automaton on every well-formed automaton. *)
Theorem transformations_preserve_well_formedness (dfa : DFA) :
  well_formed dfa →
  (∃ dfa', complete dfa = Ok dfa' ∧ well_formed dfa')
  ∧ (∃ dfa', (∀ fuel, reachable_rounds dfa ≤ fuel
                      → reachable fuel dfa = Some (Ok dfa'))
             ∧ well_formed dfa')
  ∧ (∃ dfa', (∀ fuel, coreachable_rounds dfa ≤ fuel
                      → coreachable fuel dfa = Some (Ok dfa'))
             ∧ well_formed dfa')
  ∧ (∃ n dfa', (∀ fuel, n ≤ fuel → trim fuel dfa = Some (Ok dfa'))
               ∧ well_formed dfa').
Proof.
  intros Hwf. split; [|split; [|split]].
  - destruct (complete_returns dfa Hwf) as [dfa' Hc]. exists dfa'.
    split; [done|]. by apply (complete_well_formed dfa).
  - destruct (reachable_returns dfa) as [dfa' Hr]. exists dfa'. split; [done|].
    apply (reachable_well_formed (reachable_rounds dfa) dfa); [done|]. by apply Hr.
  - destruct (coreachable_returns dfa) as [dfa' Hr]. exists dfa'. split; [done|].
    apply (coreachable_well_formed (coreachable_rounds dfa) dfa); [done|]. by apply Hr.
  - destruct (trim_returns dfa) as (n & dfa' & Hr). exists n, dfa'. split; [done|].
    pose proof (Hr n (le_n _)) as H. apply trim_inv in H as (dfa1 & H1 & H2).
    apply (coreachable_well_formed n dfa1); [|done].
    by apply (reachable_well_formed n dfa).
Qed.

Lemma transformations_preserve_well_formedness_witness :
  well_formed ex_dfa
  ∧ (∃ dfa', complete ex_dfa = Ok dfa' ∧ well_formed dfa')
  ∧ (∃ dfa', (∀ fuel, reachable_rounds ex_dfa ≤ fuel
                      → reachable fuel ex_dfa = Some (Ok dfa'))
             ∧ well_formed dfa')
  ∧ (∃ dfa', (∀ fuel, coreachable_rounds ex_dfa ≤ fuel
                      → coreachable fuel ex_dfa = Some (Ok dfa'))
             ∧ well_formed dfa')
  ∧ (∃ n dfa', (∀ fuel, n ≤ fuel → trim fuel ex_dfa = Some (Ok dfa'))
               ∧ well_formed dfa').
Proof.
  assert (well_formed ex_dfa) as Hwf by compute_done.
  split; [done|]. exact (transformations_preserve_well_formedness ex_dfa Hwf).
Defined.

(** ** The constructor *)

(** X13: the constructor returns the automaton of its arguments exactly
    when the initial state is false as a Python value or is a state, the
    accepting states are states, every row belongs to a state, and every
    transition has its symbol in the alphabet or its target among the
    states; otherwise it raises [ValueError]. *)
Theorem constructor_returns_or_raises_ValueError al sts init acc tf :
  (DFA_init al sts init acc tf = Ok (mkDFA al sts init acc tf)
   ↔ (truthy init = true → init ∈ sts)
     ∧ acc ⊆ sts
     ∧ ∀ s sym2state, tf !! s = Some sym2state →
         s ∈ sts
         ∧ ∀ sym next_state, sym2state !! sym = Some next_state →
             sym ∈ symbols al ∨ next_state ∈ sts)
  ∧ (DFA_init al sts init acc tf = Ok (mkDFA al sts init acc tf)
     ∨ DFA_init al sts init acc tf = Raise ValueError).
Proof.
  rewrite <- check_input_Ok. unfold DFA_init.
  destruct (_check_input al sts init acc tf) as [[]|e] eqn:Hc; simpl.
  - split; [done|by left].
  - split; [done|]. right. by rewrite (check_input_raises_ValueError _ _ _ _ _ _ Hc).
Qed.

(** ** [word_acceptance] *)

(** X14: [word_acceptance] returns [True] exactly on the words over the
    alphabet whose run from the initial state is defined at every step and
    ends in an accepting state. *)
Theorem word_acceptance_true_iff_run (dfa : DFA) (word : list Symbol) :
  word_acceptance dfa word = Ok true
  ↔ (∀ char, char ∈ word → char ∈ symbols (alphabet dfa))
    ∧ ∃ t, run (transition_function dfa) (initial_state dfa) word = Some t
           ∧ t ∈ accepting_states dfa.
Proof.
  unfold word_acceptance.
  destruct (forallb _ word) eqn:Hall.
  - rewrite word_acceptance_from_true. split; [|by intros [_ ?]].
    intros H. split; [|done].
    exact (proj1 (forallb_bool_decide
                    (λ char : Symbol, char ∈ symbols (alphabet dfa)) word) Hall).
  - split; [done|]. intros [Hin _].
    pose proof (proj2 (forallb_bool_decide
                         (λ char : Symbol, char ∈ symbols (alphabet dfa)) word) Hin)
      as Htrue.
    simpl in Htrue. by rewrite Hall in Htrue.
Qed.

(** X15: [word_acceptance] raises [KeyError] exactly on the words over the
    alphabet whose run reaches, with a symbol still to read, a state that
    has no row in the table. *)
Theorem word_acceptance_KeyError_iff_rowless (dfa : DFA) (word : list Symbol) :
  word_acceptance dfa word = Raise KeyError
  ↔ (∀ char, char ∈ word → char ∈ symbols (alphabet dfa))
    ∧ ∃ w1 char w2 t,
        word = w1 ++ char :: w2
        ∧ run (transition_function dfa) (initial_state dfa) w1 = Some t
        ∧ transition_function dfa !! t = None.
Proof.
  unfold word_acceptance.
  destruct (forallb _ word) eqn:Hall.
  - rewrite word_acceptance_from_KeyError.
    pose proof (proj1 (forallb_bool_decide
                         (λ char : Symbol, char ∈ symbols (alphabet dfa)) word) Hall).
    split; [by intros ?|by intros [_ ?]].
  - split; [done|]. intros [Hin _].
    pose proof (proj2 (forallb_bool_decide
                         (λ char : Symbol, char ∈ symbols (alphabet dfa)) word) Hin)
      as Htrue.
    simpl in Htrue. by rewrite Hall in Htrue.
Qed.

(** X16: reading a word in two parts: when the run of [w1] from the
    initial state ends in [t], [word_acceptance] has on [w1 ++ w2] the
    outcome it has on [w2] for the automaton started in [t]. *)
Theorem word_acceptance_app (dfa : DFA) (w1 w2 : list Symbol) (t : State) :
  (∀ char, char ∈ w1 → char ∈ symbols (alphabet dfa)) →
  run (transition_function dfa) (initial_state dfa) w1 = Some t →
  word_acceptance dfa (w1 ++ w2)
  = word_acceptance
      (mkDFA (alphabet dfa) (states dfa) t (accepting_states dfa)
         (transition_function dfa)) w2.
Proof.
  intros Hin Hrun. unfold word_acceptance. simpl. rewrite forallb_app.
  rewrite (proj2 (forallb_bool_decide
                    (λ char : Symbol, char ∈ symbols (alphabet dfa)) w1) Hin).
  simpl.
  destruct (forallb _ w2); [|done].
  rewrite (word_acceptance_from_app _ _ _ _ _ Hrun).
  by apply word_acceptance_from_ext.
Qed.

Lemma word_acceptance_app_witness :
  (∀ char, char ∈ ["a"] → char ∈ symbols (alphabet ex_dfa))
  ∧ run (transition_function ex_dfa) (initial_state ex_dfa) ["a"] = Some (SInt 1)
  ∧ word_acceptance ex_dfa (["a"] ++ ["b"])
    = word_acceptance
        (mkDFA (alphabet ex_dfa) (states ex_dfa) (SInt 1) (accepting_states ex_dfa)
           (transition_function ex_dfa)) ["b"].
Proof.
  assert (∀ char, char ∈ ["a"] → char ∈ symbols (alphabet ex_dfa)) as Hin.
  { intros char Hc. apply list_elem_of_singleton in Hc as ->. compute_done. }
  assert (run (transition_function ex_dfa) (initial_state ex_dfa) ["a"] = Some (SInt 1))
    as Hrun by compute_done.
  split; [done|]. split; [done|].
  exact (word_acceptance_app ex_dfa ["a"] ["b"] (SInt 1) Hin Hrun).
Defined.

(** ** [minimize] *)

(** X17: on a well-formed automaton [minimize] returns an automaton when
    the initial state is a state, and returns none when it is not, in
    whatever order the classes are numbered. *)
Theorem minimize_returns_iff_initial_state
    (enumerate_set : gset (gset State) → list (gset State)) (dfa : DFA) :
  (∀ X, enumerate_set X ≡ₚ elements X) → well_formed dfa →
  (initial_state dfa ∈ states dfa →
   ∃ n dfa', ∀ fuel, n ≤ fuel → minimize_with enumerate_set fuel dfa = Some (Ok dfa'))
  ∧ (initial_state dfa ∉ states dfa →
     ∀ fuel dfa', minimize_with enumerate_set fuel dfa ≠ Some (Ok dfa')).
Proof.
  intros Henum Hwf. split.
  - intros Hi. by apply minimize_returns.
  - intros Hn fuel dfa'. apply minimize_without_initial_state; [done|].
    destruct (proj1 Hwf) as [Hi|Hi]; [|done]. split; [done|]. by rewrite <- Hi.
Qed.

Lemma minimize_returns_iff_initial_state_witness :
  (∀ X : gset (gset State), elements X ≡ₚ elements X) ∧ well_formed ex_dfa
  ∧ (initial_state ex_dfa ∈ states ex_dfa →
     ∃ n dfa', ∀ fuel, n ≤ fuel → minimize_with elements fuel ex_dfa = Some (Ok dfa'))
  ∧ (initial_state ex_dfa ∉ states ex_dfa →
     ∀ fuel dfa', minimize_with elements fuel ex_dfa ≠ Some (Ok dfa')).
Proof.
  assert (∀ X : gset (gset State), elements X ≡ₚ elements X) as Henum by done.
  assert (well_formed ex_dfa) as Hwf by compute_done.
  split; [done|]. split; [done|].
  exact (minimize_returns_iff_initial_state elements ex_dfa Henum Hwf).
Defined.



(** ** [_check_same_type] *)

(** X19: on values, that is on objects none of which is a class,
    [_check_same_type] does not compare types: it returns [True] when
    there are two values or more, whatever their types are, and [False]
    when there is one value or none. *)
Theorem check_same_type_counts_the_values (l : list PyObject) :
  (∀ o, o ∈ l → is_value o) → _check_same_type l = bool_decide (2 ≤ length l).
Proof.
  intros Hval. destruct l as [|l0 rest]; [done|]. simpl.
  rewrite forallb_class_eq_values by (intros o Ho; apply Hval; by right).
  destruct rest as [|o rest]; [done|].
  rewrite (bool_decide_eq_true_2 (2 ≤ length (l0 :: o :: rest))) by (simpl; lia).
  done.
Qed.

Lemma check_same_type_counts_the_values_witness :
  (∀ o, o ∈ [PInt 1; PInt 2] → is_value o)
  ∧ _check_same_type [PInt 1; PInt 2] = bool_decide (2 ≤ length [PInt 1; PInt 2]).
Proof.
  assert (∀ o, o ∈ [PInt 1; PInt 2] → is_value o) as Hval.
  { intros o Ho. apply elem_of_cons in Ho as [->|Ho]; [done|].
    apply list_elem_of_singleton in Ho as ->. done. }
  split; [done|]. exact (check_same_type_counts_the_values [PInt 1; PInt 2] Hval).
Defined.

(** ** [trim], [minimize] and [complete], continued *)

(** X20: [trim] is idempotent: called on its own result it returns that
    result. *)
Theorem trim_idempotent (dfa : DFA) :
  ∃ n dfa',
    (∀ fuel, n ≤ fuel → trim fuel dfa = Some (Ok dfa'))
    ∧ ∃ n', ∀ fuel, n' ≤ fuel → trim fuel dfa' = Some (Ok dfa').
Proof.
  destruct (trim_returns dfa) as (n & dfa' & Hr). exists n, dfa'. split; [done|].
  destruct (trim_returns dfa') as (n' & dfa'' & Hr'). exists n'. intros fuel Hfuel.
  rewrite (Hr' fuel Hfuel). do 2 f_equal.
  by apply (trim_Ok_twice n fuel dfa dfa' dfa'' (Hr n (le_n _)) (Hr' fuel Hfuel)).
Qed.

(** X21: [minimize] keeps the outcome on the empty word: on a well-formed
    automaton, the automaton it returns accepts the empty word exactly
    when the argument does, in whatever order the classes are numbered. *)
Theorem minimize_preserves_the_empty_word
    (enumerate_set : gset (gset State) → list (gset State)) (fuel : nat)
    (dfa dfa' : DFA) :
  (∀ X, enumerate_set X ≡ₚ elements X) → well_formed dfa →
  minimize_with enumerate_set fuel dfa = Some (Ok dfa') →
  word_acceptance dfa' [] = word_acceptance dfa [].
Proof.
  intros Henum Hwf H. unfold word_acceptance. simpl. f_equal.
  apply bool_decide_ext. by apply (minimize_with_Ok_empty_word enumerate_set fuel).
Qed.

Lemma minimize_preserves_the_empty_word_witness :
  (∀ X : gset (gset State), elements X ≡ₚ elements X) ∧ well_formed ex_dfa
  ∧ ∃ dfa', minimize_with elements 10 ex_dfa = Some (Ok dfa')
      ∧ word_acceptance dfa' [] = word_acceptance ex_dfa [].
Proof.
  assert (∀ X : gset (gset State), elements X ≡ₚ elements X) as Henum by done.
  assert (well_formed ex_dfa) as Hwf by compute_done.
  split; [done|]. split; [done|].
  destruct (returns_with_inv (minimize_with elements 10 ex_dfa) ["b"; "a"] (Raise KeyError))
    as (dfa' & Hmin & _); [compute_done|].
  exists dfa'. split; [done|].
  exact (minimize_preserves_the_empty_word elements 10 ex_dfa dfa' Henum Hwf Hmin).
Defined.



(** ** [minimize] without initial state *)

(** The loop of [minimize] comes to rest on the completion of a
    well-formed automaton, with every state related to itself. *)
Lemma minimize_loop_rests (dfa completed : DFA) :
  well_formed dfa → complete dfa = Ok completed →
  ∃ n z, (∀ fuel, n ≤ fuel →
            minimize_loop fuel completed ∅ (same_acceptance_pairs completed)
            = Some (Ok z))
         ∧ reflexive_on (states completed) z
         ∧ z ⊆ same_acceptance_pairs completed.
Proof.
  intros Hwf Hc.
  pose proof (complete_rows_total dfa completed Hwf Hc) as Htotal.
  set (Z0 := same_acceptance_pairs completed).
  pose proof (same_acceptance_pairs_reflexive completed) as Hrefl0. fold Z0 in Hrefl0.
  destruct (minimize_body_returns completed Htotal Z0) as (Z1 & HZ1 & Hrefl1).
  destruct (minimize_loop_returns completed Htotal (S (size Z1)) Z0 Z1)
    as (z & Hz & Hreflz).
  { by apply minimize_body_subseteq in HZ1. }
  { right. lia. }
  { by apply Hrefl1. }
  exists (S (S (size Z1))), z. split; [|split; [done|]].
  - intros fuel Hfuel. destruct fuel as [|fuel]; [lia|]. simpl.
    rewrite bool_decide_eq_false_2.
    + rewrite HZ1. apply (minimize_loop_more_fuel _ _ fuel _ _ _ Hz). lia.
    + intros Heq. assert ((Sink, Sink) ∈ Z0) as Hin.
      { apply Hrefl0. apply complete_inv in Hc as ->. simpl. set_solver. }
      rewrite <- Heq in Hin. set_solver.
  - apply minimize_loop_subseteq in Hz. apply minimize_body_subseteq in HZ1. set_solver.
Qed.

(** The loops of lines 88-96 return when every state has a class. *)
Lemma quotient_loops_return (dfa : DFA) (z : gset (State * State))
    (order : list (gset State)) :
  rows_total dfa → accepting_states dfa ⊆ states dfa →
  reflexive_on (states dfa) z →
  order ≡ₚ elements (equivalence_classes_of (state2equiv_class_of z)) →
  (∃ new_transition_function : gmap State (gmap Symbol State),
     for_each (map_to_list (transition_function dfa)) ∅
       (λ '(state, sym2state) new_transition_function,
          new_state' ← new_state_of (state2equiv_class_of z)
                          (equiv_class2new_state_of order) state;
          for_each (map_to_list sym2state) new_transition_function
            (λ '(action, next_state) new_transition_function,
               new_next_state ← new_state_of (state2equiv_class_of z)
                                   (equiv_class2new_state_of order) next_state;
               Ok (<[new_state' := <[action := new_next_state]>
                                     (default ∅ (new_transition_function !! new_state'))]>
                     new_transition_function)))
     = Ok new_transition_function)
  ∧ ∃ new_final_states : gset State,
      for_each (elements (accepting_states dfa)) ∅
        (λ old_state new_final_states,
           s ← new_state_of (state2equiv_class_of z)
                 (equiv_class2new_state_of order) old_state;
           Ok (new_final_states ∪ {[s]}))
      = Ok new_final_states.
Proof.
  intros Htotal Haccepting Hrefl Horder. split.
  - destruct (for_each_returns (λ _ : gmap State (gmap Symbol State), True)
                (map_to_list (transition_function dfa)) ∅
                (λ '(state, sym2state) new_transition_function,
                   new_state' ← new_state_of (state2equiv_class_of z)
                                   (equiv_class2new_state_of order) state;
                   for_each (map_to_list sym2state) new_transition_function
                     (λ '(action, next_state) new_transition_function,
                        new_next_state ← new_state_of (state2equiv_class_of z)
                                            (equiv_class2new_state_of order) next_state;
                        Ok (<[new_state' := <[action := new_next_state]>
                                              (default ∅ (new_transition_function !! new_state'))]>
                              new_transition_function))))
      as (ntf & Hntf & _); [done| |eauto].
    intros [state row] acc Hin _. apply elem_of_map_to_list in Hin.
    destruct (Htotal state row Hin) as (Hstate & _ & Htargets).
    destruct (new_state_of_returns dfa z order state Hrefl Horder Hstate) as (v & -> & _).
    simpl. apply for_each_returns; [done|].
    intros [action next] acc' Hin' _. apply elem_of_map_to_list in Hin'.
    destruct (new_state_of_returns dfa z order next Hrefl Horder (Htargets _ _ Hin'))
      as (w & -> & _).
    simpl. eauto.
  - destruct (for_each_returns (λ _ : gset State, True)
                (elements (accepting_states dfa)) ∅
                (λ old_state new_final_states,
                   s ← new_state_of (state2equiv_class_of z)
                         (equiv_class2new_state_of order) old_state;
                   Ok (new_final_states ∪ {[s]})))
      as (nf & Hnf & _); [done| |eauto].
    intros x acc Hx _. apply elem_of_elements in Hx.
    destruct (new_state_of_returns dfa z order x Hrefl Horder (Haccepting x Hx))
      as (v & -> & _).
    simpl. eauto.
Qed.

(** X23: on a well-formed automaton whose initial state is not one of its
    states, that is, on a well-formed automaton without initial state,
    [minimize] raises [KeyError], in whatever order the classes are
    numbered: the loops end, and the lookup of the class of the initial
    state at line 98 fails. *)
Theorem minimize_raises_KeyError_without_initial_state
    (enumerate_set : gset (gset State) → list (gset State)) (dfa : DFA) :
  (∀ X, enumerate_set X ≡ₚ elements X) → well_formed dfa →
  initial_state dfa ∉ states dfa →
  ∃ n, ∀ fuel, n ≤ fuel → minimize_with enumerate_set fuel dfa = Some (Raise KeyError).
Proof.
  intros Henum Hwf Hinit.
  destruct (complete_returns dfa Hwf) as [c Hc].
  destruct (minimize_loop_rests dfa c Hwf Hc) as (n & z & Hloop & Hrefl & Hsub).
  pose proof (complete_rows_total dfa c Hwf Hc) as Htotal.
  pose proof (complete_inv _ _ Hc) as Heq.
  exists n. intros fuel Hfuel. unfold minimize_with. rewrite Hc. simpl.
  rewrite (Hloop fuel Hfuel). simpl. f_equal. unfold quotient.
  destruct (quotient_loops_return c z
              (enumerate_set (equivalence_classes_of (state2equiv_class_of z))))
    as [[ntf ->] [nf ->]]; [done| |done|apply Henum|].
  { rewrite Heq. simpl. destruct Hwf as (_ & Ha & _). set_solver. }
  simpl.
  assert (state2equiv_class_of z !! initial_state c = None) as Hnone.
  { destruct (state2equiv_class_of z !! initial_state c) as [X|] eqn:HX; [|done].
    apply state2equiv_class_of_lookup in HX as [t Ht]. apply Hsub in Ht.
    apply elem_of_same_acceptance_pairs in Ht as [Hs _]. exfalso.
    rewrite Heq in Hs. simpl in Hs.
    destruct (proj1 Hwf) as [Hi|Hi]; [|done]. rewrite Hi in Hs, Hinit.
    apply elem_of_union in Hs as [Hs|Hs]; [done|].
    by apply elem_of_singleton in Hs. }
  unfold new_state_of, getitem. by rewrite Hnone.
Qed.

Lemma minimize_raises_KeyError_without_initial_state_witness :
  (∀ X : gset (gset State), elements X ≡ₚ elements X)
  ∧ well_formed ex_dfa_no_initial
  ∧ (initial_state ex_dfa_no_initial ∉ states ex_dfa_no_initial)
  ∧ ∃ n, ∀ fuel, n ≤ fuel
           → minimize_with elements fuel ex_dfa_no_initial = Some (Raise KeyError).
Proof.
  assert (∀ X : gset (gset State), elements X ≡ₚ elements X) as Henum by done.
  assert (well_formed ex_dfa_no_initial) as Hwf by compute_done.
  assert (initial_state ex_dfa_no_initial ∉ states ex_dfa_no_initial) as Hi
    by compute_done.
  split; [done|]. split; [done|]. split; [done|].
  exact (minimize_raises_KeyError_without_initial_state elements ex_dfa_no_initial
           Henum Hwf Hi).
Defined.
